(** * LOOS binary I/O core: XDR word codec, DCD writer, MultiTrajectory

    A shallow embedding of
      - [src/xdr.hpp]            (class [loos::internal::XDR]),
      - [src/dcdwriter.hpp]      (class [loos::DCDWriter]),
      - [src/src/MultiTraj.cpp]  (class [loos::MultiTrajectory]),
      - [src/MatrixStorage.hpp]  (classes [loos::SharedArray] and
                                  [loos::SparseArray]),
      - [src/utils.hpp]          ([loos::parseRange] and
                                  [loos::parseRangeList], for [int]),
    together with the properties of the core that the specification
    states about them and further properties of the code.

    Conventions.  A C++ [uint] is a [Z] in [[0, 2^32)]; arithmetic the
    code performs on it is written with its wrap-around ([wrap]).  A
    [char] buffer is a [list byte]; the object representation of a
    scalar of type [T] is the list of its [sizeof(T)] bytes in memory
    order.  A method that mutates [*this] takes the object and returns
    the new one; a method that throws returns a sum. *)

From Stdlib Require Import ZArith List Lia Bool.
From Stdlib.Strings Require Import Byte String.
From stdpp Require Import base list gmap sorting.
Import ListNotations.

Local Open Scope Z_scope.

(** ** Machine integers and bytes *)

Definition wrap (z : Z) : Z := z mod 2 ^ 32.

Definition byte_of_Z (z : Z) : byte :=
  match Byte.of_N (Z.to_N (z mod 256)) with
  | Some b => b
  | None => x00
  end.

Definition Z_of_byte (b : byte) : Z := Z.of_N (Byte.to_N b).

(** Big-endian (network order) bytes of a 32-bit word, most significant
    first, and the inverse. *)
Definition be_bytes (v : Z) : list byte :=
  [byte_of_Z (v / 2 ^ 24); byte_of_Z (v / 2 ^ 16); byte_of_Z (v / 2 ^ 8); byte_of_Z v].

Definition be_decode (bs : list byte) : Z :=
  fold_left (fun acc b => acc * 256 + Z_of_byte b) bs 0.

(** Object representation of a 32-bit scalar on the host: little-endian
    hosts store the least significant byte first. *)
Definition host_repr (little_endian : bool) (v : Z) : list byte :=
  if little_endian then rev (be_bytes v) else be_bytes v.

(** The 32-bit value a host holds in four bytes of its memory. *)
Definition host_value (little_endian : bool) (bs : list byte) : Z :=
  be_decode (if little_endian then rev bs else bs).

(** ** std::iostream *)

Module IOStream.

(** The part of [std::iostream] the codec and the writer use: a byte
    sequence, a get position, a put position and the failure state
    ([fail()] is [failbit | badbit]). *)
Record iostream : Type := mk {
  buf : list byte;
  gpos : nat;
  ppos : nat;
  failbit : bool
}.

Definition fail (s : iostream) : bool := failbit s.

Definition empty : iostream := mk [] 0 0 false.

(** [stream->read(p, n)]: nothing happens on a failed stream; when
    fewer than [n] bytes remain, the remaining bytes are delivered and
    the stream fails.  Returns the stream and the bytes stored at [p]. *)
Definition read (s : iostream) (n : nat) : iostream * list byte :=
  if failbit s then (s, [])
  else
    let avail := drop (gpos s) (buf s) in
    if (n <=? length avail)%nat
    then (mk (buf s) (gpos s + n) (ppos s) false, take n avail)
    else (mk (buf s) (gpos s + length avail) (ppos s) true, avail).

(** [stream->write(p, n)] with [data] the [n] bytes at [p]: overwrites
    from the put position and extends the sequence as needed (a gap
    before the put position is filled with zero bytes). *)
Definition write (s : iostream) (data : list byte) : iostream :=
  if failbit s then s
  else
    match data with
    | [] => s
    | _ =>
      mk (take (ppos s) (buf s) ++ replicate (ppos s - length (buf s)) x00
            ++ data ++ drop (ppos s + length data) (buf s))
         (gpos s) (ppos s + length data) false
    end.

Definition tellp (s : iostream) : nat := ppos s.

(** [seekp(pos)] / [seekg(pos)]: no effect on a failed stream. *)
Definition seekp (s : iostream) (pos : nat) : iostream :=
  if failbit s then s else mk (buf s) (gpos s) pos false.

Definition seekg (s : iostream) (pos : nat) : iostream :=
  if failbit s then s else mk (buf s) pos (ppos s) false.

(** The bytes in front of the put position once a write has happened. *)
Definition before (s : iostream) : list byte :=
  take (ppos s) (buf s) ++ replicate (ppos s - length (buf s)) x00.

(** A healthy stream whose put position is the end of its bytes. *)
Definition at_end (s : iostream) : Prop :=
  failbit s = false /\ ppos s = length (buf s).

End IOStream.

(** ** src/xdr.hpp *)

Module XDR.
Import IOStream.

Inductive logic_error : Type := LogicError (what : string).

Record XDR : Type := mkXDR {
  stream : iostream;
  need_to_swab : bool
}.

Definition set_stream (x : XDR) (s : iostream) : XDR :=
  mkXDR s (need_to_swab x).

(** [sizeof(uint)]. *)
Definition sizeof_uint : nat := 4.

(** [XDR::XDR(std::iostream* s)]: the host is probed by looking at the
    first byte in memory of [int test = 0x1234]. *)
Definition new (host_little_endian : bool) (s : iostream) : XDR :=
  let test := host_repr host_little_endian 4660 in
  mkXDR s (if Byte.eqb (hd x00 test) x34 then true else false).

Definition block_size (x : XDR) : Z := Z.of_nat sizeof_uint.

Definition get (x : XDR) : iostream := stream x.

(** Modelled from the spec: [swab] is declared in a header that is not
    among the sources ([utils.hpp] here does not define it); the codec
    "byte-swaps if required", that is, the bytes of the object
    representation of its argument are reversed. *)
Definition swab (datum : list byte) : list byte := rev datum.

(** The [sizeof(T) > 1 && need_to_swab] test. *)
Definition swabs (x : XDR) (sizeofT : nat) : bool :=
  (1 <? sizeofT)%nat && need_to_swab x.

Definition uint_of_bool (b : bool) : Z := if b then 1 else 0.

(** [template<typename T> uint read(T* p)].  [sizeofT] is [sizeof(T)];
    [data0] is the indeterminate content of the local [uint data]
    before the stream stores into it.  On success of the size check
    the result is the codec, the bytes stored to [*p] and the returned
    [uint]. *)
Definition read (x : XDR) (sizeofT : nat) (data0 : list byte)
  : logic_error + (XDR * list byte * Z) :=
  if (sizeof_uint <? sizeofT)%nat
  then inl (LogicError "Attempting to read a POD that is too large")
  else
    let '(s', got) := IOStream.read (stream x) sizeof_uint in
    let data := got ++ drop (length got) data0 in
    let pdata := take sizeofT data in
    let result := if swabs x sizeofT then swab pdata else pdata in
    inr (set_stream x s', result, uint_of_bool (negb (fail s'))).

(** [template<typename T> uint write(T* p)].  [p] is the object
    representation of [*p] (so [sizeof(T) = length p]); [u0] is the
    indeterminate content of the local [uint u] into whose first
    [sizeof(T)] bytes [*p] is stored. *)
Definition write (x : XDR) (u0 : list byte) (p : list byte)
  : logic_error + (XDR * Z) :=
  if (sizeof_uint <? length p)%nat
  then inl (LogicError "Attempting to write a POD that is too large")
  else
    let u := p ++ drop (length p) u0 in
    let u := if swabs x (length p) then swab u else u in
    let s' := IOStream.write (stream x) (take sizeof_uint u) in
    inr (set_stream x s', uint_of_bool (negb (fail s'))).

(** [rndup = n % sizeof(uint); if (rndup > 0) rndup = sizeof(uint) - rndup]. *)
Definition rndup (n : nat) : nat :=
  let r := (n mod sizeof_uint)%nat in
  if (0 <? r)%nat then (sizeof_uint - r)%nat else r.

(** [uint read(char* p, uint n)]: [p] is the destination buffer; the
    result holds its content afterwards. *)
Definition read_block (x : XDR) (p : list byte) (n : nat) : XDR * list byte * Z :=
  if (n =? 0)%nat then (x, p, 1)
  else
    let r := rndup n in
    let '(s1, got) := IOStream.read (stream x) n in
    let p' := got ++ drop (length got) p in
    if fail s1 then (set_stream x s1, p', 0)
    else
      let s2 := if (0 <? r)%nat then fst (IOStream.read s1 r) else s1 in
      (set_stream x s2, p', Z.of_nat n).

(** [uint write(char* p, const uint n)]: the static [buf] is four zero
    bytes. *)
Definition write_block (x : XDR) (p : list byte) (n : nat) : XDR * Z :=
  let buf := replicate sizeof_uint x00 in
  let r := rndup n in
  let s1 := IOStream.write (stream x) (take n p) in
  let s2 := if negb (fail s1) then IOStream.write s1 (take r buf) else s1 in
  (set_stream x s2, if fail s2 then 0 else Z.of_nat n).

(** [template<typename T> uint write(T* ary, const uint n)]: the loop
    [for (i=0; i<n && write(&(ary[i])); ++i)] over the elements. *)
Fixpoint write_array (x : XDR) (u0 : list byte) (ary : list (list byte)) (i : Z)
  : logic_error + (XDR * Z) :=
  match ary with
  | [] => inr (x, i)
  | e :: rest =>
    match write x u0 e with
    | inl err => inl err
    | inr (x', ok) =>
      if ok =? 0 then inr (x', i) else write_array x' u0 rest (wrap (i + 1))
    end
  end.

(** [template<typename T> uint read(T* ary, const uint n)]: the loop
    [for (i=0; i<n && read(&(ary[i])); ++i)].  [ary] is the destination
    array as it is before the call; the result holds it afterwards. *)
Fixpoint read_array (x : XDR) (sizeofT : nat) (data0 : list byte)
    (ary : list (list byte)) (i : Z)
  : logic_error + (XDR * list (list byte) * Z) :=
  match ary with
  | [] => inr (x, [], i)
  | e :: rest =>
    match read x sizeofT data0 with
    | inl err => inl err
    | inr (x', v, ok) =>
      if ok =? 0 then inr (x', v :: rest, i)
      else
        match read_array x' sizeofT data0 rest (wrap (i + 1)) with
        | inl err => inl err
        | inr (x'', rest', n) => inr (x'', v :: rest', n)
        end
    end
  end.

(** The word a scalar write puts on the stream. *)
Definition encoded (x : XDR) (u0 p : list byte) : list byte :=
  let u := p ++ drop (length p) u0 in
  take sizeof_uint (if swabs x (length p) then swab u else u).

(** The scalar a read makes of the word [w] it has got from the stream. *)
Definition decoded (x : XDR) (sizeofT : nat) (w : list byte) : list byte :=
  let pdata := take sizeofT w in
  if swabs x sizeofT then swab pdata else pdata.

End XDR.

(** ** Model / frame consumer interface *)

(** A coordinate triple; each component is the bit pattern of a float,
    which the core never interprets. *)
Definition GCoord : Type := (Z * Z * Z)%type.

(** The part of [AtomicGroup] the core looks at: one coordinate triple
    per atom and the periodic box, when there is one. *)
Record AtomicGroup : Type := mkGroup {
  coords : list GCoord;
  periodicBox : option GCoord
}.

Definition size (g : AtomicGroup) : Z := Z.of_nat (length (coords g)).

Definition isPeriodic (g : AtomicGroup) : bool :=
  match periodicBox g with Some _ => true | None => false end.

(** ** TrajectorySource *)

Module Traj.

(** Modelled from the spec: the concrete readers ([Trajectory] and its
    subclasses) are not among the sources.  A source is the capability
    of section 6: [nativeFrameCount()], [rewindToStart()],
    [loadFrame(nativeOffset) -> success/failure] and
    [copyCoordinatesInto(model)].  It holds its frames, its position
    and the frame it has loaded last, if any. *)
Record Trajectory : Type := mk {
  frames : list AtomicGroup;
  position : Z;
  loaded : option AtomicGroup
}.

Definition nframes (t : Trajectory) : Z := Z.of_nat (length (frames t)).

Definition rewind (t : Trajectory) : Trajectory :=
  mk (frames t) 0 (loaded t).

(** [readFrame(i)]: loads frame [i] when the source has it. *)
Definition readFrame (t : Trajectory) (i : Z) : Trajectory * bool :=
  if (0 <=? i) && (i <? nframes t) then
    match frames t !! Z.to_nat i with
    | Some f => (mk (frames t) (i + 1) (Some f), true)
    | None => (t, false)
    end
  else (t, false).

(** [updateGroupCoords(g)]: the coordinates of the loaded frame are
    copied into [g]. *)
Definition updateGroupCoords (t : Trajectory) (g : AtomicGroup) : AtomicGroup :=
  match loaded t with
  | Some f => mkGroup (coords f) (periodicBox g)
  | None => g
  end.

(** A source of [n] frames of one atom each; frame [i] of source [s]
    holds the coordinate [(s, i, 0)].  Used in the examples. *)
Definition sample (s : Z) (n : nat) : Trajectory :=
  mk (map (fun i => mkGroup [(s, Z.of_nat i, 0)] None) (seq 0 n)) 0 None.

End Traj.

(** ** src/src/MultiTraj.cpp *)

Module MultiTraj.

Inductive FileReadError : Type := FileReadErrorMsg (what : string).

(** The data members of [class MultiTrajectory].  Their declarations are
    in the absent [MultiTraj.hpp]; the spec gives them as non-negative
    integers (section 3) and they are integers here.  The locals the
    source declares as [uint] ([i], [j], [k], [n]) wrap, and so do the
    sums the source assigns to a member ([_curframe += _stride],
    [_nframes += nframes(i)]). *)
Record MultiTrajectory : Type := mkMulti {
  _trajectories : list Traj.Trajectory;
  _skip : Z;
  _stride : Z;
  _curtraj : Z;
  _curframe : Z;
  _nframes : Z
}.

Definition Location : Type := (Z * Z)%type.

Definition set_trajectories (m : MultiTrajectory) (ts : list Traj.Trajectory) :=
  mkMulti ts (_skip m) (_stride m) (_curtraj m) (_curframe m) (_nframes m).
Definition set_curtraj (m : MultiTrajectory) (k : Z) :=
  mkMulti (_trajectories m) (_skip m) (_stride m) k (_curframe m) (_nframes m).
Definition set_curframe (m : MultiTrajectory) (f : Z) :=
  mkMulti (_trajectories m) (_skip m) (_stride m) (_curtraj m) f (_nframes m).
Definition set_nframes (m : MultiTrajectory) (n : Z) :=
  mkMulti (_trajectories m) (_skip m) (_stride m) (_curtraj m) (_curframe m) n.

(** [_trajectories.size()] and [_trajectories[k]]. *)
Definition ntraj (m : MultiTrajectory) : Z := Z.of_nat (length (_trajectories m)).

Definition traj_at (m : MultiTrajectory) (k : Z) : option Traj.Trajectory :=
  _trajectories m !! Z.to_nat k.

(** Modelled from the spec: [MultiTraj.hpp] is not among the sources.
    It declares [eof()]: "atEnd = source_index >= numSources". *)
Definition eof (m : MultiTrajectory) : bool := ntraj m <=? _curtraj m.

(** Modelled from the spec: the usable virtual frame count of a source
    with [n] native frames, "max(0, floor((nativeCount - skip - 1) /
    stride) + 1) when nativeCount > skip, else 0". *)
Definition usable (skip stride n : Z) : Z :=
  if n >? skip then Z.max 0 ((n - skip - 1) / stride + 1) else 0.

(** Modelled from the spec: [nframes(const uint i)] of the absent
    [MultiTraj.hpp], the usable frame count of source [i]. *)
Definition nframes (m : MultiTrajectory) (i : Z) : Z :=
  match traj_at m i with
  | Some t => usable (_skip m) (_stride m) (Traj.nframes t)
  | None => 0
  end.

(** Modelled from the spec: [rewindImpl] assigns [skip] to the frame
    cursor; the declaration of that name is in the absent header, and
    the spec reads it as the skip of the stream ("native_offset =
    skip"). *)
Definition skip (m : MultiTrajectory) : Z := _skip m.

(** [findNextUsableTraj]: the loop
    [for (; _curtraj < size; ++_curtraj) if (nframes() > _skip) break;]
    run for at most [fuel] iterations. *)
Fixpoint findNextUsableTraj_loop (fuel : nat) (m : MultiTrajectory) : MultiTrajectory :=
  match fuel with
  | O => m
  | S fuel' =>
    if _curtraj m <? ntraj m then
      match traj_at m (_curtraj m) with
      | Some t =>
        if Traj.nframes t >? _skip m then m
        else findNextUsableTraj_loop fuel' (set_curtraj m (_curtraj m + 1))
      | None => m
      end
    else m
  end.

Definition findNextUsableTraj (m : MultiTrajectory) : MultiTrajectory :=
  findNextUsableTraj_loop (length (_trajectories m)) m.

(** [_trajectories[_curtraj]->readFrame(_curframe)]: the current source
    is replaced by the one that has loaded the frame. *)
Definition readCurrent (m : MultiTrajectory) : MultiTrajectory * bool :=
  match traj_at m (_curtraj m) with
  | Some t =>
    let '(t', ok) := Traj.readFrame t (_curframe m) in
    (set_trajectories m (<[Z.to_nat (_curtraj m) := t']> (_trajectories m)), ok)
  | None => (m, false)
  end.

Definition rewindImpl (m : MultiTrajectory) : MultiTrajectory :=
  let m := set_trajectories m (map Traj.rewind (_trajectories m)) in
  let m := set_curtraj m 0 in
  let m := set_curframe m (skip m) in
  let m := findNextUsableTraj m in
  if negb (eof m) then fst (readCurrent m) else m.

(** The loop of [frameIndexToLocation], from source [k] with [j] frames
    counted so far; it yields the final [k] and [j]. *)
Fixpoint frameIndexToLocation_loop (fuel : nat) (m : MultiTrajectory) (i k j : Z) : Z * Z :=
  match fuel with
  | O => (k, j)
  | S fuel' =>
    if k <? ntraj m then
      let n := wrap (nframes m k) in
      if wrap (j + n) >? i then (k, j)
      else frameIndexToLocation_loop fuel' m i (wrap (k + 1)) (wrap (j + n))
    else (k, j)
  end.

(** The offset [_skip + (i-j) * _stride] is formed from the members:
    it is the code's [uint] value whenever it is below [2^32], which it
    is for every index below the total over sources whose frame counts
    are [uint]s, the offset being below the native count of the source
    (lemma [owned_offset_in_range]). *)
Definition frameIndexToLocation (m : MultiTrajectory) (i : Z) : Location :=
  let '(k, j) := frameIndexToLocation_loop (length (_trajectories m)) m i 0 0 in
  (k, _skip m + wrap (i - j) * _stride m).

Definition seekNextFrameImpl (m : MultiTrajectory) : MultiTrajectory :=
  if eof m then m
  else
    let m := set_curframe m (wrap (_curframe m + _stride m)) in
    match traj_at m (_curtraj m) with
    | Some t =>
      if _curframe m >=? Traj.nframes t then
        let m := set_curframe m (_skip m) in
        let m := set_curtraj m (_curtraj m + 1) in
        findNextUsableTraj m
      else m
    | None => m
    end.

Definition seekFrameImpl (m : MultiTrajectory) (i : Z) : FileReadError + MultiTrajectory :=
  if i >=? _nframes m
  then inl (FileReadErrorMsg "Cannot seek past end of MultiTraj")
  else
    let idx := frameIndexToLocation m i in
    let m := set_curtraj m (fst idx) in
    inr (set_curframe m (snd idx)).

Definition parseFrame (m : MultiTrajectory) : MultiTrajectory * bool :=
  if eof m then (m, false) else readCurrent m.

Definition updateGroupCoordsImpl (m : MultiTrajectory) (g : AtomicGroup) : AtomicGroup :=
  if negb (eof m) then
    match traj_at m (_curtraj m) with
    | Some t => Traj.updateGroupCoords t g
    | None => g
    end
  else g.

(** [initWithList]: [created] are the sources [createTrajectory] has
    opened for the file names, in order. *)
Fixpoint initWithList_loop (created : list Traj.Trajectory) (i : Z) (m : MultiTrajectory)
  : MultiTrajectory :=
  match created with
  | [] => m
  | traj :: rest =>
    let m := set_trajectories m (_trajectories m ++ [traj]) in
    let m := set_nframes m (wrap (_nframes m + nframes m i)) in
    initWithList_loop rest (wrap (i + 1)) m
  end.

Definition initWithList (created : list Traj.Trajectory) (m : MultiTrajectory) : MultiTrajectory :=
  initWithList_loop created 0 m.

(** Modelled from the spec: the constructors are in the absent header.
    "Construction": the sources are opened in order, [skip] and
    [stride] are recorded and the total is the sum of the usable
    counts. *)
Definition construct (created : list Traj.Trajectory) (skip stride : Z) : MultiTrajectory :=
  initWithList created (mkMulti [] skip stride 0 0 0).

(** [k] calls of [seekNextFrameImpl]. *)
Fixpoint advance (k : nat) (m : MultiTrajectory) : MultiTrajectory :=
  match k with
  | O => m
  | S k' => advance k' (seekNextFrameImpl m)
  end.

Definition cursor (m : MultiTrajectory) : Location := (_curtraj m, _curframe m).

(** *** Vocabulary of the specification *)

Definition sumZ (l : list Z) : Z := fold_right Z.add 0 l.

(** Native frame count of source [k]. *)
Definition native (m : MultiTrajectory) (k : Z) : Z :=
  match traj_at m k with
  | Some t => Traj.nframes t
  | None => 0
  end.

(** Usable frame counts of the sources, in order. *)
Definition usables (m : MultiTrajectory) : list Z :=
  map (fun t => usable (_skip m) (_stride m) (Traj.nframes t)) (_trajectories m).

(** "the cumulative virtual-frame count of all prior sources". *)
Definition base (m : MultiTrajectory) (k : Z) : Z :=
  sumZ (take (Z.to_nat k) (usables m)).

(** "Total virtual frame count is the sum across sources." *)
Definition total (m : MultiTrajectory) : Z := sumZ (usables m).

(** Source [k] owns virtual index [i]. *)
Definition owns (m : MultiTrajectory) (k i : Z) : Prop :=
  0 <= k < ntraj m /\ base m k <= i < base m k + nframes m k.

(** The native frame counts, the skip and the stride: all the counting
    vocabulary depends on these only. *)
Definition shape (m : MultiTrajectory) : list Z * Z * Z :=
  (map Traj.nframes (_trajectories m), _skip m, _stride m).

(** No sum of the cursor arithmetic leaves the range of a [uint]: the
    skip is not negative and, for every source, the native frame count
    plus the stride is below [2^32]. *)
Definition cursor_fits_uint (m : MultiTrajectory) : bool :=
  (0 <=? _skip m) &&
  forallb (fun t => Traj.nframes t + _stride m <? 2 ^ 32) (_trajectories m).

(** The state invariant of sequential iteration: at end, or at a source
    that has frames past the skip. *)
Definition at_usable (m : MultiTrajectory) : Prop :=
  0 <= _curtraj m /\
  (_curtraj m = ntraj m \/ _curtraj m < ntraj m /\ _skip m < native m (_curtraj m)).

End MultiTraj.

(** ** src/dcdwriter.hpp *)

Module DCDWriter.
Import IOStream.

Section Host.

(** Byte order of the host the writer runs on. *)
Variable host_little_endian : bool.

(** The data members of [class DCDWriter].  The integers are C++
    [int]s; [_timestep] is kept as the bit pattern of the float that
    goes to the file.  [_header_written] is model state, not a member
    of the class: whether a header record has been emitted (how
    [writeFrame] tells the implicit mode is in the absent
    [dcdwriter.cpp]). *)
Record DCDWriter : Type := mk {
  _natoms : Z;
  _nsteps : Z;
  _timestep : Z;
  _current : Z;
  _has_box : bool;
  _ofs : iostream;
  _titles : list string;
  _header_written : bool
}.

Definition set_ofs (w : DCDWriter) (s : iostream) : DCDWriter :=
  mk (_natoms w) (_nsteps w) (_timestep w) (_current w) (_has_box w) s
     (_titles w) (_header_written w).

(** The float [0.001] as a 32-bit pattern ([0x3a83126f]). *)
Definition default_timestep : Z := 981668463.

(** [explicit DCDWriter(std::iostream& fs)]. *)
Definition new (fs : iostream) : DCDWriter :=
  mk 0 0 default_timestep 0 false fs ["AUTO GENERATED BY LOOS"%string] false.

Definition setHeader (w : DCDWriter) (na ns ts : Z) (bf : bool) : DCDWriter :=
  mk na ns ts (_current w) bf (_ofs w) (_titles w) (_header_written w).

Definition setTitles (w : DCDWriter) (titles : list string) : DCDWriter :=
  mk (_natoms w) (_nsteps w) (_timestep w) (_current w) (_has_box w) (_ofs w)
     titles (_header_written w).

Definition addTitle (w : DCDWriter) (s : string) : DCDWriter :=
  setTitles w (_titles w ++ [s]).

Definition setTitle (w : DCDWriter) (s : string) : DCDWriter :=
  addTitle (setTitles w []) s.

Definition framesWritten (w : DCDWriter) : Z := _current w.

(** One scalar through the codec: the host representation of the word
    is handed to [XDR::write]. *)
Definition put_word (s : iostream) (v : Z) : iostream :=
  match XDR.write (XDR.new host_little_endian s) [] (host_repr host_little_endian (wrap v)) with
  | inr (x, _) => XDR.stream x
  | inl _ => s
  end.

Definition put_words (s : iostream) (vs : list Z) : iostream :=
  fold_left put_word vs s.

(** One title record through the codec's padded block write. *)
Definition put_title (s : iostream) (t : string) : iostream :=
  let bytes := list_byte_of_string t in
  XDR.stream (fst (XDR.write_block (XDR.new host_little_endian s) bytes (length bytes))).

Definition uint_of_flag (b : bool) : Z := if b then 1 else 0.

(** Byte offset of the step count in the header record: it is the
    second word. *)
Definition step_count_offset : nat := 4.

(** Modelled from the spec: [writeHeader] is defined in the absent
    [dcdwriter.cpp].  Section 6: "a header record (atom count, step
    count, timestep, box-flag, title records, all as fixed-size fields
    per the WordCodec's word size)". *)
Definition writeHeader (w : DCDWriter) : DCDWriter :=
  let s := put_words (_ofs w)
             [_natoms w; _nsteps w; _timestep w; uint_of_flag (_has_box w)] in
  let s := fold_left put_title (_titles w) s in
  mk (_natoms w) (_nsteps w) (_timestep w) (_current w) (_has_box w) s (_titles w) true.

(** Modelled from the spec: the self-extension of section 4.2, "patch
    the step-count field in the already-emitted header (via a scoped
    seek-and-rewrite on the underlying stream, restoring the write
    position afterward)". *)
Definition patchStepCount (w : DCDWriter) : DCDWriter :=
  let pos := tellp (_ofs w) in
  let s := seekp (_ofs w) step_count_offset in
  let s := put_word s (_nsteps w) in
  set_ofs w (seekp s pos).

(** The words of one frame record, section 6: "an optional
    box-descriptor block (three values) followed by the per-axis
    coordinate blocks". *)
Definition box_words (g : AtomicGroup) : list Z :=
  match periodicBox g with
  | Some (a, b, c) => [a; b; c]
  | None => []
  end.

Definition frame_words (g : AtomicGroup) : list Z :=
  box_words g
    ++ map (fun c => fst (fst c)) (coords g)
    ++ map (fun c => snd (fst c)) (coords g)
    ++ map (fun c => snd c) (coords g).

(** Modelled from the spec: [writeFrame(const AtomicGroup&)] is
    defined in the absent [dcdwriter.cpp].  Section 4.2: in implicit
    mode the header is taken from the first frame and emitted; the
    frame is validated against the header (a mismatch is fatal); the
    frame record is emitted; the frame counter is incremented and,
    when it exceeds the step count, the header is patched. *)
Definition writeFrame (w : DCDWriter) (grp : AtomicGroup) : XDR.logic_error + DCDWriter :=
  let w :=
    if _header_written w then w
    else writeHeader (setHeader w (size grp) (_nsteps w) (_timestep w) (isPeriodic grp)) in
  if negb (size grp =? _natoms w)
  then inl (XDR.LogicError "Frame has a different number of atoms than the header")
  else if negb (Bool.eqb (isPeriodic grp) (_has_box w))
  then inl (XDR.LogicError "Frame and header disagree on periodic box")
  else
    let s := put_words (_ofs w) (frame_words grp) in
    let w := mk (_natoms w) (_nsteps w) (_timestep w) (_current w + 1) (_has_box w) s
                (_titles w) (_header_written w) in
    if _current w >? _nsteps w
    then inr (patchStepCount
                (mk (_natoms w) (_current w) (_timestep w) (_current w) (_has_box w)
                    (_ofs w) (_titles w) (_header_written w)))
    else inr w.

(** Modelled from the spec: [writeFrame(const std::vector<AtomicGroup>&)],
    "equivalent to repeated single-frame writes". *)
Fixpoint writeFrames (w : DCDWriter) (grps : list AtomicGroup) : XDR.logic_error + DCDWriter :=
  match grps with
  | [] => inr w
  | g :: rest =>
    match writeFrame w g with
    | inl e => inl e
    | inr w' => writeFrames w' rest
    end
  end.

(** The step count stored in the header of the file. *)
Definition header_step_count (w : DCDWriter) : Z :=
  be_decode (take 4 (drop step_count_offset (buf (_ofs w)))).

(** The bytes a list of words takes in the file. *)
Definition wire (vs : list Z) : list byte := flat_map (fun v => be_bytes (wrap v)) vs.

(** The writer's invariant between calls: the stream is healthy and
    positioned at its end, the frame counter does not exceed the step
    count, and the header, once emitted, sits at the start of the file
    with the step count in its second word. *)
Definition writer_ok (w : DCDWriter) : Prop :=
  at_end (_ofs w) /\
  0 <= _current w <= _nsteps w /\ _nsteps w < 2 ^ 31 /\
  (if _header_written w
   then (8 <= length (buf (_ofs w)))%nat /\ header_step_count w = _nsteps w
   else buf (_ofs w) = []).

(** A writer on a new file nothing has been written to, and a writer at
    the point where frames are first handed to it: either still fresh
    (implicit mode) or with its header emitted (explicit mode). *)
Definition fresh (w : DCDWriter) : Prop :=
  _ofs w = IOStream.empty /\ _current w = 0 /\ _header_written w = false /\
  0 <= _nsteps w < 2 ^ 31.

Definition started (w0 : DCDWriter) : Prop :=
  fresh w0 \/ exists w, fresh w /\ w0 = writeHeader w.

End Host.
End DCDWriter.

(** ** src/MatrixStorage.hpp *)

Module MatrixStorage.

Inductive out_of_range : Type := OutOfRange (what : string).

(** What an access yields: a value, the [std::out_of_range] the
    subscript operators throw, or undefined behaviour (a raw access
    outside the storage the pointer owns, or through a null pointer). *)
Inductive outcome (A : Type) : Type :=
| Ok (a : A)
| Throw (e : out_of_range)
| Undefined.

Arguments Ok {A} a.
Arguments Throw {A} e.
Arguments Undefined {A}.

End MatrixStorage.

Module SparseArray.
Import MatrixStorage.

Section Elements.

(** The element type and the value of a default-initialised element
    ([T()], and the static [null_value]). *)
Variable T : Type.
Variable null_value : T.

(** [dim_] is a [ulong]; no arithmetic is done on it.  [dmap] is the
    [unordered_map<ulong, T>]. *)
Record SparseArray : Type := mk {
  dim_ : N;
  dmap : gmap N T
}.

(** [SparseArray(const ulong n)] and [SparseArray()]. *)
Definition new (n : N) : SparseArray := mk n ∅.

Definition default : SparseArray := mk 0 ∅.

(** [T& operator[](const ulong i)]: [dmap[i]] creates the entry when
    there is none.  The result is the array and the element referred
    to. *)
Definition subscript (a : SparseArray) (i : N) : out_of_range + (SparseArray * T) :=
  if (dim_ a <=? i)%N
  then inl (OutOfRange "Matrix linear index out of range")
  else
    match dmap a !! i with
    | Some v => inr (a, v)
    | None => inr (mk (dim_ a) (<[i := null_value]> (dmap a)), null_value)
    end.

(** [a[i] = v]: the non-const subscript, then a store through the
    reference it returns. *)
Definition assign (a : SparseArray) (i : N) (v : T) : out_of_range + SparseArray :=
  match subscript a i with
  | inl e => inl e
  | inr (a', _) => inr (mk (dim_ a') (<[i := v]> (dmap a')))
  end.

(** [const T& operator[](const ulong i) const]. *)
Definition subscript_const (a : SparseArray) (i : N) : out_of_range + T :=
  if (dim_ a <=? i)%N
  then inl (OutOfRange "Matrix linear index out of range")
  else
    match dmap a !! i with
    | None => inr null_value
    | Some v => inr v
    end.

Definition actualSize (a : SparseArray) : N := N.of_nat (base.size (dmap a)).

(** [set], [copyData], [resize] and [reset]; each returns the new
    [*this]. *)
Definition set (this s : SparseArray) : SparseArray := mk (dim_ s) (dmap s).

Definition copyData (this s : SparseArray) : SparseArray := set this s.

Definition resize (this : SparseArray) (n : N) : SparseArray := mk n ∅.

Definition reset (this : SparseArray) : SparseArray := resize this 0.

(** Every entry of the map is inside the dimension. *)
Definition in_range (a : SparseArray) : Prop :=
  forall k, is_Some (dmap a !! k) -> (k < dim_ a)%N.

End Elements.

Arguments mk {T} dim_ dmap.
Arguments dim_ {T} s.
Arguments dmap {T} s.
Arguments subscript {T} null_value a i.
Arguments assign {T} null_value a i v.
Arguments subscript_const {T} null_value a i.
Arguments actualSize {T} a.
Arguments set {T} this s.
Arguments copyData {T} this s.
Arguments resize {T} this n.
Arguments reset {T} this.
Arguments in_range {T} a.

End SparseArray.

Module SharedArray.
Import MatrixStorage.

Section Elements.

(** The element type and [T(0)], the value [allocate] stores. *)
Variable T : Type.
Variable zero : T.

(** The free store: the arrays [new T[n]] has created, by address.  An
    array is never taken out of it: the release of a
    [boost::shared_array] by its last owner is not modelled. *)
Local Abbreviation heap := (list (list T)).

(** [dim_] and the array [dptr] shares, if any. *)
Record SharedArray : Type := mk {
  dim_ : N;
  dptr : option nat
}.

(** [allocate(n)]: a new array of [n] elements, each set to 0, becomes
    [dptr]; [dim_] is left as it is.  The allocation itself is taken to
    succeed. *)
Definition allocate (this : SharedArray) (n : N) (h : heap) : SharedArray * heap :=
  (mk (dim_ this) (Some (length h)), h ++ [replicate (N.to_nat n) zero]).

(** [SharedArray(const ulong n)], [SharedArray(T* p, const ulong n)] and
    [SharedArray()]. *)
Definition new (n : N) (h : heap) : SharedArray * heap := allocate (mk n None) n h.

Definition adopt (p : nat) (n : N) : SharedArray := mk n (Some p).

Definition default : SharedArray := mk 0 None.

Definition get (a : SharedArray) : option nat := dptr a.

(** [dptr[i]] of [boost::shared_array]: no check. *)
Definition raw_read (p : option nat) (i : nat) (h : heap) : outcome T :=
  match p with
  | None => Undefined
  | Some l =>
    match h !! l with
    | None => Undefined
    | Some cell =>
      match cell !! i with
      | Some v => Ok v
      | None => Undefined
      end
    end
  end.

Definition raw_write (p : option nat) (i : nat) (v : T) (h : heap) : outcome heap :=
  match p with
  | None => Undefined
  | Some l =>
    match h !! l with
    | None => Undefined
    | Some cell =>
      if (i <? length cell)%nat then Ok (<[l := <[i := v]> cell]> h) else Undefined
    end
  end.

(** [operator[](const ulong i)], read through the reference it returns. *)
Definition subscript (a : SharedArray) (i : N) (h : heap) : outcome T :=
  if (dim_ a <=? i)%N
  then Throw (OutOfRange "Matrix linear index out of range")
  else raw_read (dptr a) (N.to_nat i) h.

(** [a[i] = v]. *)
Definition assign (a : SharedArray) (i : N) (v : T) (h : heap) : outcome heap :=
  if (dim_ a <=? i)%N
  then Throw (OutOfRange "Matrix linear index out of range")
  else raw_write (dptr a) (N.to_nat i) v h.

(** [set(s)]: the storage of [s] is shared. *)
Definition set (this s : SharedArray) : SharedArray := mk (dim_ s) (dptr s).

(** The loop [for (long i=0; i<dim_; ++i) dptr[i] = s.dptr[i];] from
    [i], for [count] more elements. *)
Fixpoint copy_loop (count i : nat) (dst src : option nat) (h : heap) : outcome heap :=
  match count with
  | O => Ok h
  | S count' =>
    match raw_read src i h with
    | Ok v =>
      match raw_write dst i v h with
      | Ok h' => copy_loop count' (S i) dst src h'
      | Throw e => Throw e
      | Undefined => Undefined
      end
    | Throw e => Throw e
    | Undefined => Undefined
    end
  end.

(** [copyData(s)] for an [s] that is another object: [allocate(s.dim_)],
    then the loop up to [dim_], which [allocate] has not changed. *)
Definition copyData (this s : SharedArray) (h : heap) : outcome (SharedArray * heap) :=
  let '(this, h) := allocate this (dim_ s) h in
  match copy_loop (N.to_nat (dim_ this)) 0 (dptr this) (dptr s) h with
  | Ok h' => Ok (this, h')
  | Throw e => Throw e
  | Undefined => Undefined
  end.

(** [copyData] with the object itself for [s]: [s.dptr] is then the
    array [allocate] has just made. *)
Definition copyData_self (this : SharedArray) (h : heap) : outcome (SharedArray * heap) :=
  let '(this, h) := allocate this (dim_ this) h in
  match copy_loop (N.to_nat (dim_ this)) 0 (dptr this) (dptr this) h with
  | Ok h' => Ok (this, h')
  | Throw e => Throw e
  | Undefined => Undefined
  end.

Definition resize (this : SharedArray) (n : N) (h : heap) : SharedArray * heap :=
  allocate (mk n (dptr this)) n h.

Definition reset (this : SharedArray) : SharedArray := mk 0 None.

(** The array owns storage for all of its [dim_] elements. *)
Definition valid (a : SharedArray) (h : heap) : Prop :=
  match dptr a with
  | Some l => exists cell, h !! l = Some cell /\ (N.to_nat (dim_ a) <= length cell)%nat
  | None => dim_ a = 0%N
  end.

End Elements.

Abbreviation heap T := (list (list T)) (only parsing).

Arguments allocate {T} zero this n h.
Arguments new {T} zero n h.
Arguments raw_read {T} p i h.
Arguments raw_write {T} p i v h.
Arguments subscript {T} a i h.
Arguments assign {T} a i v h.
Arguments copy_loop {T} count i dst src h.
Arguments copyData {T} zero this s h.
Arguments copyData_self {T} zero this h.
Arguments resize {T} zero this n h.
Arguments valid {T} a h.

End SharedArray.

(** ** src/utils.hpp *)

Module Utils.
Import Stdlib.Strings.Ascii.

(** The exceptions [parseRange] throws, and what a call comes to: it
    returns, it throws, its behaviour is undefined (an uninitialised
    value is read, a signed operation overflows, an invalidated iterator
    or the first element of an empty vector is used), or it never
    returns (the loop that fills the vector does not end). *)
Inductive exn : Type :=
| runtime_error (what : string)
| logic_error (what : string).

Inductive result (A : Type) : Type :=
| Returns (a : A)
| Throws (e : exn)
| Undefined
| Diverges.

Arguments Returns {A} a.
Arguments Throws {A} e.
Arguments Undefined {A}.
Arguments Diverges {A}.

(** *** std::istringstream *)

(** The characters not yet read and the two state bits [parseRange]
    tests; [badbit] is never set on a string stream. *)
Record istringstream : Type := mkIs {
  unread : list ascii;
  eofbit : bool;
  failbit : bool
}.

Definition str (text : string) : istringstream :=
  mkIs (list_ascii_of_string text) false false.

Definition good (s : istringstream) : bool := negb (eofbit s) && negb (failbit s).
Definition eof (s : istringstream) : bool := eofbit s.
Definition fail (s : istringstream) : bool := failbit s.

(** [std::isspace] and [std::isdigit] in the C locale. *)
Definition isspace (c : ascii) : bool :=
  let n := nat_of_ascii c in ((n =? 32) || ((9 <=? n) && (n <=? 13)))%nat.

Definition isdigit (c : ascii) : bool :=
  let n := nat_of_ascii c in ((48 <=? n) && (n <=? 57))%nat.

Fixpoint skipws (s : list ascii) : list ascii :=
  match s with
  | c :: r => if isspace c then skipws r else s
  | [] => []
  end.

(** The sentry of a formatted extraction: on a stream that is not good
    it sets [failbit]; otherwise it skips white space, and sets
    [eofbit] and [failbit] when nothing is left.  The flag tells
    whether the extraction goes on. *)
Definition sentry (s : istringstream) : istringstream * bool :=
  if negb (good s) then (mkIs (unread s) (eofbit s) true, false)
  else
    match skipws (unread s) with
    | [] => (mkIs [] true true, false)
    | r => (mkIs r false false, true)
    end.

(** The decimal digits at the front of the input, as their value so
    far, and what follows them. *)
Fixpoint digits (acc : Z) (n : nat) (s : list ascii) : Z * nat * list ascii :=
  match s with
  | c :: r =>
    if isdigit c then digits (10 * acc + Z.of_nat (nat_of_ascii c - 48)) (S n) r
    else (acc, n, s)
  | [] => (acc, n, [])
  end.

Definition INT_MIN : Z := - 2 ^ 31.
Definition INT_MAX : Z := 2 ^ 31 - 1.

(** [is >> a] for an [int]: an optional sign and decimal digits.
    [eofbit] is set when the digits run to the end of the input.  With
    no digit 0 is stored and [failbit] set; a value out of range stores
    the nearest limit and sets [failbit].  The result holds the value
    stored, if one is. *)
Definition extract_int (s : istringstream) : istringstream * option Z :=
  match sentry s with
  | (s', false) => (s', None)
  | (s', true) =>
    let '(neg, s1) :=
      match unread s' with
      | c :: r =>
        if Ascii.eqb c "-" then (true, r)
        else if Ascii.eqb c "+" then (false, r)
        else (false, unread s')
      | [] => (false, [])
      end in
    let '(v, n, s2) := digits 0 0 s1 in
    let at_end := match s2 with [] => true | _ => false end in
    match n with
    | O => (mkIs s2 at_end true, Some 0)
    | S _ =>
      let v := if neg then - v else v in
      if v <? INT_MIN then (mkIs s2 at_end true, Some INT_MIN)
      else if INT_MAX <? v then (mkIs s2 at_end true, Some INT_MAX)
      else (mkIs s2 at_end false, Some v)
    end
  end.

(** [is >> sep] for a [char]. *)
Definition extract_char (s : istringstream) : istringstream * option ascii :=
  match sentry s with
  | (s', false) => (s', None)
  | (s', true) =>
    match unread s' with
    | c :: r => (mkIs r false false, Some c)
    | [] => (s', None)
    end
  end.

(** *** parseRange, for [T = int] *)

(** The two loops that fill the vector, [for (T i=a; i <= b; i += c)]
    and [for (T i=a; i >= b; i -= c)], for a step of at least 1: the
    values pushed, in order.  An [i += c] or [i -= c] that leaves the
    range of [int] is undefined. *)
Fixpoint loop_up (fuel : nat) (i b c : Z) : result (list Z) :=
  if i <=? b then
    match fuel with
    | O => Diverges
    | S fuel' =>
      if INT_MAX <? i + c then Undefined
      else
        match loop_up fuel' (i + c) b c with
        | Returns l => Returns (i :: l)
        | r => r
        end
    end
  else Returns [].

Fixpoint loop_down (fuel : nat) (i b c : Z) : result (list Z) :=
  if i >=? b then
    match fuel with
    | O => Diverges
    | S fuel' =>
      if i - c <? INT_MIN then Undefined
      else
        match loop_down fuel' (i - c) b c with
        | Returns l => Returns (i :: l)
        | r => r
        end
    end
  else Returns [].

(** [parseRange] once [a], [b] and [c] are read.  With [c = 0] the loop
    pushes [a] for ever; with [c < 0] it moves away from [b] until the
    counter overflows.  With [c >= 1] it ends within [|b - a| + 1]
    rounds. *)
Definition range (a b c : Z) : result (list Z) :=
  if a =? INT_MIN then Undefined
  else if (a <? - a) && (b =? 0)
  then Throws (logic_error "Using an unsigned type with a reverse-range ending at zero.")
  else if c =? 0 then Diverges
  else if c <? 0 then Undefined
  else if b >=? a then loop_up (S (Z.to_nat (b - a))) a b c
  else loop_down (S (Z.to_nat (a - b))) a b c.

Definition could_not_parse (text : string) : exn :=
  runtime_error ("Could not parse range " ++ text).

(** The locals [a], [b], [c] and [sep] are not initialised: a [None]
    is a local nothing has been stored in, and reading it is
    undefined. *)
Definition parseRange (text : string) : result (list Z) :=
  let s := str text in
  let '(s, a) := extract_int s in
  if eof s then
    match a with
    | Some a => Returns [a]
    | None => Undefined
    end
  else
    let '(s, a') := extract_int s in
    let a := match a' with Some v => Some v | None => a end in
    let '(s, sep) := extract_char s in
    let '(s, b) := extract_int s in
    if fail s then Throws (could_not_parse text)
    else
      match a, sep, b with
      | Some a, Some sep, Some b =>
        if negb (Ascii.eqb sep ":") then Throws (could_not_parse text)
        else if eof s then range a b 1
        else
          let c := b in
          let '(s, sep') := extract_char s in
          let '(s, b') := extract_int s in
          if fail s then Throws (could_not_parse text)
          else
            match sep', b' with
            | Some sep', Some b' =>
              if negb (Ascii.eqb sep' ":") then Throws (could_not_parse text)
              else range a b' c
            | _, _ => Undefined
            end
      | _, _, _ => Undefined
      end.

(** *** parseRangeList, for [T = int] *)

(** [boost::split(terms, text, is_any_of(","), token_compress_on)]: the
    pieces of [text] between runs of commas; a run at either end leaves
    an empty piece there.  [cur] is the piece being read, backwards,
    and [run] tells whether the last character was a comma. *)
Fixpoint split_loop (cur : list ascii) (run : bool) (s : list ascii) : list string :=
  match s with
  | [] => [string_of_list_ascii (rev cur)]
  | c :: r =>
    if Ascii.eqb c "," then
      if run then split_loop [] true r
      else string_of_list_ascii (rev cur) :: split_loop [] true r
    else split_loop (c :: cur) false r
  end.

Definition split (text : string) : list string :=
  split_loop [] false (list_ascii_of_string text).

Definition empty (t : string) : bool :=
  match t with EmptyString => true | String _ _ => false end.

(** The terms the loop over the terms does not skip. *)
Definition terms (text : string) : list string :=
  List.filter (fun t => negb (empty t)) (split text).

(** The loop over the terms.  [indices] is [None] as long as nothing
    has been inserted through [ii], and the vector afterwards.  The
    insert iterator [ii] is made once, for the empty vector, and
    [std::copy] works on a copy of it: after the first insertion [ii]
    still holds the iterator it was made with, which the insertion has
    invalidated, so that a second insertion through it is undefined. *)
Fixpoint collect (terms : list string) (indices : option (list Z)) : result (list Z) :=
  match terms with
  | [] => Returns (from_option id [] indices)
  | t :: rest =>
    if empty t then collect rest indices
    else
      match parseRange t with
      | Returns [] => collect rest indices
      | Returns (v :: vs) =>
        match indices with
        | None => collect rest (Some (v :: vs))
        | Some _ => Undefined
        end
      | Throws e => Throws e
      | Undefined => Undefined
      | Diverges => Diverges
      end
  end.

(** The loop that closes [parseRangeList]: [cri] runs from
    [indices.begin() + 1] to the end, and an element that differs from
    [last] is assigned to [last] and pushed on [results].  [rest] is
    what is left of the sorted vector; the values pushed on [results]
    are given in the order they are pushed. *)
Fixpoint parseRangeList_loop (last : Z) (rest : list Z) : list Z :=
  match rest with
  | [] => []
  | x :: rest' =>
    if negb (x =? last) then x :: parseRangeList_loop x rest'
    else parseRangeList_loop last rest'
  end.

(** [parseRangeList] from [std::sort] on; [indices[0]] of an empty
    vector is undefined. *)
Definition parseRangeList_sorted (indices : list Z) : result (list Z) :=
  match merge_sort Z.le indices with
  | [] => Undefined
  | first :: rest => Returns (parseRangeList_loop first rest)
  end.

Definition parseRangeList (text : string) : result (list Z) :=
  match collect (split text) None with
  | Returns indices => parseRangeList_sorted indices
  | r => r
  end.

End Utils.

(** * Properties *)

(** ** The stream model *)

Section StreamFacts.
Import IOStream.

Lemma read_failed s n : failbit s = true -> read s n = (s, []).
Proof. intros H. unfold read. now rewrite H. Qed.

Lemma read_enough s n :
  failbit s = false -> (n <= length (drop (gpos s) (buf s)))%nat ->
  read s n = (mk (buf s) (gpos s + n) (ppos s) false, take n (drop (gpos s) (buf s))).
Proof.
  intros H Hn. unfold read. rewrite H.
  destruct (Nat.leb_spec n (length (drop (gpos s) (buf s)))); [reflexivity | lia].
Qed.

Lemma read_short s n :
  failbit s = false -> (length (drop (gpos s) (buf s)) < n)%nat ->
  read s n = (mk (buf s) (gpos s + length (drop (gpos s) (buf s))) (ppos s) true,
              drop (gpos s) (buf s)).
Proof.
  intros H Hn. unfold read. rewrite H.
  destruct (Nat.leb_spec n (length (drop (gpos s) (buf s)))); [lia | reflexivity].
Qed.

Lemma read_buf s n : buf (fst (read s n)) = buf s.
Proof.
  unfold read. destruct (failbit s); [reflexivity |].
  destruct (_ <=? _)%nat; reflexivity.
Qed.

Lemma read_ppos s n : ppos (fst (read s n)) = ppos s.
Proof.
  unfold read. destruct (failbit s); [reflexivity |].
  destruct (_ <=? _)%nat; reflexivity.
Qed.

Lemma write_failed s d : failbit s = true -> write s d = s.
Proof. intros H. unfold write. now rewrite H. Qed.

Lemma write_nil s : write s [] = s.
Proof. unfold write. now destruct (failbit s). Qed.

Lemma write_failbit s d : failbit (write s d) = failbit s.
Proof.
  unfold write. destruct (failbit s) eqn:E; [assumption |].
  destruct d; [assumption | reflexivity].
Qed.

Lemma write_gpos s d : gpos (write s d) = gpos s.
Proof.
  unfold write. destruct (failbit s) eqn:E; [reflexivity |].
  destruct d; reflexivity.
Qed.

Lemma write_ppos s d :
  failbit s = false -> ppos (write s d) = (ppos s + length d)%nat.
Proof.
  intros H. unfold write. rewrite H. destruct d; simpl; [lia | reflexivity].
Qed.


Lemma length_before s : length (before s) = ppos s.
Proof.
  unfold before. rewrite length_app, length_take, length_replicate. lia.
Qed.

Lemma write_buf s d :
  failbit s = false -> d <> [] ->
  buf (write s d) = before s ++ d ++ drop (ppos s + length d) (buf s).
Proof.
  intros H Hd. unfold write, before. rewrite H.
  destruct d; [congruence |]. simpl. now rewrite <- app_assoc.
Qed.

Lemma write_drop s d :
  failbit s = false ->
  drop (ppos s) (buf (write s d)) = d ++ drop (ppos s + length d) (buf s).
Proof.
  intros H. destruct d as [| b d].
  - rewrite write_nil. simpl. now rewrite Nat.add_0_r.
  - rewrite write_buf by (assumption || discriminate).
    rewrite drop_app_length'; [reflexivity | symmetry; apply length_before].
Qed.

Lemma write_take s d :
  failbit s = false -> (ppos s <= length (buf s))%nat ->
  take (ppos s) (buf (write s d)) = take (ppos s) (buf s).
Proof.
  intros H Hle. destruct d as [| b d].
  - now rewrite write_nil.
  - rewrite write_buf by (assumption || discriminate).
    rewrite take_app_length' by (symmetry; apply length_before).
    unfold before. replace (ppos s - length (buf s))%nat with 0%nat by lia.
    simpl. apply app_nil_r.
Qed.

Lemma write_length_ge s d :
  failbit s = false -> d <> [] -> (ppos s + length d <= length (buf (write s d)))%nat.
Proof.
  intros H Hd. rewrite write_buf by assumption.
  rewrite !length_app, length_before. lia.
Qed.

Lemma write_write_drop s d1 d2 :
  failbit s = false ->
  drop (ppos s) (buf (write (write s d1) d2))
  = d1 ++ d2 ++ drop (ppos s + length d1 + length d2) (buf s).
Proof.
  intros H. destruct d1 as [| b d1].
  - rewrite write_nil. simpl. rewrite Nat.add_0_r. now apply write_drop.
  - set (s1 := write s (b :: d1)).
    assert (F1 : failbit s1 = false) by (unfold s1; now rewrite write_failbit).
    assert (P1 : ppos s1 = (ppos s + length (b :: d1))%nat) by (now apply write_ppos).
    assert (L1 : (ppos s1 <= length (buf s1))%nat).
    { rewrite P1. apply write_length_ge; [assumption | discriminate]. }
    assert (B1 : buf s1 = before s ++ (b :: d1) ++ drop (ppos s + length (b :: d1)) (buf s)).
    { apply write_buf; [assumption | discriminate]. }
    rewrite <- (take_drop (ppos s1) (buf (write s1 d2))).
    rewrite write_take, write_drop by assumption.
    rewrite B1, P1.
    rewrite (app_assoc (before s)).
    rewrite take_app_length' by (rewrite length_app, length_before; reflexivity).
    rewrite <- (app_assoc (before s)).
    rewrite drop_app_length' by (symmetry; apply length_before).
    rewrite <- app_assoc. f_equal. f_equal.
    rewrite (app_assoc (before s)).
    replace (ppos s + length (b :: d1) + length d2)%nat
      with (length (before s ++ b :: d1) + length d2)%nat
      by (rewrite length_app, length_before; reflexivity).
    rewrite drop_app_add' by reflexivity.
    rewrite drop_drop. f_equal. rewrite length_app, length_before. lia.
Qed.

End StreamFacts.

(** ** The word codec *)

Section CodecFacts.
Import IOStream XDR.

Lemma rndup_spec n : rndup n = ((4 - n mod 4) mod 4)%nat.
Proof.
  unfold rndup, sizeof_uint.
  pose proof (Nat.mod_upper_bound n 4 ltac:(lia)) as Hb.
  destruct (Nat.ltb_spec 0 (n mod 4)).
  - symmetry. apply Nat.mod_small. lia.
  - replace (n mod 4)%nat with 0%nat by lia. reflexivity.
Qed.

Lemma rndup_le n : (rndup n <= 4)%nat.
Proof. unfold rndup, sizeof_uint. destruct (0 <? n mod 4)%nat; [lia |].
  pose proof (Nat.mod_upper_bound n 4 ltac:(lia)). lia. Qed.

Lemma rndup_whole_words n : ((n + rndup n) mod 4 = 0)%nat.
Proof.
  unfold rndup, sizeof_uint.
  pose proof (Nat.mod_upper_bound n 4 ltac:(lia)) as Hb.
  pose proof (Nat.div_mod_eq n 4) as Hd.
  destruct (Nat.ltb_spec 0 (n mod 4)).
  - replace (n + (4 - n mod 4))%nat with ((n / 4 + 1) * 4)%nat by lia.
    apply Nat.Div0.mod_mul.
  - replace (n + n mod 4)%nat with ((n / 4) * 4)%nat by lia.
    apply Nat.Div0.mod_mul.
Qed.

Lemma take_padding r : (r <= 4)%nat -> take r (replicate sizeof_uint x00) = replicate r x00.
Proof. intros H. rewrite take_replicate. f_equal. unfold sizeof_uint. lia. Qed.

(** What a block write on a healthy stream emits. *)
Lemma write_block_good x p n :
  fail (stream x) = false ->
  let x1 := fst (write_block x p n) in
  snd (write_block x p n) = Z.of_nat n /\
  fail (stream x1) = false /\
  need_to_swab x1 = need_to_swab x /\
  gpos (stream x1) = gpos (stream x) /\
  ppos (stream x1) = (ppos (stream x) + length (take n p) + rndup n)%nat /\
  drop (ppos (stream x)) (buf (stream x1))
  = take n p ++ replicate (rndup n) x00
      ++ drop (ppos (stream x) + length (take n p) + rndup n) (buf (stream x)).
Proof.
  intros Hg. unfold write_block, fail in *. cbn zeta.
  rewrite take_padding by apply rndup_le.
  rewrite !write_failbit, Hg. cbn [negb fst snd set_stream stream need_to_swab].
  rewrite !write_failbit, Hg.
  rewrite !write_gpos.
  rewrite !write_ppos by (rewrite ?write_failbit; assumption).
  rewrite write_write_drop by assumption.
  rewrite length_replicate. repeat split; reflexivity.
Qed.

(** What a block read delivers when the payload is there. *)
Lemma read_block_payload x dst n :
  (0 < n)%nat -> fail (stream x) = false ->
  (n <= length (drop (gpos (stream x)) (buf (stream x))))%nat ->
  let '(x2, p', r) := read_block x dst n in
  r = Z.of_nat n /\
  p' = take n (drop (gpos (stream x)) (buf (stream x))) ++ drop n dst /\
  stream x2 = (if (0 <? rndup n)%nat
               then fst (IOStream.read (mk (buf (stream x)) (gpos (stream x) + n)
                                           (ppos (stream x)) false) (rndup n))
               else mk (buf (stream x)) (gpos (stream x) + n) (ppos (stream x)) false).
Proof.
  intros Hn Hg Ha. unfold read_block, fail in *.
  destruct (Nat.eqb_spec n 0); [lia |].
  rewrite read_enough by assumption. cbn [failbit set_stream stream].
  rewrite length_take, Nat.min_l by assumption.
  repeat split.
Qed.

(** Block round trip: a block read positioned where a block write began
    returns the bytes written, consumes the padding and leaves the get
    position where the put position is. *)
Lemma block_roundtrip x p dst n :
  fail (stream x) = false ->
  n = length p ->
  let x1 := fst (write_block x p n) in
  let x1' := set_stream x1 (seekg (stream x1) (ppos (stream x))) in
  let '(x2, p', r) := read_block x1' dst n in
  snd (write_block x p n) = Z.of_nat n /\
  take n p' = p /\
  fail (stream x2) = false /\
  gpos (stream x2) = ppos (stream x1) /\
  ppos (stream x1) = (ppos (stream x) + n + (4 - n mod 4) mod 4)%nat /\
  drop (ppos (stream x) + n) (take (ppos (stream x1)) (buf (stream x1)))
  = replicate ((4 - n mod 4) mod 4) x00 /\
  ((ppos (stream x1) - ppos (stream x)) mod 4 = 0)%nat.
Proof.
  intros Hg Hn x1 x1'.
  destruct (write_block_good x p n Hg) as (Hr & Hf & _ & Hgp & Hpp & Hbuf).
  fold x1 in Hr, Hf, Hgp, Hpp, Hbuf.
  assert (Ht : take n p = p) by (subst n; apply firstn_all).
  rewrite Ht in Hpp, Hbuf. rewrite <- Hn in Hpp, Hbuf.
  assert (Hs : stream x1' = mk (buf (stream x1)) (ppos (stream x)) (ppos (stream x1)) false).
  { unfold x1', seekg. cbn [stream set_stream]. unfold fail in Hf. now rewrite Hf. }
  assert (Hdrop : drop (ppos (stream x) + n) (buf (stream x1))
                  = replicate (rndup n) x00
                      ++ drop (ppos (stream x) + n + rndup n) (buf (stream x))).
  { rewrite <- drop_drop, Hbuf. apply drop_app_length'. exact Hn. }
  assert (Hpad : drop (ppos (stream x) + n) (take (ppos (stream x1)) (buf (stream x1)))
                 = replicate (rndup n) x00).
  { rewrite Hpp, <- take_drop_commute, Hdrop.
    apply take_app_length'. now rewrite length_replicate. }
  assert (Hwords : ((ppos (stream x1) - ppos (stream x)) mod 4 = 0)%nat).
  { rewrite Hpp. replace (ppos (stream x) + n + rndup n - ppos (stream x))%nat
      with (n + rndup n)%nat by lia. apply rndup_whole_words. }
  rewrite <- rndup_spec.
  destruct (Nat.eq_dec n 0%nat) as [Hz | Hnz].
  - assert (p = []) by (apply length_zero_iff_nil; lia). subst p.
    unfold read_block. rewrite Hz in *. cbn [Nat.eqb].
    rewrite Hs. cbn [stream fail failbit gpos].
    repeat split; try assumption; try reflexivity.
    rewrite Hpp. change (rndup 0) with 0%nat. lia.
  - pose proof (read_block_payload x1' dst n ltac:(lia)) as Hrd.
    rewrite Hs in Hrd. cbn [fail failbit gpos buf ppos] in Hrd.
    rewrite Hbuf in Hrd.
    specialize (Hrd eq_refl).
    assert (Hlen : (n <= length (p ++ replicate (rndup n) x00
                     ++ drop (ppos (stream x) + n + rndup n) (buf (stream x))))%nat).
    { rewrite length_app. lia. }
    specialize (Hrd Hlen).
    destruct (read_block x1' dst n) as [[x2 p'] r].
    destruct Hrd as (Hr2 & Hp' & Hs2).
    rewrite (take_app_length' p) in Hp' by exact Hn.
    assert (Havail : (rndup n <= length (drop (ppos (stream x) + n) (buf (stream x1))))%nat).
    { rewrite Hdrop, length_app, length_replicate. lia. }
    repeat split; try assumption.
    + rewrite Hp'. apply take_app_length'. exact Hn.
    + rewrite Hs2. destruct (0 <? rndup n)%nat eqn:E; [| reflexivity].
      rewrite read_enough; [reflexivity | reflexivity | exact Havail].
    + rewrite Hs2, Hpp. destruct (Nat.ltb_spec 0 (rndup n)).
      * rewrite read_enough; [cbn [fst gpos]; lia | reflexivity | exact Havail].
      * cbn [gpos]. lia.
Qed.

Lemma length_encoded x u0 p :
  length u0 = 4%nat -> (length p <= 4)%nat -> length (encoded x u0 p) = 4%nat.
Proof.
  intros Hu Hp. unfold encoded, swab, sizeof_uint.
  rewrite length_take.
  assert (length (p ++ drop (length p) u0) = 4%nat)
    by (rewrite length_app, length_drop; lia).
  destruct (swabs x (length p)); rewrite ?length_rev; lia.
Qed.

Lemma write_eq x u0 p :
  (length p <= 4)%nat ->
  XDR.write x u0 p
  = inr (set_stream x (IOStream.write (stream x) (encoded x u0 p)),
         uint_of_bool (negb (fail (IOStream.write (stream x) (encoded x u0 p))))).
Proof.
  intros Hp. unfold XDR.write, encoded, sizeof_uint.
  destruct (Nat.ltb_spec 4 (length p)); [lia | reflexivity].
Qed.

Lemma read_eq x sizeofT data0 :
  (sizeofT <= 4)%nat ->
  XDR.read x sizeofT data0
  = let s' := fst (IOStream.read (stream x) 4) in
    let got := snd (IOStream.read (stream x) 4) in
    let pdata := take sizeofT (got ++ drop (length got) data0) in
    inr (set_stream x s', if swabs x sizeofT then swab pdata else pdata,
         uint_of_bool (negb (fail s'))).
Proof.
  intros Hp. unfold XDR.read, sizeof_uint.
  destruct (Nat.ltb_spec 4 sizeofT); [lia |].
  destruct (IOStream.read (stream x) 4) as [s' got]. reflexivity.
Qed.

(** Scalar round trip where the codec gets it right: no byte swap (a
    [char], or a big-endian host), or a type that fills the word. *)
Lemma scalar_roundtrip x u0 data0 p :
  fail (stream x) = false ->
  length u0 = 4%nat -> (1 <= length p <= 4)%nat ->
  swabs x (length p) = false \/ length p = 4%nat ->
  exists x1 x2,
    XDR.write x u0 p = inr (x1, 1) /\
    XDR.read (set_stream x1 (seekg (stream x1) (ppos (stream x)))) (length p) data0
    = inr (x2, p, 1) /\
    gpos (stream x2) = ppos (stream x1) /\
    ppos (stream x1) = (ppos (stream x) + 4)%nat.
Proof.
  intros Hg Hu Hp Hcase. unfold fail in Hg.
  pose proof (length_encoded x u0 p Hu ltac:(lia)) as He.
  set (s1 := IOStream.write (stream x) (encoded x u0 p)).
  assert (F1 : failbit s1 = false) by (unfold s1; now rewrite write_failbit).
  assert (P1 : ppos s1 = (ppos (stream x) + 4)%nat)
    by (unfold s1; rewrite write_ppos by assumption; lia).
  assert (D1 : drop (ppos (stream x)) (buf s1)
               = encoded x u0 p ++ drop (ppos (stream x) + 4) (buf (stream x))).
  { unfold s1. rewrite write_drop by assumption. now rewrite He. }
  exists (set_stream x s1).
  rewrite write_eq by lia. fold s1. unfold fail. rewrite F1. cbn [negb uint_of_bool].
  rewrite read_eq by lia. cbn [stream set_stream]. unfold seekg. rewrite F1.
  rewrite read_enough; [| reflexivity |]; cbn [buf gpos ppos];
    [| rewrite D1, length_app; lia].
  cbn [fst snd fail failbit negb uint_of_bool gpos].
  rewrite D1. rewrite (take_app_length' (encoded x u0 p) _ 4) by (symmetry; exact He).
  rewrite (take_app_le (encoded x u0 p)) by lia.
  assert (V : (if swabs x (length p)
               then swab (take (length p) (encoded x u0 p))
               else take (length p) (encoded x u0 p)) = p).
  { unfold encoded, swab, sizeof_uint.
    assert (L : length (p ++ drop (length p) u0) = 4%nat)
      by (rewrite length_app, length_drop; lia).
    destruct Hcase as [Hns | H4].
    - rewrite Hns. rewrite (take_ge _ 4) by lia.
      apply take_app_length.
    - rewrite H4 in *. rewrite drop_ge, app_nil_r by lia.
      destruct (swabs x 4).
      + rewrite (take_ge (rev p)) by (rewrite length_rev; lia).
        rewrite take_ge by (rewrite length_rev; lia). apply rev_involutive.
      + rewrite (take_ge p) by lia. apply take_ge. lia. }
  eexists. split; [reflexivity |]. split.
  - unfold swabs in *. cbn [need_to_swab set_stream]. rewrite V. reflexivity.
  - cbn [stream set_stream gpos]. split; [lia | exact P1].
Qed.

(** Claim C2 (scalar round trip).  The claim holds for blocks
    ([block_roundtrip]) and for scalars that fill the word or are not
    byte-swapped ([scalar_roundtrip]); the code breaks it for a scalar of
    two bytes on a little-endian host.  [write] stores the value in the
    first bytes of the word and reverses the whole word; [read] takes the
    first [sizeof(T)] bytes of the word it has read and reverses only
    those.  Here the 16-bit value 0x0102 (bytes 02 01 in memory) is
    written and read back on a healthy stream: both calls report success
    and the value read is the two other bytes of the word, 00 00. *)
Theorem xdr_short_roundtrip_fails :
  let x := XDR.new true IOStream.empty in
  let v := [x02; x01] in
  let junk := [x00; x00; x00; x00] in
  exists x1 x2,
    XDR.write x junk v = inr (x1, 1) /\
    XDR.read (set_stream x1 (seekg (stream x1) (ppos (stream x)))) 2 junk
    = inr (x2, [x00; x00], 1) /\
    [x00; x00] <> v.
Proof.
  cbv zeta. eexists. eexists.
  split; [vm_compute; reflexivity |].
  split; [vm_compute; reflexivity | discriminate].
Qed.

(** Claim C8 (the size check of scalar transfers).  A scalar read or
    write raises the [logic_error] exactly when [sizeof(T)] exceeds the
    word, whatever the state of the stream.  Otherwise no error is
    raised, the stream undergoes one transfer of one word (a single
    4-byte [read], or a single [write] of 4 bytes) and the value returned
    is 1 when the stream has not failed after it and 0 when it has; when
    it has not failed, the position has moved by exactly 4 bytes. *)
Theorem xdr_scalar_type_too_large :
  forall (x : XDR) (sizeofT : nat) (data0 u0 p : list byte),
    length u0 = 4%nat ->
    ((exists e, XDR.read x sizeofT data0 = inl e) <-> (4 < sizeofT)%nat) /\
    ((exists e, XDR.write x u0 p = inl e) <-> (4 < length p)%nat) /\
    ((sizeofT <= 4)%nat ->
     exists v,
       let s' := fst (IOStream.read (stream x) 4) in
       XDR.read x sizeofT data0 = inr (set_stream x s', v, uint_of_bool (negb (fail s'))) /\
       (fail s' = false -> gpos s' = (gpos (stream x) + 4)%nat /\ buf s' = buf (stream x))) /\
    ((length p <= 4)%nat ->
     exists u, length u = 4%nat /\
       let s' := IOStream.write (stream x) u in
       XDR.write x u0 p = inr (set_stream x s', uint_of_bool (negb (fail s'))) /\
       (fail s' = false ->
        ppos s' = (ppos (stream x) + 4)%nat /\
        take 4 (drop (ppos (stream x)) (buf s')) = u)).
Proof.
  intros x sizeofT data0 u0 p Hu. repeat split.
  - intros [e He]. unfold XDR.read, sizeof_uint in He.
    destruct (Nat.ltb_spec 4 sizeofT); [assumption |].
    destruct (IOStream.read (stream x) 4); discriminate.
  - intros H. unfold XDR.read, sizeof_uint.
    destruct (Nat.ltb_spec 4 sizeofT); [eauto | lia].
  - intros [e He]. unfold XDR.write, sizeof_uint in He.
    destruct (Nat.ltb_spec 4 (length p)); [assumption | discriminate].
  - intros H. unfold XDR.write, sizeof_uint.
    destruct (Nat.ltb_spec 4 (length p)); [eauto | lia].
  - intros H. rewrite read_eq by assumption. cbv zeta. eexists.
    split; [reflexivity |].
    unfold IOStream.read, fail.
    destruct (failbit (stream x)) eqn:E; cbn [fst failbit]; [congruence |].
    destruct (4 <=? _)%nat; cbn [fst failbit gpos buf]; [auto | discriminate].
  - intros H. exists (encoded x u0 p).
    split; [now apply length_encoded |]. cbv zeta.
    split; [now apply write_eq |].
    unfold fail. rewrite write_failbit. intros Hg.
    pose proof (length_encoded x u0 p Hu H) as He.
    split; [rewrite write_ppos by assumption; lia |].
    rewrite write_drop by assumption. apply take_app_length'. now symmetry.
Qed.

Lemma xdr_scalar_type_too_large_witness :
  exists v, XDR.read (XDR.new true IOStream.empty) 4 [x00; x00; x00; x00]
            = inr (set_stream (XDR.new true IOStream.empty)
                     (fst (IOStream.read IOStream.empty 4)), v, 0).
Proof.
  destruct (xdr_scalar_type_too_large (XDR.new true IOStream.empty) 4
              [x00; x00; x00; x00] [x00; x00; x00; x00] [x01; x02; x03; x04] eq_refl)
    as (_ & _ & Hr & _).
  destruct (Hr ltac:(simpl; lia)) as (v & Hv & _).
  exists v. exact Hv.
Defined.

Lemma set_stream_same x : set_stream x (stream x) = x.
Proof. now destruct x. Qed.

(** Claim C9 as stated fails: on a healthy empty stream a zero-length
    block read returns 1, not the payload count 0; and a zero-length
    block write returns 0 both on a healthy and on a failed stream, so
    its result is not distinct from the failure indicator. *)
Lemma zero_length_block_counterexample :
  let x := XDR.new true IOStream.empty in
  let failed := XDR.new true (IOStream.mk [] 0 0 true) in
  snd (read_block x [] 0) <> 0 /\
  snd (write_block x [] 0) = snd (write_block failed [] 0).
Proof. split; [discriminate | reflexivity]. Qed.

(** Claim C9, amended.  A zero-length block request transfers nothing:
    [read] with [n = 0] leaves the codec, the stream and the destination
    untouched and returns 1, a success value distinct from the failure
    indicator 0; [write] with [n = 0] leaves the codec and the stream
    untouched and returns the number of payload bytes, 0. *)
Theorem zero_length_block :
  forall (x : XDR) (p : list byte),
    read_block x p 0 = (x, p, 1) /\ 1 <> 0 /\
    write_block x p 0 = (x, 0).
Proof.
  intros x p. split; [reflexivity |]. split; [discriminate |].
  unfold write_block. rewrite take_0. change (rndup 0) with 0%nat. rewrite take_0.
  rewrite !write_nil. destruct (negb (fail (stream x))); rewrite set_stream_same;
    now destruct (fail (stream x)).
Qed.

(** Claim C10 (a failure in the padding is not reported).  When the
    stream is healthy and holds the [n > 0] payload bytes, the block read
    returns [n] and delivers them, and the stream is left failed exactly
    when the padding bytes are not all there: the returned value is the
    same with and without that failure. *)
Theorem read_block_padding_failure_unreported :
  forall (x : XDR) (dst : list byte) (n : nat),
    (0 < n)%nat ->
    fail (stream x) = false ->
    let avail := drop (gpos (stream x)) (buf (stream x)) in
    (n <= length avail)%nat ->
    let '(x2, p', r) := read_block x dst n in
    r = Z.of_nat n /\
    take n p' = take n avail /\
    (fail (stream x2) = true <-> (length avail < n + rndup n)%nat).
Proof.
  intros x dst n Hn Hg avail Ha.
  pose proof (read_block_payload x dst n Hn Hg Ha) as H.
  destruct (read_block x dst n) as [[x2 p'] r].
  destruct H as (Hr & Hp & Hs). fold avail in Hp.
  split; [exact Hr |]. split.
  - rewrite Hp. rewrite take_app_le by (rewrite length_take; lia).
    rewrite take_take. f_equal. lia.
  - rewrite Hs. unfold fail.
    assert (Hl : length (drop (gpos (stream x) + n) (buf (stream x))) = (length avail - n)%nat).
    { unfold avail. rewrite !length_drop. lia. }
    destruct (Nat.ltb_spec 0 (rndup n)).
    + destruct (Nat.le_gt_cases (rndup n) (length avail - n)).
      * rewrite read_enough by (cbn [failbit gpos buf]; (reflexivity || lia)).
        cbn [fst failbit]. split; [discriminate | lia].
      * rewrite read_short by (cbn [failbit gpos buf]; (reflexivity || lia)).
        cbn [fst failbit]. split; [lia | reflexivity].
    + cbn [failbit]. split; [discriminate | lia].
Qed.

Lemma read_block_padding_failure_unreported_witness :
  let x := XDR.new true (IOStream.mk [x01; x02; x03; x04; x05] 0 5 false) in
  snd (read_block x [] 5) = 5 /\ fail (stream (fst (fst (read_block x [] 5)))) = true.
Proof.
  pose proof (read_block_padding_failure_unreported
                (XDR.new true (IOStream.mk [x01; x02; x03; x04; x05] 0 5 false)) [] 5
                ltac:(lia) eq_refl ltac:(simpl; lia)) as H.
  cbv zeta.
  destruct (read_block _ [] 5) as [[x2 p'] r].
  destruct H as (Hr & _ & Hf). split; [exact Hr |].
  apply Hf. vm_compute. lia.
Defined.

End CodecFacts.

(** ** The stream composer *)

Section ComposerFacts.
Import MultiTraj.

(** ** Arithmetic of usable counts *)

Lemma usable_nonneg skip stride n : 0 <= usable skip stride n.
Proof. unfold usable. destruct (n >? skip); lia. Qed.

Lemma usable_zero skip stride n : n <= skip -> usable skip stride n = 0.
Proof. intros H. unfold usable. destruct (Z.gtb_spec n skip); [lia | reflexivity]. Qed.

Lemma usable_lt skip stride n b :
  1 <= stride -> 0 <= b ->
  (skip + b * stride < n <-> b < usable skip stride n).
Proof.
  intros Hs Hb. unfold usable. destruct (Z.gtb_spec n skip) as [Hgt | Hle].
  - pose proof (Z.div_mod (n - skip - 1) stride ltac:(lia)) as Hd.
    pose proof (Z.mod_pos_bound (n - skip - 1) stride ltac:(lia)) as Hm.
    assert (0 <= (n - skip - 1) / stride) by (apply Z.div_pos; lia).
    rewrite Z.max_r by lia. split; intros; nia.
  - split; intros; nia.
Qed.

Lemma usable_pos skip stride n : 1 <= stride -> (0 < usable skip stride n <-> skip < n).
Proof.
  intros Hs. pose proof (usable_lt skip stride n 0 Hs ltac:(lia)) as H.
  rewrite <- H. lia.
Qed.

(** ** Sources by index *)

Lemma ntraj_nonneg m : 0 <= ntraj m.
Proof. unfold ntraj. lia. Qed.

Lemma traj_at_Some m k :
  0 <= k < ntraj m -> exists t, traj_at m k = Some t.
Proof.
  intros H. unfold traj_at, ntraj in *.
  destruct (lookup_lt_is_Some_2 (_trajectories m) (Z.to_nat k)) as [t Ht]; [lia | eauto].
Qed.

Lemma traj_at_None m k : ntraj m <= k -> traj_at m k = None.
Proof.
  intros H. unfold traj_at, ntraj in *. apply lookup_ge_None_2. lia.
Qed.

Lemma nframes_usable m k :
  0 <= k < ntraj m -> nframes m k = usable (_skip m) (_stride m) (native m k).
Proof.
  intros H. destruct (traj_at_Some m k H) as [t Ht].
  unfold nframes, native. now rewrite Ht.
Qed.

Lemma nframes_nonneg m k : 0 <= nframes m k.
Proof. unfold nframes. destruct (traj_at m k); [apply usable_nonneg | lia]. Qed.

Lemma usables_lookup m k :
  0 <= k < ntraj m -> usables m !! Z.to_nat k = Some (nframes m k).
Proof.
  intros H. destruct (traj_at_Some m k H) as [t Ht].
  unfold usables, nframes, traj_at in *. rewrite list_lookup_fmap.
  now rewrite Ht.
Qed.

Lemma length_usables m : Z.of_nat (length (usables m)) = ntraj m.
Proof. unfold usables, ntraj. now rewrite length_map. Qed.

(** ** Prefix sums *)

Lemma sumZ_app l1 l2 : sumZ (l1 ++ l2) = sumZ l1 + sumZ l2.
Proof. induction l1 as [| a l1 IH]; simpl; lia. Qed.

Lemma base_0 m : base m 0 = 0.
Proof. reflexivity. Qed.

Lemma base_succ m k :
  0 <= k < ntraj m -> base m (k + 1) = base m k + nframes m k.
Proof.
  intros H. unfold base.
  replace (Z.to_nat (k + 1)) with (S (Z.to_nat k)) by lia.
  rewrite (take_S_r _ _ _ (usables_lookup m k H)), sumZ_app. simpl. lia.
Qed.

Lemma base_end m k : ntraj m <= k -> base m k = total m.
Proof.
  intros H. unfold base, total. rewrite take_ge; [reflexivity |].
  pose proof (length_usables m). lia.
Qed.

Lemma base_mono_step m k : 0 <= k -> base m k <= base m (k + 1).
Proof.
  intros H. destruct (Z.lt_ge_cases k (ntraj m)).
  - rewrite base_succ by lia. pose proof (nframes_nonneg m k). lia.
  - rewrite !base_end by lia. lia.
Qed.

Lemma base_mono m a b : 0 <= a <= b -> base m a <= base m b.
Proof.
  intros [Ha Hab].
  replace b with (a + Z.of_nat (Z.to_nat (b - a))) by lia.
  induction (Z.to_nat (b - a)) as [| d IH].
  - rewrite Z.add_0_r. lia.
  - pose proof (base_mono_step m (a + Z.of_nat d) ltac:(lia)) as Hs.
    replace (a + Z.of_nat (S d)) with (a + Z.of_nat d + 1) by lia. lia.
Qed.

Lemma base_le_total m k : 0 <= k -> base m k <= total m.
Proof.
  intros H. rewrite <- (base_end m (Z.max k (ntraj m))) by lia.
  apply base_mono. lia.
Qed.

(** Sources without usable frames do not move the base. *)
Lemma base_skip_unusable m a b :
  0 <= a <= b -> b <= ntraj m ->
  (forall l, a <= l < b -> nframes m l = 0) ->
  base m b = base m a.
Proof.
  intros [Ha Hab].
  replace b with (a + Z.of_nat (Z.to_nat (b - a))) by lia.
  induction (Z.to_nat (b - a)) as [| d IH]; intros Hb Hz.
  - now rewrite Z.add_0_r.
  - replace (a + Z.of_nat (S d)) with (a + Z.of_nat d + 1) by lia.
    rewrite base_succ by lia. rewrite Hz by lia.
    rewrite IH; [lia | lia |]. intros l Hl. apply Hz. lia.
Qed.

(** The owner of a virtual index is unique. *)
Lemma owns_unique m i k k' : owns m k i -> owns m k' i -> k = k'.
Proof.
  intros [Hk Hi] [Hk' Hi'].
  destruct (Z.lt_trichotomy k k') as [Hlt | [Heq | Hgt]]; [| assumption |].
  - pose proof (base_mono m (k + 1) k' ltac:(lia)) as Hm.
    rewrite base_succ in Hm by lia. lia.
  - pose proof (base_mono m (k' + 1) k ltac:(lia)) as Hm.
    rewrite base_succ in Hm by lia. lia.
Qed.

(** ** What the cursor operations leave alone *)


Lemma shape_ntraj m m' : shape m' = shape m -> ntraj m' = ntraj m.
Proof.
  unfold shape, ntraj. intros H. injection H as Hn _ _.
  apply (f_equal (@length Z)) in Hn. rewrite !length_map in Hn. lia.
Qed.

Lemma shape_native m m' k : shape m' = shape m -> native m' k = native m k.
Proof.
  unfold shape, native, traj_at. intros H. injection H as Hn _ _.
  apply (f_equal (fun l => l !! Z.to_nat k)) in Hn.
  rewrite !list_lookup_fmap in Hn.
  destruct (_trajectories m' !! Z.to_nat k), (_trajectories m !! Z.to_nat k);
    simpl in Hn; congruence.
Qed.

Lemma shape_usables m m' : shape m' = shape m -> usables m' = usables m.
Proof.
  unfold shape, usables. intros H. injection H as Hn Hs Hst. rewrite Hs, Hst.
  rewrite <- !(map_map Traj.nframes (usable (_skip m) (_stride m))). now rewrite Hn.
Qed.

Lemma shape_nframes m m' k : shape m' = shape m -> nframes m' k = nframes m k.
Proof.
  intros H. pose proof (shape_usables m m' H) as Hu.
  apply (f_equal (fun l => l !! Z.to_nat k)) in Hu.
  unfold usables, nframes, traj_at in *. rewrite !list_lookup_fmap in Hu.
  destruct (_trajectories m' !! Z.to_nat k), (_trajectories m !! Z.to_nat k);
    simpl in Hu; congruence.
Qed.

Lemma shape_base m m' k : shape m' = shape m -> base m' k = base m k.
Proof. intros H. unfold base. now rewrite (shape_usables m m' H). Qed.

Lemma shape_total m m' : shape m' = shape m -> total m' = total m.
Proof. intros H. unfold total. now rewrite (shape_usables m m' H). Qed.

Lemma shape_owns m m' k i : shape m' = shape m -> owns m' k i <-> owns m k i.
Proof.
  intros H. unfold owns.
  now rewrite (shape_ntraj m m' H), (shape_base m m' k H), (shape_nframes m m' k H).
Qed.

(** ** findNextUsableTraj *)

Lemma findNextUsableTraj_loop_frame fuel m :
  let m' := findNextUsableTraj_loop fuel m in
  _trajectories m' = _trajectories m /\ _skip m' = _skip m /\
  _stride m' = _stride m /\ _curframe m' = _curframe m /\ _nframes m' = _nframes m.
Proof.
  revert m. induction fuel as [| fuel IH]; intros m; cbn zeta; simpl; [tauto |].
  destruct (_curtraj m <? ntraj m); [| tauto].
  destruct (traj_at m (_curtraj m)) as [t |]; [| tauto].
  destruct (Traj.nframes t >? _skip m); [tauto |].
  apply (IH (set_curtraj m (_curtraj m + 1))).
Qed.

Lemma findNextUsableTraj_loop_spec fuel m :
  0 <= _curtraj m ->
  (Z.to_nat (ntraj m - _curtraj m) <= fuel)%nat ->
  let m' := findNextUsableTraj_loop fuel m in
  _curtraj m <= _curtraj m' /\
  (forall l, _curtraj m <= l < _curtraj m' -> native m l <= _skip m) /\
  (_curtraj m' < ntraj m /\ _skip m < native m (_curtraj m')
   \/ ntraj m <= _curtraj m' /\ _curtraj m' = Z.max (ntraj m) (_curtraj m)).
Proof.
  revert m. induction fuel as [| fuel IH]; intros m H0 Hf; cbn zeta; simpl.
  - split; [lia |]. split; [lia |]. right. lia.
  - destruct (Z.ltb_spec (_curtraj m) (ntraj m)) as [Hlt | Hge];
      [| split; [lia |]; split; [lia |]; right; lia].
    destruct (traj_at_Some m (_curtraj m) ltac:(lia)) as [t Ht]. rewrite Ht.
    assert (Hnat : native m (_curtraj m) = Traj.nframes t)
      by (unfold native; now rewrite Ht).
    destruct (Z.gtb_spec (Traj.nframes t) (_skip m)) as [Hgt | Hle].
    + split; [lia |]. split; [lia |]. left. lia.
    + specialize (IH (set_curtraj m (_curtraj m + 1))).
      cbn [_curtraj set_curtraj] in IH.
      change (ntraj (set_curtraj m (_curtraj m + 1))) with (ntraj m) in IH.
      destruct (IH ltac:(lia) ltac:(lia)) as (Hle' & Hskip & Hend).
      split; [lia |]. split.
      * intros l Hl. destruct (Z.eq_dec l (_curtraj m)) as [-> | Hne]; [lia |].
        apply (Hskip l). lia.
      * destruct Hend as [Hu | He]; [left; exact Hu | right; lia].
Qed.

Lemma findNextUsableTraj_frame m :
  let m' := findNextUsableTraj m in
  _trajectories m' = _trajectories m /\ _skip m' = _skip m /\
  _stride m' = _stride m /\ _curframe m' = _curframe m /\ _nframes m' = _nframes m.
Proof. apply findNextUsableTraj_loop_frame. Qed.

Lemma findNextUsableTraj_shape m : shape (findNextUsableTraj m) = shape m.
Proof.
  destruct (findNextUsableTraj_frame m) as (Ht & Hs & Hst & _).
  unfold shape. now rewrite Ht, Hs, Hst.
Qed.

Lemma findNextUsableTraj_spec m :
  0 <= _curtraj m ->
  let m' := findNextUsableTraj m in
  _curtraj m <= _curtraj m' /\
  (forall l, _curtraj m <= l < _curtraj m' -> native m l <= _skip m) /\
  (_curtraj m' < ntraj m /\ _skip m < native m (_curtraj m')
   \/ ntraj m <= _curtraj m' /\ _curtraj m' = Z.max (ntraj m) (_curtraj m)).
Proof.
  intros H. apply findNextUsableTraj_loop_spec; [assumption |].
  unfold ntraj. lia.
Qed.

Lemma wrap_small z : 0 <= z < 2 ^ 32 -> wrap z = z.
Proof. intros H. unfold wrap. now apply Z.mod_small. Qed.

(** ** frameIndexToLocation and seekFrameImpl *)

Lemma nframes_le_total m k : 0 <= k -> nframes m k <= total m.
Proof.
  intros H. destruct (Z.lt_ge_cases k (ntraj m)).
  - pose proof (base_succ m k ltac:(lia)) as Hs.
    pose proof (base_le_total m (k + 1) ltac:(lia)).
    pose proof (base_mono m 0 k ltac:(lia)). rewrite base_0 in *. lia.
  - unfold nframes. rewrite traj_at_None by lia.
    pose proof (base_le_total m 0 ltac:(lia)). now rewrite base_0 in *.
Qed.

Lemma frameIndexToLocation_loop_spec m i fuel :
  forall k,
    ntraj m < 2 ^ 32 -> total m < 2 ^ 32 ->
    0 <= k -> (Z.to_nat (ntraj m - k) <= fuel)%nat ->
    base m k <= i < total m ->
    exists k', frameIndexToLocation_loop fuel m i k (base m k) = (k', base m k')
               /\ owns m k' i.
Proof.
  induction fuel as [| fuel IH]; intros k Hn Ht Hk Hf Hi.
  - rewrite base_end in Hi by lia. lia.
  - simpl. destruct (Z.ltb_spec k (ntraj m)) as [Hlt | Hge];
      [| rewrite base_end in Hi by lia; lia].
    pose proof (nframes_nonneg m k) as Hnn.
    pose proof (nframes_le_total m k Hk) as Hnt.
    pose proof (base_le_total m (k + 1) ltac:(lia)) as Hbt.
    pose proof (base_mono m 0 k ltac:(lia)) as Hb0. rewrite base_0 in Hb0.
    rewrite base_succ in Hbt by lia.
    rewrite (wrap_small (nframes m k)) by lia.
    rewrite (wrap_small (base m k + nframes m k)) by lia.
    destruct (Z.gtb_spec (base m k + nframes m k) i) as [Hgt | Hle].
    + exists k. split; [reflexivity |]. unfold owns. lia.
    + rewrite (wrap_small (k + 1)) by lia.
      rewrite <- base_succ by lia.
      apply IH; try lia. rewrite base_succ by lia. lia.
Qed.

Lemma frameIndexToLocation_spec m i :
  ntraj m < 2 ^ 32 -> total m < 2 ^ 32 -> 0 <= i < total m ->
  exists k, frameIndexToLocation m i = (k, _skip m + (i - base m k) * _stride m)
            /\ owns m k i.
Proof.
  intros Hn Ht Hi. unfold frameIndexToLocation.
  destruct (frameIndexToLocation_loop_spec m i (length (_trajectories m)) 0 Hn Ht)
    as (k & Hk & Ho); [lia | unfold ntraj; lia | rewrite base_0; lia |].
  rewrite base_0 in Hk. rewrite Hk. exists k. split; [| exact Ho].
  destruct Ho as [Hr Hb].
  pose proof (base_mono m 0 k ltac:(lia)) as Hb0. rewrite base_0 in Hb0.
  rewrite wrap_small by lia. reflexivity.
Qed.

(** Within its owner a virtual index names a frame the source has. *)
Lemma owned_offset_in_range m k i :
  1 <= _stride m -> owns m k i ->
  _skip m + (i - base m k) * _stride m < native m k.
Proof.
  intros Hs [Hk Hi]. rewrite nframes_usable in Hi by assumption.
  apply usable_lt; lia.
Qed.

(** ** initWithList *)

Lemma total_nonneg m : 0 <= total m.
Proof.
  unfold total, usables. induction (_trajectories m) as [| t ts IH]; [reflexivity |].
  cbn [map sumZ fold_right]. pose proof (usable_nonneg (_skip m) (_stride m) (Traj.nframes t)).
  unfold sumZ in IH. lia.
Qed.

Lemma total_prefix m m' rest :
  _trajectories m' = _trajectories m ++ rest ->
  _skip m' = _skip m -> _stride m' = _stride m ->
  total m <= total m'.
Proof.
  intros Ht Hk Hs. unfold total, usables. rewrite Ht, Hk, Hs, map_app, sumZ_app.
  pose proof (total_nonneg (mkMulti rest (_skip m) (_stride m) 0 0 0)) as Hn.
  unfold total, usables in Hn. cbn [_trajectories _skip _stride] in Hn. lia.
Qed.

Lemma initWithList_loop_frame created :
  forall i m,
    let m' := initWithList_loop created i m in
    _trajectories m' = _trajectories m ++ created /\
    _skip m' = _skip m /\ _stride m' = _stride m /\
    _curtraj m' = _curtraj m /\ _curframe m' = _curframe m.
Proof.
  induction created as [| t rest IH]; intros i m; cbn zeta.
  - cbn [initWithList_loop]. rewrite app_nil_r. tauto.
  - cbn [initWithList_loop].
    match goal with |- context [initWithList_loop rest ?j ?x] =>
      destruct (IH j x) as (H1 & H2 & H3 & H4 & H5) end.
    cbn zeta in *. repeat split; try assumption.
    rewrite H1. cbn [_trajectories set_trajectories set_nframes].
    now rewrite <- app_assoc.
Qed.

(** The stored total is the sum of the usable counts as long as that
    sum fits a [uint]. *)
Lemma initWithList_loop_spec created :
  forall i m,
    i = ntraj m -> ntraj m + Z.of_nat (length created) < 2 ^ 32 ->
    _nframes m = total m ->
    let m' := initWithList_loop created i m in
    total m' < 2 ^ 32 ->
    _trajectories m' = _trajectories m ++ created /\
    _skip m' = _skip m /\ _stride m' = _stride m /\
    _curtraj m' = _curtraj m /\ _curframe m' = _curframe m /\
    _nframes m' = total m'.
Proof.
  induction created as [| t rest IH]; intros i m Hi Hlen Hnf; cbn zeta.
  - simpl. rewrite app_nil_r. tauto.
  - cbn [initWithList_loop]. intros Hfit.
    set (m1 := set_trajectories m (_trajectories m ++ [t])) in *.
    set (m2 := set_nframes m1 (wrap (_nframes m1 + nframes m1 i))) in *.
    assert (Hn1 : ntraj m1 = ntraj m + 1).
    { unfold ntraj, m1. cbn [_trajectories set_trajectories].
      rewrite length_app. simpl. lia. }
    assert (Hu : usables m1 = usables m ++ [nframes m1 i]).
    { unfold usables, m1, nframes, traj_at. cbn [_trajectories set_trajectories _skip _stride].
      rewrite map_app. simpl. f_equal.
      rewrite lookup_app_r by (unfold ntraj in Hi; lia).
      replace (Z.to_nat i - length (_trajectories m))%nat with 0%nat
        by (unfold ntraj in Hi; lia).
      reflexivity. }
    destruct (initWithList_loop_frame rest (wrap (i + 1)) m2) as (F1 & F2 & F3 & _).
    cbn zeta in F1, F2, F3.
    pose proof (total_prefix m2 _ rest F1 F2 F3) as Hpre.
    change (total m2) with (total m1) in Hpre.
    pose proof (total_nonneg m1) as Hnn1.
    assert (Ht2 : _nframes m2 = total m2).
    { unfold m2 at 1. cbn [_nframes set_nframes].
      change (total m2) with (total m1).
      change (_nframes m1) with (_nframes m). rewrite Hnf.
      replace (total m + nframes m1 i) with (total m1)
        by (unfold total at 1; rewrite Hu, sumZ_app; unfold total; simpl; lia).
      apply wrap_small. lia. }
    pose proof (ntraj_nonneg m) as Hnn.
    destruct (IH (wrap (i + 1)) m2) as (H1 & H2 & H3 & H4 & H5 & H6).
    + rewrite wrap_small by (simpl length in Hlen; lia).
      change (ntraj m2) with (ntraj m1). lia.
    + change (ntraj m2) with (ntraj m1). simpl length in Hlen. lia.
    + exact Ht2.
    + exact Hfit.
    + repeat split; try assumption.
      rewrite H1. unfold m2, m1. cbn [_trajectories set_trajectories set_nframes].
      now rewrite <- app_assoc.
Qed.

Lemma construct_frame created skip stride :
  let m := construct created skip stride in
  _trajectories m = created /\ _skip m = skip /\ _stride m = stride.
Proof.
  unfold construct, initWithList.
  destruct (initWithList_loop_frame created 0 (mkMulti [] skip stride 0 0 0))
    as (H1 & H2 & H3 & _).
  cbn zeta in *. repeat split; assumption.
Qed.

Lemma construct_spec created skip stride :
  Z.of_nat (length created) < 2 ^ 32 ->
  let m := construct created skip stride in
  total m < 2 ^ 32 ->
  _trajectories m = created /\ _skip m = skip /\ _stride m = stride /\
  _nframes m = total m.
Proof.
  intros Hlen. unfold construct, initWithList. cbn zeta. intros Hfit.
  destruct (initWithList_loop_spec created 0 (mkMulti [] skip stride 0 0 0))
    as (H1 & H2 & H3 & _ & _ & H6); try reflexivity.
  - unfold ntraj. simpl. lia.
  - exact Hfit.
  - repeat split; assumption.
Qed.

Lemma eof_false m : 0 <= _curtraj m < ntraj m -> eof m = false.
Proof. intros H. unfold eof. apply Z.leb_gt. lia. Qed.

Lemma eof_true m : ntraj m <= _curtraj m -> eof m = true.
Proof. intros H. unfold eof. apply Z.leb_le. lia. Qed.

Lemma native_unusable m l :
  0 <= l < ntraj m -> native m l <= _skip m -> nframes m l = 0.
Proof. intros Hl H. rewrite nframes_usable by assumption. now apply usable_zero. Qed.

(** ** seekNextFrameImpl *)

Lemma cursor_fits_uint_spec m :
  cursor_fits_uint m = true ->
  0 <= _skip m /\
  forall l, 0 <= l < ntraj m -> native m l + _stride m < 2 ^ 32.
Proof.
  unfold cursor_fits_uint. intros H. apply andb_prop in H as [Hk Hall].
  split; [now apply Z.leb_le |].
  intros l Hl. destruct (traj_at_Some m l Hl) as [t Ht].
  unfold native. rewrite Ht. unfold traj_at in Ht.
  rewrite forallb_forall in Hall. apply Z.ltb_lt, Hall.
  apply list_elem_of_In. eapply list_elem_of_lookup_2. exact Ht.
Qed.

Lemma seekNextFrameImpl_frame m :
  let m' := seekNextFrameImpl m in
  _trajectories m' = _trajectories m /\ _skip m' = _skip m /\
  _stride m' = _stride m /\ _nframes m' = _nframes m.
Proof.
  cbn zeta. unfold seekNextFrameImpl.
  destruct (eof m); [tauto |]. cbn [_curtraj set_curframe _curframe].
  change (traj_at (set_curframe m (wrap (_curframe m + _stride m))) (_curtraj m))
    with (traj_at m (_curtraj m)).
  destruct (traj_at m (_curtraj m)) as [t |]; [| cbn; tauto].
  destruct (_ >=? _); [| cbn; tauto].
  match goal with |- context [findNextUsableTraj ?x] =>
    destruct (findNextUsableTraj_frame x) as (H1 & H2 & H3 & _ & H5) end.
  cbn zeta in *. rewrite H1, H2, H3, H5. cbn. tauto.
Qed.

Lemma seekNextFrameImpl_shape m : shape (seekNextFrameImpl m) = shape m.
Proof.
  destruct (seekNextFrameImpl_frame m) as (H1 & H2 & H3 & _).
  unfold shape. cbn zeta in *. now rewrite H1, H2, H3.
Qed.

(** One advance from the location of virtual index [i] leads to the
    location of [i + 1]. *)
Lemma seekNextFrameImpl_step m i :
  1 <= _stride m ->
  0 <= _skip m -> native m (_curtraj m) + _stride m < 2 ^ 32 ->
  owns m (_curtraj m) i ->
  _curframe m = _skip m + (i - base m (_curtraj m)) * _stride m ->
  i + 1 < total m ->
  let m' := seekNextFrameImpl m in
  owns m (_curtraj m') (i + 1) /\
  _curframe m' = _skip m + (i + 1 - base m (_curtraj m')) * _stride m.
Proof.
  intros Hs Hk0 Hfit Ho Hf Ht. cbn zeta. pose proof Ho as [Hk Hi].
  pose proof (owned_offset_in_range m _ _ Hs Ho) as Hin. rewrite <- Hf in Hin.
  assert (Hcf0 : 0 <= _curframe m) by nia.
  unfold seekNextFrameImpl. rewrite eof_false by assumption.
  rewrite (wrap_small (_curframe m + _stride m)) by lia.
  cbn [_curtraj set_curframe _curframe].
  change (traj_at (set_curframe m (_curframe m + _stride m)) (_curtraj m))
    with (traj_at m (_curtraj m)).
  destruct (traj_at_Some m (_curtraj m) Hk) as [t Ht']. rewrite Ht'.
  assert (Hnat : native m (_curtraj m) = Traj.nframes t)
    by (unfold native; now rewrite Ht').
  rewrite <- Hnat.
  pose proof (usable_lt (_skip m) (_stride m) (native m (_curtraj m))
                (i + 1 - base m (_curtraj m)) Hs ltac:(lia)) as Hu.
  rewrite <- nframes_usable in Hu by assumption.
  replace (_skip m + (i + 1 - base m (_curtraj m)) * _stride m)
    with (_curframe m + _stride m) in Hu by lia.
  destruct (Z.geb_spec (_curframe m + _stride m) (native m (_curtraj m))) as [Hge | Hlt].
  - (* the source is exhausted *)
    assert (Hnext : base m (_curtraj m + 1) = i + 1)
      by (rewrite base_succ by assumption; lia).
    set (m1 := set_curtraj (set_curframe (set_curframe m (_curframe m + _stride m))
                              (_skip (set_curframe m (_curframe m + _stride m))))
                 (_curtraj (set_curframe (set_curframe m (_curframe m + _stride m))
                              (_skip (set_curframe m (_curframe m + _stride m)))) + 1)).
    destruct (findNextUsableTraj_frame m1) as (_ & _ & _ & Hcf & _).
    destruct (findNextUsableTraj_spec m1) as (Hle & Hskip & Hend);
      [cbn; lia |].
    cbn zeta in *.
    change (ntraj m1) with (ntraj m) in *. change (_skip m1) with (_skip m) in *.
    change (_curtraj m1) with (_curtraj m + 1) in *.
    change (_curframe m1) with (_skip m) in *.
    assert (Hnat1 : forall l, native m1 l = native m l) by reflexivity.
    set (K := _curtraj (findNextUsableTraj m1)) in *.
    change (findNextUsableTraj _) with (findNextUsableTraj m1). fold K.
    assert (HK : K <= ntraj m) by (destruct Hend as [[? ?] | [? ?]]; lia).
    assert (Hbase : base m K = i + 1).
    { rewrite <- Hnext. apply base_skip_unusable; [lia | lia |].
      intros l Hl. apply native_unusable; [lia |]. rewrite <- Hnat1. now apply Hskip. }
    destruct Hend as [[HKlt Husable] | [HKge _]].
    + split.
      * unfold owns. split; [lia |]. rewrite nframes_usable by lia.
        rewrite Hnat1 in Husable.
        apply (proj2 (usable_pos _ (_stride m) _ Hs)) in Husable. lia.
      * rewrite Hcf, Hbase. lia.
    + rewrite base_end in Hbase by lia. lia.
  - (* the next frame is in the same source *)
    cbn [_curtraj set_curframe _curframe]. split; [| lia].
    unfold owns. lia.
Qed.

(** ** rewindImpl *)

Lemma readFrame_frames t i : Traj.frames (fst (Traj.readFrame t i)) = Traj.frames t.
Proof.
  unfold Traj.readFrame. destruct (_ && _); [| reflexivity].
  destruct (Traj.frames t !! Z.to_nat i); reflexivity.
Qed.

Lemma readFrame_nframes t i : Traj.nframes (fst (Traj.readFrame t i)) = Traj.nframes t.
Proof. unfold Traj.nframes. now rewrite readFrame_frames. Qed.

Lemma readCurrent_frame m :
  let m' := fst (readCurrent m) in
  shape m' = shape m /\ _curtraj m' = _curtraj m /\ _curframe m' = _curframe m /\
  _nframes m' = _nframes m.
Proof.
  cbn zeta. unfold readCurrent.
  destruct (traj_at m (_curtraj m)) as [t |] eqn:Ht; [| tauto].
  pose proof (readFrame_nframes t (_curframe m)) as Hn.
  destruct (Traj.readFrame t (_curframe m)) as [t' ok]. cbn [fst] in *.
  repeat split. unfold shape. cbn [_trajectories set_trajectories _skip _stride].
  f_equal. f_equal. rewrite list_fmap_insert, Hn. apply list_insert_id.
  rewrite list_lookup_fmap. unfold traj_at in Ht. now rewrite Ht.
Qed.

Lemma rewindImpl_spec m :
  let m' := rewindImpl m in
  shape m' = shape m /\ _nframes m' = _nframes m /\
  _curframe m' = _skip m /\
  0 <= _curtraj m' /\
  (forall l, 0 <= l < _curtraj m' -> native m l <= _skip m) /\
  (_curtraj m' < ntraj m /\ _skip m < native m (_curtraj m')
   \/ _curtraj m' = ntraj m).
Proof.
  cbn zeta. unfold rewindImpl.
  set (m1 := set_curframe _ _).
  assert (Hsh1 : shape m1 = shape m).
  { unfold shape, m1. cbn. now rewrite map_map. }
  destruct (findNextUsableTraj_frame m1) as (_ & Hs4 & _ & Hcf & Hnf).
  pose proof (findNextUsableTraj_shape m1) as Hsh4.
  destruct (findNextUsableTraj_spec m1) as (Hle & Hskip & Hend); [cbn; lia |].
  cbn zeta in *.
  set (m4 := findNextUsableTraj m1) in *.
  change (_curtraj m1) with 0 in *. change (_skip m1) with (_skip m) in *.
  change (_curframe m1) with (_skip m) in *. change (_nframes m1) with (_nframes m) in *.
  rewrite (shape_ntraj m m1 Hsh1) in Hend.
  assert (Hnat : forall l, native m1 l = native m l)
    by (intros l; now apply shape_native).
  assert (Hcur : forall mf, _curtraj mf = _curtraj m4 ->
            0 <= _curtraj mf /\
            (forall l, 0 <= l < _curtraj mf -> native m l <= _skip m) /\
            (_curtraj mf < ntraj m /\ _skip m < native m (_curtraj mf)
             \/ _curtraj mf = ntraj m)).
  { intros mf ->. split; [lia |]. split.
    - intros l Hl. rewrite <- Hnat. now apply Hskip.
    - destruct Hend as [[H1 H2] | [H1 H2]]; [left | right].
      + now rewrite <- Hnat.
      + pose proof (ntraj_nonneg m). lia. }
  destruct (negb (eof m4)).
  - destruct (readCurrent_frame m4) as (Hsh & Hc & Hf & Hn). cbn zeta in *.
    split; [congruence |]. split; [congruence |]. split; [congruence |].
    now apply Hcur.
  - split; [congruence |]. split; [congruence |]. split; [congruence |].
    now apply Hcur.
Qed.

(** The cursor after [rewind] and [n] advances is the location of
    virtual index [n]. *)
Lemma advance_rewind_location m n :
  1 <= _stride m ->
  cursor_fits_uint m = true ->
  Z.of_nat n < total m ->
  let m' := advance n (rewindImpl m) in
  shape m' = shape m /\ _nframes m' = _nframes m /\
  owns m (_curtraj m') (Z.of_nat n) /\
  _curframe m' = _skip m + (Z.of_nat n - base m (_curtraj m')) * _stride m.
Proof.
  intros Hs Hfit. cbn zeta.
  destruct (cursor_fits_uint_spec m Hfit) as [Hk0 Hnat32].
  assert (Hgen : forall n m0,
            shape m0 = shape m -> _nframes m0 = _nframes m ->
            forall i, 0 <= i -> i + Z.of_nat n < total m ->
            owns m (_curtraj m0) i ->
            _curframe m0 = _skip m + (i - base m (_curtraj m0)) * _stride m ->
            let m' := advance n m0 in
            shape m' = shape m /\ _nframes m' = _nframes m /\
            owns m (_curtraj m') (i + Z.of_nat n) /\
            _curframe m' = _skip m + (i + Z.of_nat n - base m (_curtraj m')) * _stride m).
  { clear n. induction n as [| n IH]; intros m0 Hsh Hnf i Hi Ht Ho Hf; cbn zeta.
    - simpl. rewrite Z.add_0_r. tauto.
    - cbn [advance].
      assert (Hsk : _skip m0 = _skip m) by (unfold shape in Hsh; congruence).
      assert (Hst : _stride m0 = _stride m) by (unfold shape in Hsh; congruence).
      destruct (seekNextFrameImpl_step m0 i) as (Ho' & Hf').
      + lia.
      + lia.
      + rewrite Hst, (shape_native m m0) by assumption. apply Hnat32.
        destruct Ho as [Hr _]. exact Hr.
      + now apply (shape_owns m m0).
      + rewrite Hsk, Hst, (shape_base m m0) by assumption. exact Hf.
      + rewrite (shape_total m m0) by assumption. lia.
      + destruct (seekNextFrameImpl_frame m0) as (_ & _ & _ & Hnf').
        pose proof (seekNextFrameImpl_shape m0) as Hsh'. cbn zeta in *.
        apply (shape_owns m m0) in Ho'; [| assumption].
        rewrite Hsk, Hst, (shape_base m m0) in Hf' by assumption.
        replace (i + Z.of_nat (S n)) with (i + 1 + Z.of_nat n) by lia.
        apply IH; try assumption; try congruence; lia. }
  intros Ht.
  destruct (rewindImpl_spec m) as (Hsh & Hnf & Hcf & Hc0 & Hskip & Hend). cbn zeta in *.
  set (r := rewindImpl m) in *.
  assert (Hb : base m (_curtraj r) = 0).
  { destruct (Z.le_gt_cases (_curtraj r) (ntraj m)) as [Hle | Hgt]; [| lia].
    rewrite <- (base_0 m). apply base_skip_unusable; [lia | lia |].
    intros l Hl. apply native_unusable; [lia |]. now apply Hskip. }
  apply (Hgen n r Hsh Hnf 0); [lia | lia | | rewrite Hb, Hcf; lia].
  destruct Hend as [[Hlt Hu] | He].
  - unfold owns. split; [lia |]. rewrite Hb, nframes_usable by lia.
    apply (proj2 (usable_pos _ (_stride m) _ Hs)) in Hu. lia.
  - rewrite He, base_end in Hb by lia. lia.
Qed.

Lemma seekFrameImpl_spec m i :
  1 <= _stride m -> ntraj m < 2 ^ 32 -> total m < 2 ^ 32 -> _nframes m = total m ->
  0 <= i < total m ->
  exists m' k,
    seekFrameImpl m i = inr m' /\
    owns m k i /\
    cursor m' = (k, _skip m + (i - base m k) * _stride m) /\
    shape m' = shape m.
Proof.
  intros Hs Hn Ht Hnf Hi. unfold seekFrameImpl. rewrite Hnf.
  destruct (Z.geb_spec i (total m)); [lia |].
  destruct (frameIndexToLocation_spec m i Hn Ht Hi) as (k & Hk & Ho).
  rewrite Hk. eexists. exists k. split; [reflexivity |]. split; [exact Ho |].
  split; reflexivity.
Qed.

(** Claim C5 (sequential iteration and seek agree).  For a stream whose
    stride is at least 1, whose total fits the [uint] index of
    [seekFrameImpl] and whose cursor arithmetic stays within a [uint]
    (the skip is not negative and no native frame count plus the stride
    reaches [2^32], so that [_curframe += _stride] does not wrap), and
    for every [k] smaller than the total virtual frame count, [rewind]
    followed by [k] calls of [seekNextFrameImpl] leaves the cursor that
    [seekFrameImpl k] produces. *)
Theorem sequential_iteration_agrees_with_seek :
  forall (m : MultiTrajectory) (k : nat),
    1 <= _stride m ->
    ntraj m < 2 ^ 32 -> total m < 2 ^ 32 -> _nframes m = total m ->
    cursor_fits_uint m = true ->
    Z.of_nat k < total m ->
    exists m',
      seekFrameImpl m (Z.of_nat k) = inr m' /\
      cursor (advance k (rewindImpl m)) = cursor m'.
Proof.
  intros m k Hs Hn Ht Hnf Hfit Hk.
  destruct (seekFrameImpl_spec m (Z.of_nat k) Hs Hn Ht Hnf ltac:(lia))
    as (m' & K & Hseek & Ho & Hc & _).
  destruct (advance_rewind_location m k Hs Hfit Hk) as (_ & _ & Ho' & Hf'). cbn zeta in *.
  exists m'. split; [exact Hseek |].
  rewrite Hc. unfold cursor.
  rewrite (owns_unique m _ _ _ Ho' Ho) in *. now rewrite Hf'.
Qed.

Lemma sequential_iteration_agrees_with_seek_witness :
  let m := construct [Traj.sample 0 10; Traj.sample 1 5; Traj.sample 2 20] 2 3 in
  exists m', seekFrameImpl m 9 = inr m' /\ cursor (advance 9 (rewindImpl m)) = cursor m'.
Proof.
  cbv zeta.
  apply (sequential_iteration_agrees_with_seek
           (construct [Traj.sample 0 10; Traj.sample 1 5; Traj.sample 2 20] 2 3) 9);
    vm_compute; congruence.
Defined.

(** Claim C7 (end of stream).  At end, [seekNextFrameImpl] returns the
    stream as it is (cursor and sources unchanged),
    [updateGroupCoordsImpl] returns the group as it is, and [parseFrame]
    reports that nothing was read and leaves the stream as it is. *)
Theorem end_of_stream_no_op :
  forall (m : MultiTrajectory) (g : AtomicGroup),
    eof m = true ->
    seekNextFrameImpl m = m /\
    updateGroupCoordsImpl m g = g /\
    parseFrame m = (m, false).
Proof.
  intros m g He. unfold seekNextFrameImpl, updateGroupCoordsImpl, parseFrame.
  rewrite He. repeat split.
Qed.

Lemma end_of_stream_no_op_witness :
  let m := advance 10 (rewindImpl
             (construct [Traj.sample 0 10; Traj.sample 1 5; Traj.sample 2 20] 2 3)) in
  let g := mkGroup [(7, 7, 7)] None in
  seekNextFrameImpl m = m /\ updateGroupCoordsImpl m g = g /\ parseFrame m = (m, false).
Proof.
  cbv zeta. apply end_of_stream_no_op. vm_compute. reflexivity.
Defined.


Lemma at_usable_shape m a :
  shape a = shape m ->
  at_usable a <->
  0 <= _curtraj a /\
  (_curtraj a = ntraj m \/ _curtraj a < ntraj m /\ _skip m < native m (_curtraj a)).
Proof.
  intros Hsh. unfold at_usable.
  rewrite (shape_ntraj m a Hsh), (shape_native m a _ Hsh).
  replace (_skip a) with (_skip m) by (unfold shape in Hsh; congruence).
  reflexivity.
Qed.

Lemma seekNextFrameImpl_moves m :
  at_usable m ->
  let m' := seekNextFrameImpl m in
  at_usable m' /\
  (_curtraj m' = _curtraj m
   \/ _curtraj m < _curtraj m' /\
      forall l, _curtraj m < l < _curtraj m' -> native m l <= _skip m).
Proof.
  intros [H0 Hu]. cbn zeta.
  pose proof (seekNextFrameImpl_shape m) as Hsh.
  rewrite (at_usable_shape m _ Hsh).
  clear Hsh. unfold seekNextFrameImpl.
  destruct (eof m) eqn:He; [tauto |].
  cbn [_curtraj set_curframe _curframe] in *.
  change (traj_at (set_curframe m (wrap (_curframe m + _stride m))) (_curtraj m))
    with (traj_at m (_curtraj m)) in *.
  destruct (traj_at m (_curtraj m)) as [t |] eqn:Ht; [| cbn; tauto].
  destruct (_ >=? _); [| cbn; tauto].
  match goal with |- context [findNextUsableTraj ?x] => set (m1 := x) in * end.
  destruct (findNextUsableTraj_spec m1) as (Hle & Hskip & Hend); [cbn; lia |].
  cbn zeta in *.
  change (ntraj m1) with (ntraj m) in *. change (_skip m1) with (_skip m) in *.
  change (_curtraj m1) with (_curtraj m + 1) in *.
  assert (Hnat1 : forall l, native m1 l = native m l) by reflexivity.
  assert (Hlt : _curtraj m < ntraj m) by (unfold eof in He; lia).
  split; [split; [lia |] |].
  - destruct Hend as [[? ?] | [? ?]]; [right; now rewrite <- Hnat1 | left; lia].
  - right. split; [lia |].
    intros l Hl. rewrite <- Hnat1. apply Hskip. lia.
Qed.

Lemma rewindImpl_at_usable m : at_usable (rewindImpl m).
Proof.
  destruct (rewindImpl_spec m) as (Hsh & _ & _ & H0 & _ & Hend). cbn zeta in *.
  rewrite (at_usable_shape m _ Hsh). split; [assumption | tauto].
Qed.

Lemma advance_S n : forall m, advance (S n) m = seekNextFrameImpl (advance n m).
Proof.
  induction n as [| n IH]; intros m; [reflexivity |].
  change (advance (S (S n)) m) with (advance (S n) (seekNextFrameImpl m)).
  rewrite IH. reflexivity.
Qed.

Lemma advance_shape n : forall m, shape (advance n m) = shape m.
Proof.
  induction n as [| n IH]; intros m; [reflexivity |].
  cbn [advance]. rewrite IH. apply seekNextFrameImpl_shape.
Qed.

Lemma advance_at_usable n : forall m, at_usable m -> at_usable (advance n m).
Proof.
  induction n as [| n IH]; intros m H; [exact H |].
  cbn [advance]. apply IH. now apply seekNextFrameImpl_moves.
Qed.

(** Claim C6 (a skip-exhausted source is skipped).  A source [l] whose
    native frame count is at most [skip] has no usable frame and is never
    the current source after [rewind] and any number of advances.
    [rewind] stops at the first source whose native count exceeds [skip],
    or at end; each advance either stays on its source or steps over
    sources whose native count is at most [skip], to the next source
    whose native count exceeds [skip], or to end. *)
Theorem skip_exhausted_source_is_skipped :
  forall (m : MultiTrajectory) (l : Z),
    0 <= l < ntraj m ->
    native m l <= _skip m ->
    nframes m l = 0 /\
    (forall n, _curtraj (advance n (rewindImpl m)) <> l) /\
    (let r := rewindImpl m in
     (forall j, 0 <= j < _curtraj r -> native m j <= _skip m) /\
     (_curtraj r = ntraj m \/ _curtraj r < ntraj m /\ _skip m < native m (_curtraj r))) /\
    (forall n,
       let a := advance n (rewindImpl m) in
       let a' := seekNextFrameImpl a in
       (_curtraj a' = ntraj m \/ _curtraj a' < ntraj m /\ _skip m < native m (_curtraj a')) /\
       (_curtraj a' = _curtraj a \/
        _curtraj a < _curtraj a' /\
        forall j, _curtraj a < j < _curtraj a' -> native m j <= _skip m)).
Proof.
  intros m l Hl Hn.
  assert (Hreach : forall n,
            let a := advance n (rewindImpl m) in
            shape a = shape m /\ at_usable a).
  { intros n. cbn zeta. split.
    - rewrite advance_shape. now destruct (rewindImpl_spec m).
    - apply advance_at_usable, rewindImpl_at_usable. }
  split; [now apply native_unusable |]. split; [| split].
  - intros n Heq. destruct (Hreach n) as [Hsh Hu]. cbn zeta in *.
    apply (at_usable_shape m _ Hsh) in Hu. rewrite Heq in Hu. lia.
  - destruct (rewindImpl_spec m) as (_ & _ & _ & _ & Hskip & Hend). cbn zeta in *.
    split; [exact Hskip | tauto].
  - intros n. cbn zeta. destruct (Hreach n) as [Hsh Hu]. cbn zeta in *.
    destruct (Hreach (S n)) as [Hsh' Hu']. cbn zeta in *. rewrite advance_S in Hsh', Hu'.
    destruct (seekNextFrameImpl_moves _ Hu) as [_ Hmv]. cbn zeta in *.
    assert (Hsk : _skip (advance n (rewindImpl m)) = _skip m)
      by (unfold shape in Hsh; congruence).
    rewrite Hsk in Hmv.
    split.
    + apply (at_usable_shape m _ Hsh') in Hu'. tauto.
    + destruct Hmv as [Heq | [Hlt Hbetween]]; [left; exact Heq | right].
      split; [lia |]. intros j Hj. rewrite <- (shape_native m _ j Hsh).
      now apply Hbetween.
Qed.

Lemma skip_exhausted_source_is_skipped_witness :
  let m := construct [Traj.sample 0 2; Traj.sample 1 1; Traj.sample 2 4;
                      Traj.sample 3 0; Traj.sample 4 3] 2 3 in
  nframes m 1 = 0 /\ forall n, _curtraj (advance n (rewindImpl m)) <> 1.
Proof.
  cbv zeta.
  destruct (skip_exhausted_source_is_skipped
              (construct [Traj.sample 0 2; Traj.sample 1 1; Traj.sample 2 4;
                          Traj.sample 3 0; Traj.sample 4 3] 2 3) 1)
    as (H1 & H2 & _); [vm_compute; split; congruence | vm_compute; congruence |].
  split; [exact H1 | exact H2].
Defined.

(** Claim C4 (rewind primes a readable frame).  After [rewindImpl], if
    the stream is not at end, the cursor is on the first source whose
    native count exceeds [skip], at native offset [skip]; that source has
    loaded its frame [skip]; and [updateGroupCoordsImpl] gives the
    coordinates of that frame, with no call in between. *)
Theorem rewind_primes_a_readable_frame :
  forall (m : MultiTrajectory) (g : AtomicGroup),
    0 <= _skip m ->
    let m' := rewindImpl m in
    eof m' = false ->
    exists (t t' : Traj.Trajectory) (f : AtomicGroup),
      (forall j, 0 <= j < _curtraj m' -> native m j <= _skip m) /\
      _skip m < native m (_curtraj m') /\
      _curframe m' = _skip m /\
      traj_at m (_curtraj m') = Some t /\
      Traj.frames t !! Z.to_nat (_skip m) = Some f /\
      traj_at m' (_curtraj m') = Some t' /\
      Traj.loaded t' = Some f /\
      updateGroupCoordsImpl m' g = mkGroup (coords f) (periodicBox g).
Proof.
  intros m g Hsk m' He.
  destruct (rewindImpl_spec m) as (Hsh & _ & Hcf & H0 & Hskip & Hend).
  fold m' in Hsh, Hcf, H0, Hskip, Hend.
  assert (Hlt : _curtraj m' < ntraj m).
  { unfold eof in He. rewrite (shape_ntraj m m' Hsh) in He. lia. }
  destruct Hend as [[_ Hu] | Heq]; [| lia].
  destruct (traj_at_Some m (_curtraj m') ltac:(lia)) as [t Ht].
  assert (Hnat : native m (_curtraj m') = Traj.nframes t) by (unfold native; now rewrite Ht).
  destruct (lookup_lt_is_Some_2 (Traj.frames t) (Z.to_nat (_skip m))) as [f Hf].
  { unfold Traj.nframes in Hnat. lia. }
  (* the state before the eager read *)
  set (m3 := set_curframe (set_curtraj (set_trajectories m
                (map Traj.rewind (_trajectories m))) 0) (_skip m)).
  set (m4 := findNextUsableTraj m3).
  assert (Hm' : m' = if negb (eof m4) then fst (readCurrent m4) else m4) by reflexivity.
  destruct (findNextUsableTraj_frame m3) as (Ht4 & _ & _ & Hcf4 & _).
  fold m4 in Ht4, Hcf4.
  change (_trajectories m3) with (map Traj.rewind (_trajectories m)) in Ht4.
  change (_curframe m3) with (_skip m) in Hcf4.
  destruct (readCurrent_frame m4) as (_ & Hc & _). cbn zeta in Hc.
  assert (Hcur : _curtraj m' = _curtraj m4)
    by (rewrite Hm'; destruct (negb (eof m4)); congruence).
  assert (He4 : eof m4 = false).
  { destruct (eof m4) eqn:E; [| reflexivity]. rewrite Hm' in He. simpl in He. congruence. }
  rewrite He4 in Hm'. cbn [negb] in Hm'.
  assert (Ht1 : traj_at m4 (_curtraj m4) = Some (Traj.rewind t)).
  { unfold traj_at in *. rewrite Ht4, list_lookup_fmap, <- Hcur, Ht. reflexivity. }
  assert (Hrd : Traj.readFrame (Traj.rewind t) (_skip m)
                = (Traj.mk (Traj.frames t) (_skip m + 1) (Some f), true)).
  { unfold Traj.readFrame.
    change (Traj.nframes (Traj.rewind t)) with (Traj.nframes t).
    change (Traj.frames (Traj.rewind t)) with (Traj.frames t).
    rewrite Hf.
    destruct (Z.leb_spec 0 (_skip m)); [| lia].
    destruct (Z.ltb_spec (_skip m) (Traj.nframes t)); [| lia].
    reflexivity. }
  set (t' := Traj.mk (Traj.frames t) (_skip m + 1) (Some f)) in *.
  assert (Hm'' : m' = set_trajectories m4 (<[Z.to_nat (_curtraj m4) := t']> (_trajectories m4))).
  { rewrite Hm'. unfold readCurrent. rewrite Ht1, Hcf4, Hrd. reflexivity. }
  assert (Hat : traj_at m' (_curtraj m') = Some t').
  { rewrite Hcur, Hm''. unfold traj_at. cbn [_trajectories set_trajectories].
    apply list_lookup_insert_eq. unfold traj_at in Ht1. now apply lookup_lt_Some in Ht1. }
  exists t, t', f. repeat split; try assumption.
  unfold updateGroupCoordsImpl. rewrite He, Hat. reflexivity.
Qed.

Lemma rewind_primes_a_readable_frame_witness :
  let m := construct [Traj.sample 0 10; Traj.sample 1 5; Traj.sample 2 20] 2 3 in
  exists f, updateGroupCoordsImpl (rewindImpl m) (mkGroup [] None)
            = mkGroup (coords f) None
            /\ Traj.frames (Traj.sample 0 10) !! 2%nat = Some f.
Proof.
  cbv zeta.
  destruct (rewind_primes_a_readable_frame
              (construct [Traj.sample 0 10; Traj.sample 1 5; Traj.sample 2 20] 2 3)
              (mkGroup [] None))
    as (t & t' & f & _ & _ & _ & Ht & Hf & _ & _ & Hg);
    [vm_compute; congruence | vm_compute; reflexivity |].
  exists f. split; [exact Hg |].
  vm_compute in Ht. injection Ht as <-. exact Hf.
Defined.

Lemma seekFrameImpl_error m i :
  (exists e, seekFrameImpl m i = inl e) <-> _nframes m <= i.
Proof.
  unfold seekFrameImpl. destruct (Z.geb_spec i (_nframes m)); split.
  - intros _. lia.
  - intros _. eauto.
  - intros [e He]. discriminate.
  - intros Hle. lia.
Qed.

(** Seeking an index whose owner is known. *)
Lemma seekFrameImpl_owner m i k :
  1 <= _stride m -> ntraj m < 2 ^ 32 -> total m < 2 ^ 32 -> _nframes m = total m ->
  owns m k i ->
  exists m', seekFrameImpl m i = inr m' /\
             cursor m' = (k, _skip m + (i - base m k) * _stride m).
Proof.
  intros Hs Hn Ht Hnf Ho.
  assert (Hi : 0 <= i < total m).
  { destruct Ho as [Hk Hi]. pose proof (base_mono m 0 k ltac:(lia)) as H0.
    rewrite base_0 in H0. pose proof (base_le_total m (k + 1) ltac:(lia)) as H1.
    rewrite base_succ in H1 by assumption. lia. }
  destruct (seekFrameImpl_spec m i Hs Hn Ht Hnf Hi) as (m' & k' & Hseek & Ho' & Hc & _).
  exists m'. split; [exact Hseek |]. now rewrite (owns_unique m i k k' Ho Ho').
Qed.

(** Claim C1 (multi-source indexing).  First the example: three sources
    of 10, 5 and 20 native frames with [skip = 2], [stride = 3] have
    usable counts 3, 1, 6 and total 10; seeking 0, 3, 4, 9 sets the
    cursor to (0, 2), (1, 2), (2, 2), (2, 17); seeking 10 fails.  Then in
    general, for a stream built by [construct] with stride at least 1
    whose total fits a [uint]: seeking fails exactly when the index is at
    least the total, and a smaller index is owned by exactly one source
    [k], the cursor is set to [(k, skip + (i - base k) * stride)], and
    that offset is a native frame of source [k]. *)
Theorem multi_source_indexing :
  (forall t0 t1 t2 : Traj.Trajectory,
     Traj.nframes t0 = 10 -> Traj.nframes t1 = 5 -> Traj.nframes t2 = 20 ->
     let m := construct [t0; t1; t2] 2 3 in
     nframes m 0 = 3 /\ nframes m 1 = 1 /\ nframes m 2 = 6 /\
     _nframes m = 10 /\
     (exists m', seekFrameImpl m 0 = inr m' /\ cursor m' = (0, 2)) /\
     (exists m', seekFrameImpl m 3 = inr m' /\ cursor m' = (1, 2)) /\
     (exists m', seekFrameImpl m 4 = inr m' /\ cursor m' = (2, 2)) /\
     (exists m', seekFrameImpl m 9 = inr m' /\ cursor m' = (2, 17)) /\
     (exists e, seekFrameImpl m 10 = inl e)) /\
  (forall (created : list Traj.Trajectory) (skip stride i : Z),
     1 <= stride ->
     Z.of_nat (length created) < 2 ^ 32 ->
     let m := construct created skip stride in
     total m < 2 ^ 32 ->
     0 <= i ->
     _nframes m = total m /\
     ((exists e, seekFrameImpl m i = inl e) <-> total m <= i) /\
     (i < total m ->
      exists m' k,
        seekFrameImpl m i = inr m' /\
        owns m k i /\
        (forall k', owns m k' i -> k' = k) /\
        cursor m' = (k, skip + (i - base m k) * stride) /\
        skip + (i - base m k) * stride < native m k)).
Proof.
  split.
  - intros t0 t1 t2 H0 H1 H2 m.
    destruct (construct_frame [t0; t1; t2] 2 3) as (Htr & Hsk & Hst).
    fold m in Htr, Hsk, Hst.
    assert (Hus : usables m = [3; 1; 6]).
    { unfold usables. rewrite Htr, Hsk, Hst. simpl. now rewrite H0, H1, H2. }
    assert (Hnt : ntraj m = 3) by (unfold ntraj; now rewrite Htr).
    assert (Hn : forall k, 0 <= k < 3 ->
              Some (nframes m k) = [3; 1; 6] !! Z.to_nat k).
    { intros k Hk. rewrite <- Hus. symmetry. apply usables_lookup. lia. }
    assert (Hn0 : nframes m 0 = 3) by (specialize (Hn 0 ltac:(lia)); simpl in Hn; congruence).
    assert (Hn1 : nframes m 1 = 1) by (specialize (Hn 1 ltac:(lia)); simpl in Hn; congruence).
    assert (Hn2 : nframes m 2 = 6) by (specialize (Hn 2 ltac:(lia)); simpl in Hn; congruence).
    assert (Htot : total m = 10) by (unfold total; now rewrite Hus).
    destruct (construct_spec [t0; t1; t2] 2 3) as (_ & _ & _ & Hnf);
      [simpl; lia | fold m; lia |]. fold m in Hnf.
    assert (Hb : forall k, base m k = sumZ (take (Z.to_nat k) [3; 1; 6]))
      by (intros k; unfold base; now rewrite Hus).
    assert (Hseek : forall i k, owns m k i ->
              exists m', seekFrameImpl m i = inr m'
                         /\ cursor m' = (k, 2 + (i - base m k) * 3)).
    { intros i k Ho.
      destruct (seekFrameImpl_owner m i k) as (m' & A & B); try assumption; try lia.
      rewrite Hsk, Hst in B. eauto. }
    repeat split; try assumption; try lia.
    + destruct (Hseek 0 0) as (m' & Hs' & Hc);
        [unfold owns; rewrite Hb, Hn0, Hnt; simpl; lia |].
      exists m'. split; [exact Hs' |]. rewrite Hc, Hb. reflexivity.
    + destruct (Hseek 3 1) as (m' & Hs' & Hc);
        [unfold owns; rewrite Hb, Hn1, Hnt; simpl; lia |].
      exists m'. split; [exact Hs' |]. rewrite Hc, Hb. reflexivity.
    + destruct (Hseek 4 2) as (m' & Hs' & Hc);
        [unfold owns; rewrite Hb, Hn2, Hnt; simpl; lia |].
      exists m'. split; [exact Hs' |]. rewrite Hc, Hb. reflexivity.
    + destruct (Hseek 9 2) as (m' & Hs' & Hc);
        [unfold owns; rewrite Hb, Hn2, Hnt; simpl; lia |].
      exists m'. split; [exact Hs' |]. rewrite Hc, Hb. reflexivity.
    + apply seekFrameImpl_error. lia.
  - intros created skip stride i Hs Hlen m Ht Hi.
    destruct (construct_spec created skip stride Hlen Ht) as (Htr & Hsk & Hst & Hnf).
    fold m in Htr, Hsk, Hst, Hnf.
    assert (Hnt : ntraj m < 2 ^ 32) by (unfold ntraj; now rewrite Htr).
    split; [exact Hnf |]. split; [rewrite <- Hnf; apply seekFrameImpl_error |].
    intros Hlt.
    destruct (seekFrameImpl_spec m i) as (m' & k & Hseek & Ho & Hc & _);
      try assumption; try lia.
    exists m', k. split; [exact Hseek |]. split; [exact Ho |]. split.
    + intros k' Ho'. apply (owns_unique m i k' k Ho' Ho).
    + pose proof (owned_offset_in_range m k i ltac:(lia) Ho) as Hr.
      rewrite Hsk, Hst in Hc, Hr. split; [exact Hc | exact Hr].
Qed.

Lemma multi_source_indexing_witness :
  let m := construct [Traj.sample 0 10; Traj.sample 1 5; Traj.sample 2 20] 2 3 in
  (exists m', seekFrameImpl m 9 = inr m' /\ cursor m' = (2, 17)) /\
  (exists m' k, seekFrameImpl m 5 = inr m' /\ owns m k 5 /\
                cursor m' = (k, 2 + (5 - base m k) * 3)).
Proof.
  cbv zeta. split.
  - destruct (proj1 multi_source_indexing
                (Traj.sample 0 10) (Traj.sample 1 5) (Traj.sample 2 20)
                eq_refl eq_refl eq_refl) as (_ & _ & _ & _ & _ & _ & _ & H & _).
    exact H.
  - destruct (proj2 multi_source_indexing
                [Traj.sample 0 10; Traj.sample 1 5; Traj.sample 2 20] 2 3 5)
      as (_ & _ & H); [lia | simpl; lia | vm_compute; reflexivity | lia |].
    destruct H as (m' & k & H1 & H2 & _ & H3 & _); [vm_compute; reflexivity |].
    exists m', k. auto.
Defined.

End ComposerFacts.

(** ** The trajectory writer *)

Section WriterFacts.
Import IOStream DCDWriter.

(** ** Words on the wire *)

Lemma Z_of_byte_of_Z z : Z_of_byte (byte_of_Z z) = z mod 256.
Proof.
  unfold Z_of_byte, byte_of_Z.
  pose proof (Z.mod_pos_bound z 256 ltac:(lia)) as Hb.
  destruct (Byte.of_N (Z.to_N (z mod 256))) as [b |] eqn:E.
  - apply Byte.to_of_N in E. rewrite E. lia.
  - apply Byte.of_N_None_iff in E. lia.
Qed.

Lemma length_be_bytes v : length (be_bytes v) = 4%nat.
Proof. reflexivity. Qed.

Lemma be_decode_be_bytes v : 0 <= v < 2 ^ 32 -> be_decode (be_bytes v) = v.
Proof.
  intros H. unfold be_decode, be_bytes. simpl fold_left.
  rewrite !Z_of_byte_of_Z.
  change (2 ^ 24) with 16777216. change (2 ^ 16) with 65536. change (2 ^ 8) with 256.
  change (2 ^ 32) with 4294967296 in H.
  pose proof (Z.div_mod v 16777216 ltac:(lia)).
  pose proof (Z.mod_pos_bound v 16777216 ltac:(lia)).
  pose proof (Z.div_mod v 65536 ltac:(lia)).
  pose proof (Z.mod_pos_bound v 65536 ltac:(lia)).
  pose proof (Z.div_mod v 256 ltac:(lia)).
  pose proof (Z.mod_pos_bound v 256 ltac:(lia)).
  pose proof (Z.div_mod (v / 16777216) 256 ltac:(lia)).
  pose proof (Z.mod_pos_bound (v / 16777216) 256 ltac:(lia)).
  pose proof (Z.div_mod (v / 65536) 256 ltac:(lia)).
  pose proof (Z.mod_pos_bound (v / 65536) 256 ltac:(lia)).
  pose proof (Z.div_mod (v / 256) 256 ltac:(lia)).
  pose proof (Z.mod_pos_bound (v / 256) 256 ltac:(lia)).
  assert (v / 16777216 < 256) by (apply Z.div_lt_upper_bound; lia).
  assert (0 <= v / 16777216) by (apply Z.div_pos; lia).
  assert (v / 65536 = (v / 16777216) * 256 + (v / 65536) mod 256).
  { pose proof (Z.div_div v 65536 256 ltac:(lia) ltac:(lia)) as Hd.
    replace (65536 * 256) with 16777216 in Hd by lia. lia. }
  assert (v / 256 = (v / 65536) * 256 + (v / 256) mod 256).
  { pose proof (Z.div_div v 256 256 ltac:(lia) ltac:(lia)) as Hd.
    replace (256 * 256) with 65536 in Hd by lia. lia. }
  lia.
Qed.

(** ** Appending to a stream *)

Lemma write_at_end s d :
  at_end s ->
  at_end (write s d) /\ buf (write s d) = buf s ++ d /\ gpos (write s d) = gpos s.
Proof.
  intros [Hg Hp]. destruct d as [| b d].
  - rewrite write_nil, app_nil_r. repeat split; assumption.
  - assert (Hb : buf (write s (b :: d)) = buf s ++ b :: d).
    { rewrite write_buf by (assumption || discriminate). unfold before.
      rewrite Hp, firstn_all, Nat.sub_diag. simpl replicate.
      rewrite drop_ge by lia. now rewrite !app_nil_r. }
    repeat split.
    + now rewrite write_failbit.
    + rewrite write_ppos, Hb, length_app by assumption. lia.
    + exact Hb.
    + apply write_gpos.
Qed.

(** ** The writer's stream operations *)

Lemma need_to_swab_new le s : XDR.need_to_swab (XDR.new le s) = le.
Proof. destruct le; reflexivity. Qed.

Lemma stream_new le s : XDR.stream (XDR.new le s) = s.
Proof. reflexivity. Qed.

Lemma put_word_eq le s v : put_word le s v = write s (be_bytes (wrap v)).
Proof.
  unfold put_word. rewrite write_eq by (destruct le; simpl; lia).
  cbn [XDR.stream XDR.set_stream]. rewrite stream_new. f_equal.
  unfold XDR.encoded, XDR.swabs. rewrite need_to_swab_new.
  destruct le; reflexivity.
Qed.


Lemma length_wire vs : length (wire vs) = (4 * length vs)%nat.
Proof. induction vs as [| v vs IH]; simpl; [reflexivity |]. rewrite IH. lia. Qed.

Lemma put_words_at_end le vs :
  forall s, at_end s ->
    at_end (put_words le s vs) /\ buf (put_words le s vs) = buf s ++ wire vs.
Proof.
  induction vs as [| v vs IH]; intros s Hs; simpl.
  - rewrite app_nil_r. split; [exact Hs | reflexivity].
  - rewrite put_word_eq.
    destruct (write_at_end s (be_bytes (wrap v)) Hs) as (He & Hb & _).
    destruct (IH _ He) as (He' & Hb').
    split; [exact He' |]. fold (put_words le (write s (be_bytes (wrap v))) vs).
    rewrite Hb', Hb. unfold be_bytes. simpl. now rewrite <- app_assoc.
Qed.

Lemma put_title_at_end le s t :
  at_end s ->
  at_end (put_title le s t) /\ exists bs, buf (put_title le s t) = buf s ++ bs.
Proof.
  intros Hs. unfold put_title, XDR.write_block.
  cbn [fst XDR.stream XDR.set_stream]. rewrite stream_new.
  destruct (write_at_end s (take (length (list_byte_of_string t)) (list_byte_of_string t)) Hs)
    as (He1 & Hb1 & _).
  destruct He1 as [Hg1 Hp1]. unfold fail. rewrite Hg1. cbn [negb].
  match goal with |- context [write (write s ?a) ?b] =>
    destruct (write_at_end (write s a) b (conj Hg1 Hp1)) as (He2 & Hb2 & _) end.
  split; [exact He2 |]. rewrite Hb2, Hb1, <- app_assoc. eauto.
Qed.

Lemma put_titles_at_end le ts :
  forall s, at_end s ->
    at_end (fold_left (put_title le) ts s) /\
    exists bs, buf (fold_left (put_title le) ts s) = buf s ++ bs.
Proof.
  induction ts as [| t ts IH]; intros s Hs; simpl.
  - split; [exact Hs |]. exists []. now rewrite app_nil_r.
  - destruct (put_title_at_end le s t Hs) as (He & bs & Hb).
    destruct (IH _ He) as (He' & bs' & Hb').
    split; [exact He' |]. exists (bs ++ bs'). now rewrite Hb', Hb, <- app_assoc.
Qed.

(** The header record starts with the atom count and the step count. *)
Lemma writeHeader_at_end le w :
  at_end (_ofs w) ->
  let w' := writeHeader le w in
  at_end (_ofs w') /\
  (exists bs, buf (_ofs w')
              = buf (_ofs w) ++ be_bytes (wrap (_natoms w)) ++ be_bytes (wrap (_nsteps w)) ++ bs) /\
  _natoms w' = _natoms w /\ _nsteps w' = _nsteps w /\ _current w' = _current w /\
  _has_box w' = _has_box w /\ _header_written w' = true.
Proof.
  intros Hs. cbn zeta. unfold writeHeader. cbn [_ofs _natoms _nsteps _current _has_box _header_written].
  destruct (put_words_at_end le
              [_natoms w; _nsteps w; _timestep w; uint_of_flag (_has_box w)] _ Hs)
    as (He & Hb).
  destruct (put_titles_at_end le (_titles w) _ He) as (He' & bs & Hb').
  split; [exact He' |]. split; [| repeat split].
  rewrite Hb', Hb. unfold wire. cbn [flat_map].
  eexists. rewrite <- !app_assoc. reflexivity.
Qed.

(** The in-place patch of the step count. *)
Lemma patchStepCount_spec le w :
  at_end (_ofs w) -> (8 <= length (buf (_ofs w)))%nat ->
  let w' := patchStepCount le w in
  at_end (_ofs w') /\
  tellp (_ofs w') = tellp (_ofs w) /\
  buf (_ofs w') = take 4 (buf (_ofs w)) ++ be_bytes (wrap (_nsteps w)) ++ drop 8 (buf (_ofs w)) /\
  _natoms w' = _natoms w /\ _nsteps w' = _nsteps w /\ _current w' = _current w /\
  _has_box w' = _has_box w /\ _header_written w' = _header_written w.
Proof.
  intros [Hg Hp] Hlen. cbn zeta. unfold patchStepCount, set_ofs, tellp.
  cbn [_ofs _natoms _nsteps _current _has_box _header_written].
  rewrite put_word_eq.
  set (s1 := IOStream.mk (buf (_ofs w)) (gpos (_ofs w)) step_count_offset false).
  assert (E1 : seekp (_ofs w) step_count_offset = s1) by (unfold seekp; now rewrite Hg).
  rewrite E1.
  set (d := be_bytes (wrap (_nsteps w))).
  assert (E2 : seekp (write s1 d) (ppos (_ofs w))
               = IOStream.mk (buf (write s1 d)) (gpos (write s1 d)) (ppos (_ofs w)) false)
    by (unfold seekp; now rewrite write_failbit).
  rewrite E2. cbn [ppos buf].
  assert (Hb : buf (write s1 d) = take 4 (buf (_ofs w)) ++ d ++ drop 8 (buf (_ofs w))).
  { rewrite write_buf by (reflexivity || discriminate). unfold before, s1, step_count_offset.
    cbn [ppos buf]. replace (4 - length (buf (_ofs w)))%nat with 0%nat by lia.
    simpl replicate. rewrite app_nil_r. reflexivity. }
  split; [| repeat split; assumption].
  split; [reflexivity |]. cbn [ppos buf]. rewrite Hb, Hp.
  rewrite !length_app, length_take, length_drop. unfold d. rewrite length_be_bytes. lia.
Qed.

Lemma patched_header_field bs v :
  (8 <= length bs)%nat -> 0 <= v < 2 ^ 32 ->
  be_decode (take 4 (drop 4 (take 4 bs ++ be_bytes (wrap v) ++ drop 8 bs))) = v.
Proof.
  intros Hl Hv. rewrite drop_app_length' by (rewrite length_take; lia).
  rewrite take_app_length' by reflexivity.
  unfold wrap. rewrite Z.mod_small by assumption. now apply be_decode_be_bytes.
Qed.

Lemma patched_elsewhere bs v (i : nat) :
  (8 <= length bs)%nat -> ~ (4 <= i < 8)%nat ->
  (take 4 bs ++ be_bytes (wrap v) ++ drop 8 bs) !! i = bs !! i.
Proof.
  intros Hl Hi. destruct (Nat.lt_ge_cases i 4) as [Hlt | Hge].
  - rewrite lookup_app_l by (rewrite length_take; lia). now apply lookup_take_lt.
  - rewrite lookup_app_r by (rewrite length_take; lia).
    rewrite length_take, Nat.min_l by lia.
    rewrite lookup_app_r by (rewrite length_be_bytes; lia).
    rewrite length_be_bytes, lookup_drop. f_equal. lia.
Qed.

(** ** The writer's invariant *)


Lemma header_field_prefix (bs extra : list byte) :
  (8 <= length bs)%nat ->
  take 4 (drop 4 (bs ++ extra)) = take 4 (drop 4 bs).
Proof.
  intros H. rewrite drop_app_le by lia. apply take_app_le. rewrite length_drop. lia.
Qed.

Lemma writeFrame_step le w g w' :
  writer_ok w -> _current w + 1 < 2 ^ 31 ->
  writeFrame le w g = inr w' ->
  writer_ok w' /\
  _header_written w' = true /\
  _current w' = _current w + 1 /\
  _nsteps w' = Z.max (_nsteps w) (_current w + 1) /\
  (length (buf (_ofs w)) <= length (buf (_ofs w')))%nat /\
  (forall i : nat, (i < length (buf (_ofs w)))%nat -> ~ (4 <= i < 8)%nat ->
                   buf (_ofs w') !! i = buf (_ofs w) !! i).
Proof.
  intros (He & Hc & Hn & Hh) Hr. unfold writeFrame.
  set (w1 := if _header_written w then w else writeHeader le _).
  assert (H1 : at_end (_ofs w1) /\ (8 <= length (buf (_ofs w1)))%nat /\
               header_step_count w1 = _nsteps w /\
               (exists bs, buf (_ofs w1) = buf (_ofs w) ++ bs) /\
               _nsteps w1 = _nsteps w /\ _current w1 = _current w /\
               _header_written w1 = true).
  { unfold w1. destruct (_header_written w) eqn:Ehw.
    - destruct Hh as [Hl Hf]. repeat split; try assumption; try apply He.
      exists []. now rewrite app_nil_r.
    - destruct (writeHeader_at_end le
                  (setHeader w (size g) (_nsteps w) (_timestep w) (isPeriodic g)) He)
        as (He1 & (bs & Hb) & _ & Hns & Hcu & _ & Hhw).
      cbn zeta in *. cbn [_ofs setHeader _natoms _nsteps _current] in *.
      rewrite Hh, app_nil_l in Hb.
      repeat split; try assumption; try apply He1.
      + rewrite Hb, !length_app, !length_be_bytes. lia.
      + unfold header_step_count, step_count_offset. rewrite Hb.
        rewrite drop_app_length' by reflexivity.
        rewrite take_app_length' by reflexivity.
        unfold wrap. rewrite Z.mod_small by lia. apply be_decode_be_bytes. lia.
      + exists (buf (_ofs (writeHeader le
                  (setHeader w (size g) (_nsteps w) (_timestep w) (isPeriodic g))))).
        now rewrite Hh. }
  clearbody w1. destruct H1 as (He1 & Hl1 & Hf1 & (bs1 & Hb1) & Hn1 & Hc1 & Hw1).
  destruct (negb (size g =? _natoms w1)); [discriminate |].
  destruct (negb (Bool.eqb (isPeriodic g) (_has_box w1))); [discriminate |].
  destruct (put_words_at_end le (frame_words g) _ He1) as (He2 & Hb2).
  cbn [_current _nsteps _natoms _timestep _has_box _ofs _titles _header_written].
  rewrite Hc1, Hn1.
  destruct (Z.gtb_spec (_current w + 1) (_nsteps w)) as [Hgt | Hle]; intros Hw';
    injection Hw' as <-.
  - (* the header is patched *)
    set (w2 := DCDWriter.mk _ _ _ _ _ _ _ _).
    destruct (patchStepCount_spec le w2) as (He3 & _ & Hb3 & _ & Hns3 & Hcu3 & _ & Hhw3).
    { exact He2. }
    { cbn [_ofs w2]. rewrite Hb2, length_app. lia. }
    cbn zeta in *. cbn [w2 _ofs _nsteps _current _header_written] in Hb3, Hns3, Hcu3, Hhw3.
    assert (Hl2 : (8 <= length (buf (put_words le (_ofs w1) (frame_words g))))%nat)
      by (rewrite Hb2, length_app; lia).
    assert (Hlen3 : length (buf (_ofs (patchStepCount le w2)))
                    = length (buf (put_words le (_ofs w1) (frame_words g)))).
    { rewrite Hb3, !length_app, length_take, length_drop, length_be_bytes. lia. }
    split; [| split; [| split; [| split; [| split]]]].
    + unfold writer_ok. rewrite Hhw3, Hw1, Hns3, Hcu3.
      split; [exact He3 |]. split; [lia |]. split; [lia |]. split; [lia |].
      unfold header_step_count, step_count_offset. rewrite Hb3.
      apply patched_header_field; [exact Hl2 | lia].
    + now rewrite Hhw3.
    + exact Hcu3.
    + rewrite Hns3. lia.
    + rewrite Hlen3, Hb2, Hb1, !length_app. lia.
    + intros i Hi Hni. rewrite Hb3, patched_elsewhere by assumption.
      rewrite Hb2, Hb1, <- app_assoc. apply lookup_app_l. exact Hi.
  - (* the step count covers the frame *)
    split; [| split; [| split; [| split; [| split]]]];
      cbn [_header_written _current _nsteps _ofs].
    + unfold writer_ok. cbn [_header_written _current _nsteps _ofs]. rewrite Hw1.
      split; [exact He2 |]. split; [lia |]. split; [lia |].
      split; [rewrite Hb2, length_app; lia |].
      unfold header_step_count, step_count_offset in *. cbn [_ofs].
      rewrite Hb2, header_field_prefix by exact Hl1. exact Hf1.
    + exact Hw1.
    + reflexivity.
    + lia.
    + rewrite Hb2, Hb1, !length_app. lia.
    + intros i Hi _. rewrite Hb2, Hb1, <- app_assoc. apply lookup_app_l. exact Hi.
Qed.

Lemma writeFrames_run le grps :
  forall w w',
    writer_ok w -> _current w + Z.of_nat (length grps) < 2 ^ 31 ->
    writeFrames le w grps = inr w' ->
    writer_ok w' /\
    _current w' = _current w + Z.of_nat (length grps) /\
    _nsteps w' = Z.max (_nsteps w) (_current w') /\
    (length (buf (_ofs w)) <= length (buf (_ofs w')))%nat /\
    (forall i : nat, (i < length (buf (_ofs w)))%nat -> ~ (4 <= i < 8)%nat ->
                     buf (_ofs w') !! i = buf (_ofs w) !! i).
Proof.
  induction grps as [| g grps IH]; intros w w' Hok Hr Hrun.
  - simpl in Hrun. injection Hrun as <-. simpl.
    split; [exact Hok |]. destruct Hok as (_ & ? & _).
    split; [lia |]. split; [lia |]. split; [lia | reflexivity].
  - simpl in Hrun. destruct (writeFrame le w g) as [e | w1] eqn:E; [discriminate |].
    simpl length in Hr.
    destruct (writeFrame_step le w g w1 Hok ltac:(lia) E)
      as (Hok1 & _ & Hc1 & Hn1 & Hl1 & Hk1).
    destruct (IH w1 w' Hok1 ltac:(lia) Hrun) as (Hok' & Hc' & Hn' & Hl' & Hk').
    split; [exact Hok' |]. split; [simpl length; lia |]. split; [lia |].
    split; [lia |].
    intros i Hi Hni. rewrite Hk' by (assumption || lia). now apply Hk1.
Qed.


Lemma fresh_ok w : fresh w -> writer_ok w.
Proof.
  intros (Hs & Hc & Hh & Hn). unfold writer_ok, at_end. rewrite Hs, Hc, Hh.
  repeat split; try reflexivity; lia.
Qed.

Lemma started_ok le w0 : started le w0 -> writer_ok w0.
Proof.
  intros [Hf | (w & Hf & ->)]; [now apply fresh_ok |].
  pose proof (fresh_ok w Hf) as (He & Hc & Hn & _).
  destruct Hf as (Hs & _ & _ & _).
  destruct (writeHeader_at_end le w He) as (He1 & (bs & Hb) & _ & Hns & Hcu & _ & Hhw).
  cbn zeta in *. rewrite Hs in Hb. cbn [buf IOStream.empty] in Hb. rewrite app_nil_l in Hb.
  unfold writer_ok. rewrite Hhw, Hns, Hcu.
  split; [exact He1 |]. split; [exact Hc |]. split; [exact Hn |]. split.
  - rewrite Hb, !length_app, !length_be_bytes. lia.
  - unfold header_step_count, step_count_offset. rewrite Hb.
    rewrite drop_app_length' by reflexivity.
    rewrite take_app_length' by reflexivity.
    unfold wrap. rewrite Z.mod_small by lia. apply be_decode_be_bytes. lia.
Qed.

Lemma patchStepCount_tellp le w :
  tellp (_ofs (patchStepCount le w)) = tellp (_ofs w).
Proof.
  unfold patchStepCount, set_ofs, tellp. cbn [_ofs]. rewrite put_word_eq.
  unfold seekp. destruct (failbit (_ofs w)) eqn:E.
  - rewrite write_failed by assumption. now rewrite E.
  - rewrite write_failbit. reflexivity.
Qed.

(** Claim C3 (self-extension).  A writer is started on a new file, in
    implicit mode or with its header emitted; frames [grps] are written,
    then a frame [g].  After that call the frame counter is the number of
    frames written; if it exceeds the step count the writer started
    with, the step count stored in the header equals it; the stream is
    healthy with its write position at the end of the file, the header
    patch leaving the write position where it was; and every byte
    written before the call, apart from the step-count field (bytes 4 to
    7), is unchanged. *)
Theorem self_extension_patches_step_count :
  forall (le : bool) (w0 w w' : DCDWriter) (grps : list AtomicGroup) (g : AtomicGroup),
    started le w0 ->
    Z.of_nat (length grps) + 1 < 2 ^ 31 ->
    writeFrames le w0 grps = inr w ->
    writeFrame le w g = inr w' ->
    framesWritten w' = Z.of_nat (length grps) + 1 /\
    (_nsteps w0 < framesWritten w' -> header_step_count w' = framesWritten w') /\
    fail (_ofs w') = false /\
    tellp (_ofs w') = length (buf (_ofs w')) /\
    (forall wp, tellp (_ofs (patchStepCount le wp)) = tellp (_ofs wp)) /\
    (forall i : nat, (i < length (buf (_ofs w)))%nat -> ~ (4 <= i < 8)%nat ->
                     buf (_ofs w') !! i = buf (_ofs w) !! i).
Proof.
  intros le w0 w w' grps g Hst Hlen Hrun Hw.
  pose proof (started_ok le w0 Hst) as Hok0.
  assert (Hc0 : _current w0 = 0).
  { destruct Hst as [(_ & Hc & _) | (wf & (_ & Hc & _) & ->)]; [exact Hc |].
    exact Hc. }
  destruct (writeFrames_run le grps w0 w Hok0 ltac:(lia) Hrun)
    as (Hok & Hc & Hn & _ & _).
  destruct (writeFrame_step le w g w' Hok ltac:(lia) Hw)
    as (Hok' & Hhw' & Hc' & Hn' & _ & Hkeep).
  unfold framesWritten.
  split; [lia |]. split; [| split; [| split; [| split]]].
  - intros Hgt. destruct Hok' as (_ & _ & _ & Hh). rewrite Hhw' in Hh.
    destruct Hh as [_ Hf]. rewrite Hf. lia.
  - apply Hok'.
  - apply Hok'.
  - apply patchStepCount_tellp.
  - exact Hkeep.
Qed.

Lemma self_extension_patches_step_count_witness :
  let g := mkGroup [(1, 2, 3); (4, 5, 6)] None in
  exists w w',
    writeFrames true (new IOStream.empty) [g; g] = inr w /\
    writeFrame true w g = inr w' /\
    header_step_count w' = 3.
Proof.
  cbv zeta.
  destruct (writeFrames true (new IOStream.empty)
              [mkGroup [(1, 2, 3); (4, 5, 6)] None; mkGroup [(1, 2, 3); (4, 5, 6)] None])
    as [e | w] eqn:Erun; [vm_compute in Erun; discriminate |].
  destruct (writeFrame true w (mkGroup [(1, 2, 3); (4, 5, 6)] None))
    as [e | w'] eqn:Ew.
  { vm_compute in Erun. injection Erun as <-. vm_compute in Ew. discriminate. }
  exists w, w'. split; [reflexivity |]. split; [exact Ew |].
  destruct (self_extension_patches_step_count true (new IOStream.empty) w w'
              [mkGroup [(1, 2, 3); (4, 5, 6)] None; mkGroup [(1, 2, 3); (4, 5, 6)] None]
              (mkGroup [(1, 2, 3); (4, 5, 6)] None))
    as (Hfw & Hhdr & _); [| simpl; lia | exact Erun | exact Ew |].
  - left. unfold fresh. simpl. repeat split; lia.
  - rewrite Hhdr; [exact Hfw |]. rewrite Hfw. simpl. lia.
Defined.

End WriterFacts.

(** ** The codec: byte order, arrays and failed streams *)

Section CodecTransfers.
Import IOStream XDR.

(** ** Byte order *)

Lemma host_value_repr le v : 0 <= v < 2 ^ 32 -> host_value le (host_repr le v) = v.
Proof.
  intros H. unfold host_value, host_repr. destruct le.
  - rewrite rev_involutive. now apply be_decode_be_bytes.
  - now apply be_decode_be_bytes.
Qed.

Lemma encoded_host_word le s u0 v :
  length u0 = 4%nat ->
  encoded (XDR.new le s) u0 (host_repr le v) = be_bytes v.
Proof.
  intros Hu. unfold encoded, swabs. rewrite need_to_swab_new.
  assert (Hl : length (host_repr le v) = 4%nat) by (destruct le; reflexivity).
  rewrite Hl, drop_ge, app_nil_r by lia.
  destruct le; reflexivity.
Qed.

Lemma decoded_wire_word le s v :
  decoded (XDR.new le s) 4 (be_bytes v) = host_repr le v.
Proof.
  unfold decoded, swabs. rewrite need_to_swab_new. destruct le; reflexivity.
Qed.

(** Reading one scalar from a healthy stream whose next four bytes are [w]. *)
Lemma read_word x sizeofT data0 w rest :
  (sizeofT <= 4)%nat -> fail (stream x) = false -> length w = 4%nat ->
  drop (gpos (stream x)) (buf (stream x)) = w ++ rest ->
  XDR.read x sizeofT data0
  = inr (set_stream x (IOStream.mk (buf (stream x)) (gpos (stream x) + 4)
                                   (ppos (stream x)) false),
         decoded x sizeofT w, 1).
Proof.
  intros Hs Hg Hw Hd. rewrite read_eq by assumption. cbv zeta.
  rewrite read_enough; [| exact Hg | rewrite Hd, length_app; lia].
  cbn [fst snd fail failbit negb uint_of_bool].
  rewrite Hd, (take_app_length' w rest 4) by (now symmetry).
  rewrite Hw. unfold decoded. now rewrite (take_app_le w) by lia.
Qed.

(** Property X1 (the wire format does not depend on the host).  On a
    healthy stream, the codec of a host of either byte order writes a
    32-bit value [v], held in the host's own representation, as the four
    bytes of [v] in big-endian order, and reports success. *)
Theorem xdr_word_is_big_endian_on_the_wire :
  forall (le : bool) (s : iostream) (u0 : list byte) (v : Z),
    fail s = false -> length u0 = 4%nat -> 0 <= v < 2 ^ 32 ->
    exists x',
      XDR.write (XDR.new le s) u0 (host_repr le v) = inr (x', 1) /\
      fail (stream x') = false /\
      ppos (stream x') = (ppos s + 4)%nat /\
      take 4 (drop (ppos s) (buf (stream x'))) = be_bytes v /\
      be_decode (take 4 (drop (ppos s) (buf (stream x')))) = v.
Proof.
  intros le s u0 v Hg Hu Hv. unfold fail in Hg.
  assert (Hl : (length (host_repr le v) <= 4)%nat) by (destruct le; simpl; lia).
  rewrite write_eq by exact Hl. rewrite encoded_host_word by exact Hu.
  cbn [stream XDR.new]. unfold fail. rewrite write_failbit, Hg.
  eexists. split; [reflexivity |]. cbn [stream set_stream].
  rewrite write_failbit, write_ppos, write_drop by exact Hg.
  rewrite (take_app_length' (be_bytes v)) by reflexivity.
  repeat split; try assumption. now apply be_decode_be_bytes.
Qed.

Lemma xdr_word_is_big_endian_on_the_wire_witness :
  exists x',
    XDR.write (XDR.new true IOStream.empty) [x00; x00; x00; x00] (host_repr true 258)
    = inr (x', 1) /\
    take 4 (drop 0 (buf (stream x'))) = [x00; x00; x01; x02].
Proof.
  destruct (xdr_word_is_big_endian_on_the_wire true IOStream.empty
              [x00; x00; x00; x00] 258 eq_refl eq_refl ltac:(lia))
    as (x' & Hw & _ & _ & Hb & _).
  exists x'. split; [exact Hw | exact Hb].
Defined.

(** Property X2 (a word written on one host is read back on another).
    A 32-bit value written by the codec of a host of one byte order and
    read, from where the write began, by the codec of a host of the
    other or the same byte order comes back as the same value in the
    reader's own representation; both calls report success. *)
Theorem xdr_word_round_trip_across_hosts :
  forall (le_w le_r : bool) (s : iostream) (u0 data0 : list byte) (v : Z),
    fail s = false -> length u0 = 4%nat -> 0 <= v < 2 ^ 32 ->
    exists x1 x2,
      XDR.write (XDR.new le_w s) u0 (host_repr le_w v) = inr (x1, 1) /\
      XDR.read (XDR.new le_r (seekg (stream x1) (ppos s))) 4 data0
      = inr (x2, host_repr le_r v, 1) /\
      host_value le_r (host_repr le_r v) = v /\
      gpos (stream x2) = ppos (stream x1).
Proof.
  intros le_w le_r s u0 data0 v Hg Hu Hv. unfold fail in Hg.
  assert (Hl : (length (host_repr le_w v) <= 4)%nat) by (destruct le_w; simpl; lia).
  rewrite write_eq by exact Hl. rewrite encoded_host_word by exact Hu.
  cbn [stream XDR.new]. unfold fail. rewrite write_failbit, Hg.
  eexists. eexists. split; [reflexivity |]. cbn [stream set_stream].
  set (s1 := IOStream.write s (be_bytes v)).
  assert (F1 : failbit s1 = false) by (unfold s1; now rewrite write_failbit).
  assert (D1 : drop (ppos s) (buf s1) = be_bytes v ++ drop (ppos s + 4) (buf s))
    by (unfold s1; now rewrite write_drop).
  unfold seekg. rewrite F1.
  rewrite (read_word _ 4 data0 (be_bytes v) (drop (ppos s + 4) (buf s)));
    [| lia | reflexivity | reflexivity | exact D1].
  rewrite decoded_wire_word. split; [reflexivity |].
  split; [now apply host_value_repr |].
  cbn [stream set_stream XDR.new gpos ppos]. unfold s1.
  rewrite write_ppos by exact Hg. reflexivity.
Qed.

Lemma xdr_word_round_trip_across_hosts_witness :
  exists x1 x2,
    XDR.write (XDR.new true IOStream.empty) [x00; x00; x00; x00] (host_repr true 258)
    = inr (x1, 1) /\
    XDR.read (XDR.new false (seekg (stream x1) 0)) 4 [x00; x00; x00; x00]
    = inr (x2, [x00; x00; x01; x02], 1).
Proof.
  destruct (xdr_word_round_trip_across_hosts true false IOStream.empty
              [x00; x00; x00; x00] [x00; x00; x00; x00] 258 eq_refl eq_refl ltac:(lia))
    as (x1 & x2 & Hw & Hr & _).
  exists x1, x2. split; [exact Hw | exact Hr].
Defined.

(** ** Array transfers *)

Lemma write_app s d1 d2 :
  failbit s = false ->
  IOStream.write (IOStream.write s d1) d2 = IOStream.write s (d1 ++ d2).
Proof.
  intros Hg. destruct d1 as [| b d1]; [now rewrite write_nil |].
  destruct d2 as [| c d2]; [now rewrite write_nil, app_nil_r |].
  set (s1 := IOStream.write s (b :: d1)).
  assert (F1 : failbit s1 = false) by (unfold s1; now rewrite write_failbit).
  assert (P1 : ppos s1 = (ppos s + length (b :: d1))%nat) by (now apply write_ppos).
  assert (B1 : buf s1 = before s ++ (b :: d1) ++ drop (ppos s + length (b :: d1)) (buf s))
    by (apply write_buf; [assumption | discriminate]).
  assert (G1 : gpos s1 = gpos s) by apply write_gpos.
  unfold IOStream.write at 1. rewrite F1.
  unfold IOStream.write at 1. rewrite Hg. cbn [app].
  f_equal.
  - rewrite P1, B1.
    rewrite (app_assoc (before s)).
    rewrite take_app_length' by (rewrite length_app, length_before; reflexivity).
    assert (LB : length (before s ++ b :: d1) = (ppos s + length (b :: d1))%nat)
      by (rewrite length_app, length_before; reflexivity).
    rewrite (length_app (before s ++ b :: d1)), LB.
    rewrite (proj2 (Nat.sub_0_le _ _)) by lia.
    cbn [replicate]. rewrite app_nil_l.
    rewrite <- LB at 1.
    rewrite drop_app_add' by reflexivity. rewrite drop_drop.
    unfold before. rewrite <- !app_assoc. cbn [app].
    replace (ppos s + length (b :: d1) + length (c :: d2))%nat
      with (ppos s + length (b :: d1 ++ c :: d2))%nat; [reflexivity |].
    cbn [length]. rewrite length_app. cbn [length]. lia.
  - exact G1.
  - rewrite P1. cbn [length]. rewrite length_app. cbn [length]. lia.
Qed.

Lemma write_array_spec x u0 ary :
  forall i,
    fail (stream x) = false -> length u0 = 4%nat ->
    Forall (fun e => (length e <= 4)%nat) ary ->
    0 <= i -> i + Z.of_nat (length ary) < 2 ^ 32 ->
    write_array x u0 ary i
    = inr (set_stream x (IOStream.write (stream x) (flat_map (encoded x u0) ary)),
           i + Z.of_nat (length ary)).
Proof.
  revert x. induction ary as [| e ary IH]; intros x i Hg Hu Hall Hi Hn.
  - cbn [write_array flat_map length]. rewrite write_nil, set_stream_same.
    f_equal. apply pair_equal_spec. split; [reflexivity | simpl; lia].
  - inversion Hall as [| ? ? He Hall']; subst. unfold fail in Hg.
    cbn [write_array]. rewrite write_eq by exact He.
    unfold fail. rewrite write_failbit, Hg. cbn [negb uint_of_bool].
    change (1 =? 0) with false. cbv iota.
    cbn [length] in Hn.
    rewrite wrap_small by lia.
    assert (Hg1 : fail (stream (set_stream x (IOStream.write (stream x) (encoded x u0 e))))
                  = false)
      by (cbn [stream set_stream]; unfold fail; now rewrite write_failbit).
    rewrite (IH _ (i + 1) Hg1 Hu Hall' ltac:(lia) ltac:(lia)).
    cbn [stream set_stream flat_map length].
    rewrite write_app by exact Hg.
    f_equal. apply pair_equal_spec. split; [reflexivity | lia].
Qed.

Lemma length_flat_map_encoded x u0 ary :
  length u0 = 4%nat -> Forall (fun e => (length e <= 4)%nat) ary ->
  length (flat_map (encoded x u0) ary) = (4 * length ary)%nat.
Proof.
  intros Hu Hall. induction Hall as [| e ary He _ IH]; [reflexivity |].
  cbn [flat_map length]. rewrite length_app, IH, length_encoded by assumption. lia.
Qed.

(** Property X3 (what an array write emits).  On a healthy stream an
    array write of [n] scalars that fit the word stores the [n] words
    one after the other from the put position, advances it by [4 n]
    bytes, leaves the stream healthy and returns [n]. *)
Theorem write_array_emits_every_element :
  forall (x : XDR) (u0 : list byte) (ary : list (list byte)),
    fail (stream x) = false -> length u0 = 4%nat ->
    Forall (fun e => (length e <= 4)%nat) ary ->
    Z.of_nat (length ary) < 2 ^ 32 ->
    exists x',
      write_array x u0 ary 0 = inr (x', Z.of_nat (length ary)) /\
      fail (stream x') = false /\
      need_to_swab x' = need_to_swab x /\
      gpos (stream x') = gpos (stream x) /\
      ppos (stream x') = (ppos (stream x) + 4 * length ary)%nat /\
      drop (ppos (stream x)) (buf (stream x'))
      = flat_map (encoded x u0) ary
          ++ drop (ppos (stream x) + 4 * length ary) (buf (stream x)).
Proof.
  intros x u0 ary Hg Hu Hall Hn.
  rewrite write_array_spec by (assumption || lia).
  eexists. split; [reflexivity |]. cbn [stream set_stream need_to_swab].
  unfold fail in *.
  rewrite write_failbit, write_gpos, write_ppos, write_drop by exact Hg.
  rewrite length_flat_map_encoded by assumption.
  repeat split; assumption.
Qed.

Lemma write_array_emits_every_element_witness :
  exists x',
    write_array (XDR.new true IOStream.empty) [x00; x00; x00; x00]
      [[x01; x00; x00; x00]; [x02; x00; x00; x00]] 0 = inr (x', 2) /\
    ppos (stream x') = 8%nat.
Proof.
  destruct (write_array_emits_every_element (XDR.new true IOStream.empty)
              [x00; x00; x00; x00] [[x01; x00; x00; x00]; [x02; x00; x00; x00]]
              eq_refl eq_refl)
    as (x' & Hw & _ & _ & _ & Hp & _).
  - repeat constructor.
  - simpl. lia.
  - exists x'. split; [exact Hw | exact Hp].
Defined.

(** Reading [n] scalars from a stream that holds the words [ws]. *)
Lemma read_array_words sizeofT data0 ws :
  forall x ary i rest,
    (sizeofT <= 4)%nat -> fail (stream x) = false ->
    length ary = length ws ->
    Forall (fun w => length w = 4%nat) ws ->
    drop (gpos (stream x)) (buf (stream x)) = concat ws ++ rest ->
    0 <= i -> i + Z.of_nat (length ws) < 2 ^ 32 ->
    read_array x sizeofT data0 ary i
    = inr (set_stream x (IOStream.mk (buf (stream x)) (gpos (stream x) + 4 * length ws)
                                     (ppos (stream x)) false),
           map (decoded x sizeofT) ws, i + Z.of_nat (length ws)).
Proof.
  induction ws as [| w ws IH]; intros x ary i rest Hs Hg Hlen Hall Hd Hi Hn.
  - destruct ary; [| discriminate]. cbn [read_array map length].
    assert (E : set_stream x (IOStream.mk (buf (stream x)) (gpos (stream x) + 4 * 0)
                                          (ppos (stream x)) false) = x).
    { destruct x as [s sw]. cbn [stream set_stream need_to_swab] in *.
      unfold fail in Hg. destruct s as [b g p f]. cbn in *. subst f.
      now rewrite Nat.add_0_r. }
    rewrite E. now rewrite Z.add_0_r.
  - destruct ary as [| e ary]; [discriminate |]. inversion Hall as [| ? ? Hw Hall']; subst.
    cbn [concat] in Hd. rewrite <- app_assoc in Hd.
    cbn [read_array].
    rewrite (read_word x sizeofT data0 w (concat ws ++ rest)) by assumption.
    change (1 =? 0) with false. cbv iota. cbn [length] in Hn, Hlen.
    rewrite wrap_small by lia.
    rewrite (IH _ ary (i + 1) rest); try assumption; try lia.
    + cbn [stream set_stream gpos buf ppos map length].
      replace (gpos (stream x) + 4 + 4 * length ws)%nat
        with (gpos (stream x) + 4 * S (length ws))%nat by lia.
      replace (i + 1 + Z.of_nat (length ws)) with (i + Z.of_nat (S (length ws))) by lia.
      reflexivity.
    + reflexivity.
    + cbn [stream set_stream gpos buf].
      rewrite <- drop_drop, Hd. now apply drop_app_length'.
Qed.

Lemma decoded_encoded x u0 e :
  length u0 = 4%nat -> (1 <= length e <= 4)%nat ->
  swabs x (length e) = false \/ length e = 4%nat ->
  decoded x (length e) (encoded x u0 e) = e.
Proof.
  intros Hu He Hcase. unfold decoded, encoded, swab, sizeof_uint.
  assert (L : length (e ++ drop (length e) u0) = 4%nat)
    by (rewrite length_app, length_drop; lia).
  destruct Hcase as [Hns | H4].
  - rewrite Hns. rewrite (take_ge _ 4) by lia. apply take_app_length.
  - rewrite H4 in *. rewrite drop_ge, app_nil_r by lia.
    destruct (swabs x 4).
    + rewrite (take_ge (rev e)) by (rewrite length_rev; lia).
      rewrite take_ge by (rewrite length_rev; lia). apply rev_involutive.
    + rewrite (take_ge e) by lia. apply take_ge. lia.
Qed.

(** Property X4 (array round trip).  An array of scalars that fill the
    word, or that the codec does not byte-swap, written on a healthy
    stream and read back from where the write began comes back
    unchanged: the read returns the element count, delivers the elements
    in order and leaves the get position at the put position. *)
Theorem array_round_trip :
  forall (x : XDR) (u0 data0 : list byte) (ary dst : list (list byte)) (sizeofT : nat),
    fail (stream x) = false -> length u0 = 4%nat ->
    (1 <= sizeofT <= 4)%nat ->
    swabs x sizeofT = false \/ sizeofT = 4%nat ->
    Forall (fun e => length e = sizeofT) ary ->
    length dst = length ary ->
    Z.of_nat (length ary) < 2 ^ 32 ->
    exists x1 x2,
      write_array x u0 ary 0 = inr (x1, Z.of_nat (length ary)) /\
      read_array (set_stream x1 (seekg (stream x1) (ppos (stream x)))) sizeofT data0 dst 0
      = inr (x2, ary, Z.of_nat (length ary)) /\
      fail (stream x2) = false /\
      gpos (stream x2) = ppos (stream x1).
Proof.
  intros x u0 data0 ary dst sizeofT Hg Hu Hs Hcase Hall Hdst Hn.
  assert (Hall4 : Forall (fun e => (length e <= 4)%nat) ary)
    by (eapply Forall_impl; [exact Hall | intros e He; simpl in He; lia]).
  destruct (write_array_emits_every_element x u0 ary Hg Hu Hall4 Hn)
    as (x1 & Hw & Hf1 & Hsw1 & Hg1 & Hp1 & Hb1).
  set (ws := map (encoded x u0) ary).
  assert (Hws : Forall (fun w => length w = 4%nat) ws).
  { unfold ws. apply Forall_map. eapply Forall_impl; [exact Hall4 |].
    intros e He. simpl. now apply length_encoded. }
  assert (Hlws : length ws = length ary) by (unfold ws; apply length_map).
  assert (Hcat : flat_map (encoded x u0) ary = concat ws)
    by (unfold ws; apply flat_map_concat_map).
  rewrite Hcat in Hb1.
  set (xr := set_stream x1 (seekg (stream x1) (ppos (stream x)))).
  assert (Hsk : stream xr
                = IOStream.mk (buf (stream x1)) (ppos (stream x)) (ppos (stream x1)) false).
  { unfold xr. cbn [stream set_stream]. unfold seekg. unfold fail in Hf1. now rewrite Hf1. }
  assert (Hdec : map (decoded xr sizeofT) ws = ary).
  { unfold ws. rewrite map_map.
    rewrite <- (map_id ary) at 2. apply map_ext_Forall.
    eapply Forall_impl; [exact Hall |]. intros e He. simpl in He. simpl.
    assert (Hd : decoded xr sizeofT (encoded x u0 e) = decoded x sizeofT (encoded x u0 e)).
    { unfold decoded, swabs, xr. cbn [need_to_swab set_stream]. now rewrite Hsw1. }
    rewrite Hd. subst sizeofT. now apply (decoded_encoded x u0 e). }
  pose proof (read_array_words sizeofT data0 ws xr dst 0
                (drop (ppos (stream x) + 4 * length ary) (buf (stream x)))) as Hr.
  rewrite Hsk in Hr. cbn [fail failbit gpos buf ppos] in Hr.
  specialize (Hr ltac:(lia) eq_refl ltac:(lia) Hws Hb1 ltac:(lia) ltac:(lia)).
  rewrite Hdec, Hlws in Hr. cbn [Z.add] in Hr.
  exists x1. eexists. split; [exact Hw |]. split; [exact Hr |].
  cbn [stream set_stream fail failbit gpos]. split; [reflexivity | lia].
Qed.

Lemma array_round_trip_witness :
  exists x1 x2,
    write_array (XDR.new true IOStream.empty) [x00; x00; x00; x00]
      [[x01; x02; x03; x04]; [x05; x06; x07; x08]] 0 = inr (x1, 2) /\
    read_array (set_stream x1 (seekg (stream x1) 0)) 4 [x00; x00; x00; x00]
      [[x00; x00; x00; x00]; [x00; x00; x00; x00]] 0
    = inr (x2, [[x01; x02; x03; x04]; [x05; x06; x07; x08]], 2).
Proof.
  destruct (array_round_trip (XDR.new true IOStream.empty) [x00; x00; x00; x00]
              [x00; x00; x00; x00] [[x01; x02; x03; x04]; [x05; x06; x07; x08]]
              [[x00; x00; x00; x00]; [x00; x00; x00; x00]] 4
              eq_refl eq_refl ltac:(lia) ltac:(right; reflexivity))
    as (x1 & x2 & Hw & Hr & _).
  - repeat constructor.
  - reflexivity.
  - simpl. lia.
  - exists x1, x2. split; [exact Hw | exact Hr].
Defined.

Lemma read_array_short sizeofT data0 ws :
  forall x ary1 e ary2 i tail,
    (sizeofT <= 4)%nat -> fail (stream x) = false ->
    length ary1 = length ws ->
    Forall (fun w => length w = 4%nat) ws ->
    (length tail < 4)%nat ->
    drop (gpos (stream x)) (buf (stream x)) = concat ws ++ tail ->
    0 <= i -> i + Z.of_nat (length ws) < 2 ^ 32 ->
    read_array x sizeofT data0 (ary1 ++ e :: ary2) i
    = inr (set_stream x (IOStream.mk (buf (stream x))
                           (gpos (stream x) + 4 * length ws + length tail)
                           (ppos (stream x)) true),
           map (decoded x sizeofT) ws
             ++ decoded x sizeofT (tail ++ drop (length tail) data0) :: ary2,
           i + Z.of_nat (length ws)).
Proof.
  induction ws as [| w ws IH]; intros x ary1 e ary2 i tail Hs Hg Hlen Hall Ht Hd Hi Hn.
  - destruct ary1; [| discriminate]. cbn [concat app] in Hd.
    cbn [read_array app map length]. rewrite read_eq by exact Hs. cbv zeta.
    rewrite read_short; [| exact Hg | rewrite Hd; lia].
    cbn [fst snd fail failbit negb uint_of_bool]. change (0 =? 0) with true. cbv iota.
    rewrite Hd. rewrite Nat.add_0_r, Z.add_0_r. reflexivity.
  - destruct ary1 as [| e1 ary1]; [discriminate |].
    inversion Hall as [| ? ? Hw Hall']; subst.
    cbn [concat] in Hd. rewrite <- app_assoc in Hd.
    cbn [read_array app].
    rewrite (read_word x sizeofT data0 w (concat ws ++ tail)) by assumption.
    change (1 =? 0) with false. cbv iota. cbn [length] in Hn, Hlen.
    rewrite wrap_small by lia.
    rewrite (IH _ ary1 e ary2 (i + 1) tail); try assumption; try lia.
    + cbn [stream set_stream gpos buf ppos map length app].
      replace (gpos (stream x) + 4 + 4 * length ws + length tail)%nat
        with (gpos (stream x) + 4 * S (length ws) + length tail)%nat by lia.
      replace (i + 1 + Z.of_nat (length ws)) with (i + Z.of_nat (S (length ws))) by lia.
      reflexivity.
    + reflexivity.
    + cbn [stream set_stream gpos buf].
      rewrite <- drop_drop, Hd. now apply drop_app_length'.
Qed.

(** Property X5 (an array read reports how far it got).  When a healthy
    stream holds [k] whole words and fewer than four bytes more, an
    array read of more than [k] scalars returns [k] and leaves the
    stream failed with every remaining byte consumed.  The first [k]
    elements are the decoded words, the elements after element [k] are
    untouched, and element [k] itself is overwritten with what the
    failed read left in its local word. *)
Theorem read_array_reports_partial_count :
  forall (x : XDR) (sizeofT : nat) (data0 : list byte)
         (ws ary1 : list (list byte)) (e : list byte) (ary2 : list (list byte))
         (tail : list byte),
    (sizeofT <= 4)%nat -> fail (stream x) = false ->
    length ary1 = length ws ->
    Forall (fun w => length w = 4%nat) ws ->
    (length tail < 4)%nat ->
    drop (gpos (stream x)) (buf (stream x)) = concat ws ++ tail ->
    Z.of_nat (length ws) < 2 ^ 32 ->
    exists x' ary',
      read_array x sizeofT data0 (ary1 ++ e :: ary2) 0
      = inr (x', ary', Z.of_nat (length ws)) /\
      fail (stream x') = true /\
      gpos (stream x') = (gpos (stream x) + 4 * length ws + length tail)%nat /\
      take (length ws) ary' = map (decoded x sizeofT) ws /\
      drop (S (length ws)) ary' = ary2 /\
      ary' !! length ws = Some (decoded x sizeofT (tail ++ drop (length tail) data0)).
Proof.
  intros x sizeofT data0 ws ary1 e ary2 tail Hs Hg Hlen Hall Ht Hd Hn.
  rewrite (read_array_short sizeofT data0 ws x ary1 e ary2 0 tail)
    by (assumption || lia).
  eexists. eexists. split; [reflexivity |].
  cbn [stream set_stream fail failbit gpos buf].
  assert (Hlm : length (map (decoded x sizeofT) ws) = length ws) by apply length_map.
  split; [reflexivity |]. split; [| split; [| split]].
  - reflexivity.
  - now apply take_app_length'.
  - replace (S (length ws)) with (length (map (decoded x sizeofT) ws) + 1)%nat by lia.
    now rewrite drop_app_add' by reflexivity.
  - rewrite <- Hlm. now rewrite list_lookup_middle.
Qed.

Lemma read_array_reports_partial_count_witness :
  exists x' ary',
    read_array (XDR.new false (IOStream.mk [x01; x02; x03; x04; x05; x06] 0 0 false))
      4 [x00; x00; x00; x00] [[x00]; [x00]; [x00]] 0
    = inr (x', ary', 1) /\
    fail (stream x') = true /\
    take 1 ary' = [[x01; x02; x03; x04]].
Proof.
  destruct (read_array_reports_partial_count
              (XDR.new false (IOStream.mk [x01; x02; x03; x04; x05; x06] 0 0 false))
              4 [x00; x00; x00; x00] [[x01; x02; x03; x04]] [[x00]] [x00] [[x00]]
              [x05; x06] ltac:(lia) eq_refl eq_refl)
    as (x' & ary' & Hr & Hf & _ & Ht & _).
  - repeat constructor.
  - simpl. lia.
  - reflexivity.
  - simpl. lia.
  - exists x', ary'. split; [exact Hr |]. split; [exact Hf | exact Ht].
Defined.

(** ** The size check in array transfers *)

Lemma write_array_no_error x u0 ary :
  forall i, Forall (fun e => (length e <= 4)%nat) ary ->
            forall err, write_array x u0 ary i <> inl err.
Proof.
  revert x. induction ary as [| e ary IH]; intros x i Hall err; [discriminate |].
  inversion Hall as [| ? ? He Hall']; subst.
  cbn [write_array]. rewrite write_eq by exact He. cbv beta iota.
  match goal with |- context [if ?c =? 0 then _ else _] => destruct (c =? 0) end;
    [discriminate | now apply IH].
Qed.

Lemma read_array_no_error sizeofT data0 ary :
  forall x i, (sizeofT <= 4)%nat ->
              forall err, read_array x sizeofT data0 ary i <> inl err.
Proof.
  induction ary as [| e ary IH]; intros x i Hs err; [discriminate |].
  cbn [read_array]. rewrite read_eq by exact Hs. cbv beta iota zeta.
  match goal with |- context [if ?c =? 0 then _ else _] => destruct (c =? 0) end;
    [discriminate |].
  match goal with |- context [read_array ?y _ _ _ ?j] =>
    specialize (IH y j Hs); destruct (read_array y sizeofT data0 ary j) as [e' | [[? ?] ?]] end;
    [| discriminate].
  exfalso. now apply (IH e').
Qed.

(** Property X6 (the size check of array transfers).  An array read or
    write raises the "too large" [logic_error] exactly when the element
    type is wider than the word and the array is not empty: with [n = 0]
    nothing is raised whatever the type, and with a type that fits
    nothing is raised whatever the stream does. *)
Theorem array_size_check :
  forall (x : XDR) (u0 data0 : list byte) (ary : list (list byte)) (sizeofT : nat),
    Forall (fun e => length e = sizeofT) ary ->
    ((exists err, write_array x u0 ary 0 = inl err) <-> ary <> [] /\ (4 < sizeofT)%nat) /\
    ((exists err, read_array x sizeofT data0 ary 0 = inl err)
     <-> ary <> [] /\ (4 < sizeofT)%nat).
Proof.
  intros x u0 data0 ary sizeofT Hall. split; split.
  - intros [err He]. destruct ary as [| e ary]; [discriminate |].
    split; [discriminate |].
    destruct (Nat.lt_ge_cases 4 sizeofT) as [Hlt | Hge]; [exact Hlt |].
    exfalso. apply (write_array_no_error x u0 (e :: ary) 0) with (err := err); [| exact He].
    eapply Forall_impl; [exact Hall |]. intros a Ha. simpl in Ha. lia.
  - intros [Hne Hlt]. destruct ary as [| e ary]; [congruence |].
    inversion Hall as [| ? ? He _]; subst.
    cbn [write_array]. unfold XDR.write, sizeof_uint.
    destruct (Nat.ltb_spec 4 (length e)); [eauto | lia].
  - intros [err He]. destruct ary as [| e ary]; [discriminate |].
    split; [discriminate |].
    destruct (Nat.lt_ge_cases 4 sizeofT) as [Hlt | Hge]; [exact Hlt |].
    exfalso. now apply (read_array_no_error sizeofT data0 (e :: ary) x 0 Hge err).
  - intros [Hne Hlt]. destruct ary as [| e ary]; [congruence |].
    cbn [read_array]. unfold XDR.read, sizeof_uint.
    destruct (Nat.ltb_spec 4 sizeofT); [eauto | lia].
Qed.

Lemma array_size_check_witness :
  (exists err, write_array (XDR.new true IOStream.empty) []
                 [[x01; x02; x03; x04; x05; x06; x07; x08]] 0 = inl err) /\
  ~ (exists err, write_array (XDR.new true IOStream.empty) [] [] 0 = inl err).
Proof.
  split.
  - apply (proj1 (array_size_check (XDR.new true IOStream.empty) [] []
                    [[x01; x02; x03; x04; x05; x06; x07; x08]] 8
                    ltac:(repeat constructor))).
    split; [discriminate | lia].
  - intros H.
    apply (proj1 (array_size_check (XDR.new true IOStream.empty) [] [] [] 8
                    ltac:(constructor))) in H.
    destruct H as [H _]. now apply H.
Defined.

(** ** Failure *)

(** Property X7 (a failed stream transfers nothing).  Once the stream
    has failed, every transfer whose type fits reports failure and
    leaves the codec and the stream as they are: scalar read and write
    return 0, block read of [n > 0] bytes and block write return 0, and
    array read and write of a non-empty array return 0.  The block read
    leaves the destination as it is; the scalar read still stores into
    its destination, what its local word held. *)
Theorem failed_stream_transfers_nothing :
  forall (x : XDR) (u0 data0 p dst e : list byte) (ary : list (list byte))
         (sizeofT n : nat),
    fail (stream x) = true ->
    (sizeofT <= 4)%nat -> (length p <= 4)%nat -> (length e <= 4)%nat ->
    (0 < n)%nat ->
    XDR.read x sizeofT data0 = inr (x, decoded x sizeofT data0, 0) /\
    XDR.write x u0 p = inr (x, 0) /\
    read_block x dst n = (x, dst, 0) /\
    write_block x p n = (x, 0) /\
    read_array x sizeofT data0 (e :: ary) 0
    = inr (x, decoded x sizeofT data0 :: ary, 0) /\
    write_array x u0 (e :: ary) 0 = inr (x, 0).
Proof.
  intros x u0 data0 p dst e ary sizeofT n Hf Hs Hp He Hn. unfold fail in Hf.
  assert (Hr : XDR.read x sizeofT data0 = inr (x, decoded x sizeofT data0, 0)).
  { rewrite read_eq by exact Hs. cbv zeta. rewrite read_failed by exact Hf.
    cbn [fst snd app length]. rewrite drop_0, set_stream_same.
    unfold fail. rewrite Hf. reflexivity. }
  assert (Hw : forall q, (length q <= 4)%nat -> XDR.write x u0 q = inr (x, 0)).
  { intros q Hq. rewrite write_eq by exact Hq. rewrite write_failed by exact Hf.
    rewrite set_stream_same. unfold fail. rewrite Hf. reflexivity. }
  split; [exact Hr |]. split; [now apply Hw |]. split; [| split; [| split]].
  - unfold read_block. destruct (Nat.eqb_spec n 0); [lia |].
    rewrite read_failed by exact Hf. unfold fail. rewrite Hf.
    cbn [app length]. now rewrite drop_0, set_stream_same.
  - unfold write_block. rewrite write_failed by exact Hf.
    unfold fail. rewrite Hf. cbn [negb]. rewrite Hf. now rewrite set_stream_same.
  - cbn [read_array]. rewrite Hr. reflexivity.
  - cbn [write_array]. rewrite (Hw e He). reflexivity.
Qed.

Lemma failed_stream_transfers_nothing_witness :
  let x := XDR.new true (IOStream.mk [x01; x02; x03; x04] 0 4 true) in
  read_block x [x09; x09] 2 = (x, [x09; x09], 0) /\
  write_block x [x07; x07] 2 = (x, 0).
Proof.
  cbv zeta.
  destruct (failed_stream_transfers_nothing
              (XDR.new true (IOStream.mk [x01; x02; x03; x04] 0 4 true))
              [x00; x00; x00; x00] [x00; x00; x00; x00] [x07; x07] [x09; x09] [x01] []
              2 2 eq_refl)
    as (_ & _ & Hrb & Hwb & _); try (simpl; lia).
  split; [exact Hrb | exact Hwb].
Defined.

(** Property X8 (a block read that runs out of payload).  When a
    healthy stream holds fewer than the [n] bytes asked for, the block
    read returns 0, stores the bytes there were at the front of the
    destination, consumes them and leaves the stream failed; no padding
    is read. *)
Theorem read_block_short_payload :
  forall (x : XDR) (dst : list byte) (n : nat),
    fail (stream x) = false ->
    let avail := drop (gpos (stream x)) (buf (stream x)) in
    (length avail < n)%nat ->
    exists x',
      read_block x dst n = (x', avail ++ drop (length avail) dst, 0) /\
      fail (stream x') = true /\
      gpos (stream x') = (gpos (stream x) + length avail)%nat /\
      buf (stream x') = buf (stream x) /\
      ppos (stream x') = ppos (stream x).
Proof.
  intros x dst n Hg avail Ha. unfold fail in Hg.
  unfold read_block. destruct (Nat.eqb_spec n 0); [lia |].
  rewrite read_short by assumption. fold avail.
  cbn [fail failbit]. eexists. split; [reflexivity |].
  cbn [stream set_stream failbit gpos buf ppos fail]. repeat split.
Qed.

Lemma read_block_short_payload_witness :
  exists x',
    read_block (XDR.new true (IOStream.mk [x01; x02; x03] 0 3 false)) [x09; x09; x09; x09; x09] 5
    = (x', [x01; x02; x03; x09; x09], 0) /\
    fail (stream x') = true.
Proof.
  destruct (read_block_short_payload
              (XDR.new true (IOStream.mk [x01; x02; x03] 0 3 false))
              [x09; x09; x09; x09; x09] 5 eq_refl)
    as (x' & Hr & Hf & _); [simpl; lia |].
  exists x'. split; [exact Hr | exact Hf].
Defined.

(** Property X9 (block round trip).  A block of [n > 0] bytes written
    on a healthy stream and read back from where the write began, into a
    destination of [n] bytes, comes back byte for byte; both calls
    return [n].  The write has put the block and then
    [(4 - n mod 4) mod 4] zero bytes, so that it ends a whole number of
    words after it began, and the read has consumed the padding too. *)
Theorem block_round_trip_with_padding :
  forall (x : XDR) (p dst : list byte),
    fail (stream x) = false ->
    (0 < length p)%nat -> length dst = length p ->
    exists x1 x2,
      write_block x p (length p) = (x1, Z.of_nat (length p)) /\
      read_block (set_stream x1 (seekg (stream x1) (ppos (stream x)))) dst (length p)
      = (x2, p, Z.of_nat (length p)) /\
      fail (stream x2) = false /\
      gpos (stream x2) = ppos (stream x1) /\
      drop (ppos (stream x)) (take (ppos (stream x1)) (buf (stream x1)))
      = p ++ replicate ((4 - length p mod 4) mod 4) x00 /\
      ((ppos (stream x1) - ppos (stream x)) mod 4 = 0)%nat.
Proof.
  intros x p dst Hg Hn Hdst.
  pose proof (block_roundtrip x p dst (length p) Hg eq_refl) as H. cbv zeta in H.
  destruct (write_block_good x p (length p) Hg) as (_ & Hf1 & _ & _ & Hp1 & Hb1).
  rewrite firstn_all in Hp1, Hb1.
  pose proof (read_block_payload
                (set_stream (fst (write_block x p (length p)))
                   (seekg (stream (fst (write_block x p (length p)))) (ppos (stream x))))
                dst (length p) Hn) as Hpay.
  destruct (write_block x p (length p)) as [x1 r1] eqn:Ew. cbn [fst snd] in *.
  assert (Hsk : stream (set_stream x1 (seekg (stream x1) (ppos (stream x))))
                = IOStream.mk (buf (stream x1)) (ppos (stream x)) (ppos (stream x1)) false).
  { cbn [stream set_stream]. unfold seekg. unfold fail in Hf1. now rewrite Hf1. }
  rewrite Hsk in Hpay. cbn [fail failbit gpos buf] in Hpay.
  specialize (Hpay eq_refl ltac:(rewrite Hb1, length_app; lia)).
  destruct (read_block (set_stream x1 (seekg (stream x1) (ppos (stream x)))) dst (length p))
    as [[x2 p'] r2] eqn:Er.
  destruct H as (Hr1 & Hp' & Hf2 & Hg2 & Hpp & Hpad & Hwords).
  destruct Hpay as (Hr2 & Hp'' & _).
  exists x1, x2. subst r1 r2.
  assert (Hback : p' = p).
  { rewrite Hp'', Hb1, take_app_length, <- Hdst, drop_all. apply app_nil_r. }
  clear Hp''. subst p'. repeat split; try assumption.
  rewrite Hpp, <- Nat.add_assoc, <- take_drop_commute, Hb1.
  rewrite <- rndup_spec.
  rewrite app_assoc. apply take_app_length'. rewrite length_app, length_replicate. lia.
Qed.

Lemma block_round_trip_with_padding_witness :
  exists x1 x2,
    write_block (XDR.new true IOStream.empty) [x01; x02; x03; x04; x05] 5 = (x1, 5) /\
    read_block (set_stream x1 (seekg (stream x1) 0)) [x00; x00; x00; x00; x00] 5
    = (x2, [x01; x02; x03; x04; x05], 5) /\
    ppos (stream x1) = 8%nat.
Proof.
  destruct (block_round_trip_with_padding (XDR.new true IOStream.empty)
              [x01; x02; x03; x04; x05] [x00; x00; x00; x00; x00]
              eq_refl ltac:(simpl; lia) eq_refl)
    as (x1 & x2 & Hw & Hr & _ & _ & _ & _).
  exists x1, x2. split; [exact Hw |]. split; [exact Hr |].
  vm_compute in Hw. injection Hw as <-. reflexivity.
Defined.

End CodecTransfers.

(** ** The composer: iteration, rewinding and seeking *)

Section ComposerIteration.
Import MultiTraj.

(** ** The end of sequential iteration *)

Lemma base_next_nonpos m k :
  0 <= k < ntraj m -> base m (k + 1) = total m ->
  forall l, k < l < ntraj m -> nframes m l = 0.
Proof.
  intros Hk Hb l Hl.
  pose proof (base_mono m (k + 1) l ltac:(lia)) as H1.
  pose proof (base_succ m l ltac:(lia)) as H2.
  pose proof (base_le_total m (l + 1) ltac:(lia)) as H3.
  pose proof (nframes_nonneg m l). lia.
Qed.

Lemma seekNextFrameImpl_last m i :
  1 <= _stride m ->
  0 <= _skip m -> native m (_curtraj m) + _stride m < 2 ^ 32 ->
  owns m (_curtraj m) i ->
  _curframe m = _skip m + (i - base m (_curtraj m)) * _stride m ->
  i + 1 = total m ->
  eof (seekNextFrameImpl m) = true.
Proof.
  intros Hs Hk0 Hfit Ho Hf Ht. pose proof Ho as [Hk Hi].
  pose proof (owned_offset_in_range m _ _ Hs Ho) as Hin. rewrite <- Hf in Hin.
  assert (Hcf0 : 0 <= _curframe m) by nia.
  pose proof (base_succ m (_curtraj m) Hk) as Hsucc.
  pose proof (base_le_total m (_curtraj m + 1) ltac:(lia)) as Hle1.
  assert (Hnext : base m (_curtraj m + 1) = total m) by lia.
  unfold seekNextFrameImpl. rewrite (eof_false m) by assumption.
  rewrite (wrap_small (_curframe m + _stride m)) by lia.
  cbn [_curtraj set_curframe _curframe].
  change (traj_at (set_curframe m (_curframe m + _stride m)) (_curtraj m))
    with (traj_at m (_curtraj m)).
  destruct (traj_at_Some m (_curtraj m) Hk) as [t Ht']. rewrite Ht'.
  assert (Hnat : native m (_curtraj m) = Traj.nframes t)
    by (unfold native; now rewrite Ht').
  rewrite <- Hnat.
  pose proof (usable_lt (_skip m) (_stride m) (native m (_curtraj m))
                (i + 1 - base m (_curtraj m)) Hs ltac:(lia)) as Hu.
  rewrite <- nframes_usable in Hu by assumption.
  replace (_skip m + (i + 1 - base m (_curtraj m)) * _stride m)
    with (_curframe m + _stride m) in Hu by lia.
  destruct (Z.geb_spec (_curframe m + _stride m) (native m (_curtraj m))) as [Hge | Hlt].
  - match goal with |- context [findNextUsableTraj ?x] => set (m1 := x) in * end.
    destruct (findNextUsableTraj_frame m1) as (Htr & _).
    destruct (findNextUsableTraj_spec m1) as (Hle & Hskip & Hend); [cbn; lia |].
    cbn zeta in *.
    assert (Hn1 : ntraj (findNextUsableTraj m1) = ntraj m)
      by (unfold ntraj; now rewrite Htr).
    change (ntraj m1) with (ntraj m) in *. change (_skip m1) with (_skip m) in *.
    change (_curtraj m1) with (_curtraj m + 1) in *.
    assert (Hnat1 : forall l, native m1 l = native m l) by reflexivity.
    set (K := _curtraj (findNextUsableTraj m1)) in *.
    destruct Hend as [[HKlt Husable] | [HKge _]].
    + rewrite Hnat1 in Husable.
      apply (proj2 (usable_pos _ (_stride m) _ Hs)) in Husable.
      rewrite <- nframes_usable in Husable by lia.
      pose proof (base_next_nonpos m (_curtraj m) Hk Hnext K ltac:(lia)). lia.
    + apply eof_true. fold K. lia.
  - apply Hu in Hlt. lia.
Qed.

Lemma advance_eof n : forall m, eof m = true -> eof (advance n m) = true.
Proof.
  induction n as [| n IH]; intros m He; [exact He |].
  cbn [advance]. apply IH. unfold seekNextFrameImpl. now rewrite He.
Qed.

Lemma advance_add a b : forall m, advance (a + b) m = advance b (advance a m).
Proof.
  induction a as [| a IH]; intros m; [reflexivity |].
  cbn [advance Nat.add]. apply IH.
Qed.

Lemma advance_total_eof m :
  1 <= _stride m -> cursor_fits_uint m = true ->
  eof (advance (Z.to_nat (total m)) (rewindImpl m)) = true.
Proof.
  intros Hs Hfit. destruct (cursor_fits_uint_spec m Hfit) as [Hk0 Hnat32].
  assert (H0 : 0 <= total m) by (rewrite <- (base_end m (ntraj m)) by lia;
                                 rewrite <- (base_0 m); apply base_mono;
                                 pose proof (ntraj_nonneg m); lia).
  destruct (Z.eq_dec (total m) 0) as [Hz | Hnz].
  - rewrite Hz. change (Z.to_nat 0) with 0%nat. cbn [advance].
    destruct (rewindImpl_spec m) as (Hsh & _ & _ & Hc0 & _ & Hend). cbn zeta in *.
    apply eof_true. rewrite (shape_ntraj m _ Hsh).
    destruct Hend as [[Hlt Hu] | ->]; [| lia].
    apply (proj2 (usable_pos _ (_stride m) _ Hs)) in Hu.
    rewrite <- nframes_usable in Hu by lia.
    pose proof (nframes_le_total m (_curtraj (rewindImpl m)) Hc0). lia.
  - replace (Z.to_nat (total m)) with (S (Z.to_nat (total m - 1))) by lia.
    rewrite advance_S.
    destruct (advance_rewind_location m (Z.to_nat (total m - 1)) Hs Hfit ltac:(lia))
      as (Hsh & _ & Ho & Hf). cbn zeta in *.
    set (a := advance (Z.to_nat (total m - 1)) (rewindImpl m)) in *.
    assert (Hsk : _skip a = _skip m) by (unfold shape in Hsh; congruence).
    assert (Hst : _stride a = _stride m) by (unfold shape in Hsh; congruence).
    apply (seekNextFrameImpl_last a (total m - 1)).
    + lia.
    + lia.
    + rewrite Hst, (shape_native m a) by assumption. apply Hnat32.
      destruct Ho as [Hr _]. exact Hr.
    + apply (shape_owns m a); [assumption |].
      now replace (total m - 1) with (Z.of_nat (Z.to_nat (total m - 1))) by lia.
    + rewrite Hsk, Hst, (shape_base m a) by assumption. rewrite Hf. f_equal. f_equal. lia.
    + rewrite (shape_total m a) by assumption. lia.
Qed.

(** Property X10 (sequential iteration ends after exactly [total]
    steps).  For a stream whose stride is at least 1 and whose cursor
    arithmetic stays within a [uint], after a rewind the stream is at
    end after [k] advances exactly when [k] is at least the total
    virtual frame count: the iteration visits [total] positions, no
    fewer and no more, and stays at end from then on. *)
Theorem iteration_ends_after_total :
  forall (m : MultiTrajectory) (k : nat),
    1 <= _stride m ->
    cursor_fits_uint m = true ->
    (eof (advance k (rewindImpl m)) = true <-> total m <= Z.of_nat k).
Proof.
  intros m k Hs Hfit. split.
  - intros He. destruct (Z.le_gt_cases (total m) (Z.of_nat k)) as [Hle | Hgt]; [exact Hle |].
    destruct (advance_rewind_location m k Hs Hfit ltac:(lia)) as (Hsh & _ & [Hk _] & _).
    cbn zeta in *. rewrite eof_false in He; [discriminate |].
    now rewrite (shape_ntraj m _ Hsh).
  - intros Hle.
    assert (H0 : 0 <= total m) by (rewrite <- (base_end m (ntraj m)) by lia;
                                   rewrite <- (base_0 m); apply base_mono;
                                   pose proof (ntraj_nonneg m); lia).
    replace k with (Z.to_nat (total m) + (k - Z.to_nat (total m)))%nat by lia.
    rewrite advance_add. apply advance_eof. now apply advance_total_eof.
Qed.

Lemma iteration_ends_after_total_witness :
  let m := construct [Traj.sample 0 10; Traj.sample 1 5; Traj.sample 2 20] 2 3 in
  eof (advance 10 (rewindImpl m)) = true /\ ~ eof (advance 9 (rewindImpl m)) = true.
Proof.
  cbv zeta. split.
  - apply (proj2 (iteration_ends_after_total
                    (construct [Traj.sample 0 10; Traj.sample 1 5; Traj.sample 2 20] 2 3)
                    10 ltac:(vm_compute; congruence) eq_refl)).
    vm_compute. congruence.
  - intros H.
    apply (proj1 (iteration_ends_after_total
                    (construct [Traj.sample 0 10; Traj.sample 1 5; Traj.sample 2 20] 2 3)
                    9 ltac:(vm_compute; congruence) eq_refl)) in H.
    vm_compute in H. congruence.
Defined.

(** ** Materialising the frame under the cursor *)

(** Property X11 (every position of the iteration can be materialised).
    For a stream whose stride is at least 1 and whose cursor arithmetic
    stays within a [uint], at each of the first [total] positions of the
    sequential iteration
    the cursor's native offset is a frame index of the current source,
    [parseFrame] reports success without moving the cursor, and
    [updateGroupCoordsImpl] then puts the coordinates of that frame into
    the group and leaves the group's box as it is. *)
Theorem every_visited_frame_is_readable :
  forall (m : MultiTrajectory) (k : nat) (g : AtomicGroup),
    1 <= _stride m -> cursor_fits_uint m = true ->
    Z.of_nat k < total m ->
    let a := advance k (rewindImpl m) in
    exists (t : Traj.Trajectory) (f : AtomicGroup) (a' : MultiTrajectory),
      traj_at a (_curtraj a) = Some t /\
      0 <= _curframe a < Traj.nframes t /\
      Traj.frames t !! Z.to_nat (_curframe a) = Some f /\
      parseFrame a = (a', true) /\
      cursor a' = cursor a /\ shape a' = shape a /\
      updateGroupCoordsImpl a' g = mkGroup (coords f) (periodicBox g).
Proof.
  intros m k g Hs Hfit Hk. cbn zeta.
  destruct (cursor_fits_uint_spec m Hfit) as [H0 _].
  destruct (advance_rewind_location m k Hs Hfit Hk) as (Hsh & _ & Ho & Hf). cbn zeta in *.
  set (a := advance k (rewindImpl m)) in *.
  pose proof (owned_offset_in_range m _ _ Hs Ho) as Hin. rewrite <- Hf in Hin.
  destruct Ho as [Hc [Hb _]].
  assert (Hpos : 0 <= _curframe a) by nia.
  assert (Hn : ntraj a = ntraj m) by now apply shape_ntraj.
  destruct (traj_at_Some a (_curtraj a) ltac:(lia)) as [t Ht].
  assert (Hnat : Traj.nframes t = native m (_curtraj a)).
  { rewrite <- (shape_native m a) by assumption. unfold native. now rewrite Ht. }
  destruct (lookup_lt_is_Some_2 (Traj.frames t) (Z.to_nat (_curframe a))) as [f Hfr].
  { unfold Traj.nframes in Hnat. lia. }
  assert (Hrd : Traj.readFrame t (_curframe a)
                = (Traj.mk (Traj.frames t) (_curframe a + 1) (Some f), true)).
  { unfold Traj.readFrame. rewrite Hfr.
    destruct (Z.leb_spec 0 (_curframe a)); [| lia].
    destruct (Z.ltb_spec (_curframe a) (Traj.nframes t)); [reflexivity | lia]. }
  assert (Hlen : (Z.to_nat (_curtraj a) < length (_trajectories a))%nat)
    by (unfold ntraj in Hn, Hc; lia).
  exists t, f. eexists. split; [exact Ht |]. split; [lia |]. split; [exact Hfr |].
  split.
  { unfold parseFrame. rewrite eof_false by lia. unfold readCurrent.
    rewrite Ht, Hrd. reflexivity. }
  split; [reflexivity |]. split.
  { unfold shape. cbn [_trajectories set_trajectories _skip _stride]. f_equal. f_equal.
    rewrite list_fmap_insert. cbn [Traj.nframes Traj.frames].
    apply list_insert_id. rewrite list_lookup_fmap. unfold traj_at in Ht.
    rewrite Ht. reflexivity. }
  unfold updateGroupCoordsImpl, eof, ntraj, traj_at.
  cbn [_trajectories set_trajectories _curtraj].
  rewrite length_insert.
  destruct (Z.leb_spec (Z.of_nat (length (_trajectories a))) (_curtraj a)) as [Hge | _];
    [unfold ntraj in Hn; lia |].
  cbn [negb]. rewrite list_lookup_insert_eq by exact Hlen. reflexivity.
Qed.

Lemma every_visited_frame_is_readable_witness :
  let m := construct [Traj.sample 0 10; Traj.sample 1 5; Traj.sample 2 20] 2 3 in
  exists t f a',
    traj_at (advance 4 (rewindImpl m)) 2 = Some t /\
    Traj.frames t !! 2%nat = Some f /\
    parseFrame (advance 4 (rewindImpl m)) = (a', true) /\
    updateGroupCoordsImpl a' (mkGroup [] None) = mkGroup (coords f) None.
Proof.
  cbv zeta.
  destruct (every_visited_frame_is_readable
              (construct [Traj.sample 0 10; Traj.sample 1 5; Traj.sample 2 20] 2 3)
              4 (mkGroup [] None))
    as (t & f & a' & Ht & _ & Hf & Hp & _ & _ & Hu);
    try (vm_compute; congruence).
  exists t, f, a'. split; [exact Ht |]. split; [exact Hf |]. split; [exact Hp | exact Hu].
Defined.

(** ** Rewinding again *)

Lemma rewindImpl_start m1 m2 :
  _trajectories m1 = _trajectories m2 -> _skip m1 = _skip m2 ->
  _stride m1 = _stride m2 -> _nframes m1 = _nframes m2 ->
  rewindImpl m1 = rewindImpl m2.
Proof.
  destruct m1, m2. cbn [_trajectories _skip _stride _nframes].
  intros -> -> -> ->. reflexivity.
Qed.

Lemma advance_frame n :
  forall m, _trajectories (advance n m) = _trajectories m /\ _skip (advance n m) = _skip m /\
            _stride (advance n m) = _stride m /\ _nframes (advance n m) = _nframes m.
Proof.
  induction n as [| n IH]; intros m; [tauto |].
  cbn [advance]. destruct (IH (seekNextFrameImpl m)) as (H1 & H2 & H3 & H4).
  destruct (seekNextFrameImpl_frame m) as (G1 & G2 & G3 & G4). cbn zeta in *.
  repeat split; congruence.
Qed.

Lemma rewind_rewind t : Traj.rewind (Traj.rewind t) = Traj.rewind t.
Proof. reflexivity. Qed.

Lemma readFrame_again t i :
  fst (Traj.readFrame (Traj.rewind (fst (Traj.readFrame (Traj.rewind t) i))) i)
  = fst (Traj.readFrame (Traj.rewind t) i).
Proof.
  unfold Traj.readFrame, Traj.nframes. cbn [Traj.rewind Traj.frames].
  destruct ((0 <=? i) && (i <? Z.of_nat (length (Traj.frames t)))) eqn:Hc.
  - destruct (Traj.frames t !! Z.to_nat i) as [f |] eqn:Hf.
    + cbn [fst Traj.frames Traj.rewind Traj.loaded]. rewrite Hc, Hf. reflexivity.
    + cbn [fst Traj.frames Traj.rewind Traj.loaded]. rewrite Hc, Hf. reflexivity.
  - cbn [fst Traj.frames Traj.rewind Traj.loaded]. rewrite Hc. reflexivity.
Qed.

Lemma rewindImpl_cursor_shape m1 m2 :
  shape m1 = shape m2 -> cursor (rewindImpl m1) = cursor (rewindImpl m2).
Proof.
  intros Hsh.
  destruct (rewindImpl_spec m1) as (_ & _ & Hf1 & H01 & Hs1 & He1).
  destruct (rewindImpl_spec m2) as (_ & _ & Hf2 & H02 & Hs2 & He2).
  cbn zeta in *.
  assert (Hsk : _skip m1 = _skip m2) by (unfold shape in Hsh; congruence).
  assert (Hn : ntraj m1 = ntraj m2) by now apply shape_ntraj.
  assert (Hnat : forall l, native m1 l = native m2 l) by (intros l; now apply shape_native).
  unfold cursor. rewrite Hf1, Hf2, Hsk. f_equal.
  set (c1 := _curtraj (rewindImpl m1)) in *. set (c2 := _curtraj (rewindImpl m2)) in *.
  destruct (Z.lt_trichotomy c1 c2) as [Hlt | [Heq | Hgt]]; [| exact Heq |].
  - specialize (Hs2 c1 ltac:(lia)). rewrite <- Hnat in Hs2.
    destruct He1 as [[? ?] | ?]; destruct He2 as [[? ?] | ?]; lia.
  - specialize (Hs1 c2 ltac:(lia)). rewrite Hnat in Hs1.
    destruct He1 as [[? ?] | ?]; destruct He2 as [[? ?] | ?]; lia.
Qed.

Lemma rewindImpl_unfold m :
  rewindImpl m
  = (let f := mkMulti (map Traj.rewind (_trajectories m)) (_skip m) (_stride m)
                      (_curtraj (rewindImpl m)) (_skip m) (_nframes m) in
     if negb (eof f) then fst (readCurrent f) else f).
Proof.
  cbv zeta.
  pose (m0 := set_curframe
                (set_curtraj (set_trajectories m (map Traj.rewind (_trajectories m))) 0)
                (_skip m)).
  pose (f0 := findNextUsableTraj m0).
  assert (Hu : rewindImpl m = if negb (eof f0) then fst (readCurrent f0) else f0)
    by reflexivity.
  destruct (findNextUsableTraj_frame m0) as (Ht & Hk & Hs & Hf & Hn). cbn zeta in *.
  fold f0 in Ht, Hk, Hs, Hf, Hn.
  assert (Hc : _curtraj (rewindImpl m) = _curtraj f0).
  { rewrite Hu. destruct (negb (eof f0)); [| reflexivity].
    now destruct (readCurrent_frame f0) as (_ & ? & _). }
  rewrite Hc.
  assert (E : f0 = mkMulti (map Traj.rewind (_trajectories m)) (_skip m) (_stride m)
                           (_curtraj f0) (_skip m) (_nframes m)).
  { clearbody f0. destruct f0. cbn in Ht, Hk, Hs, Hf, Hn |- *. subst. reflexivity. }
  rewrite <- E. exact Hu.
Qed.

Lemma rewindImpl_idempotent m : rewindImpl (rewindImpl m) = rewindImpl m.
Proof.
  pose proof (rewindImpl_cursor_shape (rewindImpl m) m) as Hcur.
  destruct (rewindImpl_spec m) as (Hsh & Hnf & _). cbn zeta in *.
  specialize (Hcur Hsh). unfold cursor in Hcur. injection Hcur as Hc _.
  assert (Hsk : _skip (rewindImpl m) = _skip m) by (unfold shape in Hsh; congruence).
  assert (Hst : _stride (rewindImpl m) = _stride m) by (unfold shape in Hsh; congruence).
  rewrite (rewindImpl_unfold (rewindImpl m)). rewrite Hc, Hsk, Hst, Hnf.
  pose proof (rewindImpl_unfold m) as E.
  remember (_curtraj (rewindImpl m)) as c eqn:Ec. clear Ec Hc.
  rewrite E. clear E Hsh Hnf Hsk Hst. cbv zeta.
  set (L := map Traj.rewind (_trajectories m)).
  assert (HL : map Traj.rewind L = L).
  { unfold L. rewrite map_map. apply map_ext. intros t. apply rewind_rewind. }
  unfold eof, ntraj, readCurrent, traj_at. cbn [_trajectories _curtraj _curframe].
  destruct (Z.leb_spec (Z.of_nat (length L)) c) as [Hge | Hlt]; cbn [negb].
  - cbn [_trajectories]. rewrite HL.
    destruct (Z.leb_spec (Z.of_nat (length L)) c); [reflexivity | lia].
  - destruct (L !! Z.to_nat c) as [t0 |] eqn:Ht0.
    + assert (Hr : exists t, t0 = Traj.rewind t).
      { unfold L in Ht0. rewrite list_lookup_fmap in Ht0.
        destruct (_trajectories m !! Z.to_nat c) as [t |]; [| discriminate].
        exists t. cbn in Ht0. congruence. }
      destruct Hr as [t ->].
      destruct (Traj.readFrame (Traj.rewind t) (_skip m)) as [t' ok] eqn:Hrd.
      cbn [fst _trajectories set_trajectories _skip _stride _curtraj _curframe _nframes].
      change (map Traj.rewind (<[Z.to_nat c:=t']> L))
        with (Traj.rewind <$> (<[Z.to_nat c:=t']> L)).
      rewrite list_fmap_insert. change (Traj.rewind <$> L) with (map Traj.rewind L).
      rewrite HL, length_insert.
      destruct (Z.leb_spec (Z.of_nat (length L)) c); [lia |]. cbn [negb].
      rewrite list_lookup_insert_eq by (apply lookup_lt_Some in Ht0; exact Ht0).
      pose proof (readFrame_again t (_skip m)) as Ha. rewrite Hrd in Ha. cbn [fst] in Ha.
      destruct (Traj.readFrame (Traj.rewind t') (_skip m)) as [t'' ok'].
      cbn [fst] in Ha |- *. subst t''.
      unfold set_trajectories.
      cbn [_trajectories _skip _stride _curtraj _curframe _nframes].
      now rewrite list_insert_insert_eq.
    + cbn [fst _trajectories]. rewrite HL.
      destruct (Z.leb_spec (Z.of_nat (length L)) c); [lia |]. cbn [negb].
      rewrite Ht0. reflexivity.
Qed.

(** Property X12 (rewinding restores the rewound state).  Whatever
    number of advances follows a rewind, rewinding again gives back
    exactly the state the first rewind left: the same cursor, every
    source at its start but the current one, which has the frame at
    [skip] loaded.  With no advance in between, rewinding twice is
    rewinding once. *)
Theorem rewind_restores_the_rewound_state :
  forall (m : MultiTrajectory) (k : nat),
    rewindImpl (advance k (rewindImpl m)) = rewindImpl m.
Proof.
  intros m k.
  destruct (advance_frame k (rewindImpl m)) as (Ht & Hs & Hst & Hn).
  rewrite (rewindImpl_start _ (rewindImpl m) Ht Hs Hst Hn).
  apply rewindImpl_idempotent.
Qed.

(** ** Seeking, then advancing *)

(** For an index below the total, the product and the sum that
    [frameIndexToLocation] forms from the members are [uint]s: on such
    an index nothing wraps. *)
Lemma frameIndexToLocation_fits m i :
  1 <= _stride m -> ntraj m < 2 ^ 32 -> total m < 2 ^ 32 ->
  cursor_fits_uint m = true ->
  0 <= i < total m ->
  exists k,
    frameIndexToLocation m i = (k, _skip m + (i - base m k) * _stride m) /\
    0 <= (i - base m k) * _stride m < 2 ^ 32 /\
    0 <= _skip m + (i - base m k) * _stride m < 2 ^ 32.
Proof.
  intros Hs Hn Ht Hfit Hi.
  destruct (cursor_fits_uint_spec m Hfit) as [Hk0 Hnat32].
  destruct (frameIndexToLocation_spec m i Hn Ht Hi) as (k & Hk & Ho).
  pose proof (owned_offset_in_range m k i Hs Ho) as Hin.
  destruct Ho as [Hr [Hb _]]. specialize (Hnat32 k Hr).
  exists k. split; [exact Hk |]. nia.
Qed.

(** Property X13 (advancing from a sought position).  For a stream
    whose stride is at least 1 and whose cursor arithmetic stays within
    a [uint], after a seek to virtual index [i] one advance puts the
    cursor where a seek to [i + 1] puts it, when there is such a frame;
    from the last frame it puts the stream at end. *)
Theorem seek_then_advance :
  forall (m m1 : MultiTrajectory) (i : Z),
    1 <= _stride m -> ntraj m < 2 ^ 32 -> total m < 2 ^ 32 -> _nframes m = total m ->
    cursor_fits_uint m = true ->
    0 <= i ->
    seekFrameImpl m i = inr m1 ->
    (i + 1 < total m ->
     exists m2, seekFrameImpl m (i + 1) = inr m2 /\
                cursor (seekNextFrameImpl m1) = cursor m2) /\
    (i + 1 = total m -> eof (seekNextFrameImpl m1) = true).
Proof.
  intros m m1 i Hs Hn Ht Hnf Hfit Hi Hseek.
  destruct (cursor_fits_uint_spec m Hfit) as [Hk0 Hnat32].
  assert (Hlt : i < total m).
  { destruct (Z.lt_ge_cases i (total m)) as [H | H]; [exact H |].
    destruct (proj2 (seekFrameImpl_error m i) ltac:(lia)) as [e He]. congruence. }
  destruct (seekFrameImpl_spec m i Hs Hn Ht Hnf ltac:(lia)) as (m' & k & Hm' & Ho & Hc & Hsh).
  assert (m' = m1) by congruence. subst m'.
  unfold cursor in Hc. injection Hc as Hck Hcf.
  assert (Hsk : _skip m1 = _skip m) by (unfold shape in Hsh; congruence).
  assert (Hst : _stride m1 = _stride m) by (unfold shape in Hsh; congruence).
  assert (Ho1 : owns m1 (_curtraj m1) i) by (rewrite Hck; now apply (shape_owns m m1)).
  assert (Hf1 : _curframe m1 = _skip m1 + (i - base m1 (_curtraj m1)) * _stride m1)
    by (rewrite Hsk, Hst, (shape_base m m1), Hck by assumption; exact Hcf).
  assert (Hfit1 : native m1 (_curtraj m1) + _stride m1 < 2 ^ 32).
  { rewrite Hst, (shape_native m m1), Hck by assumption. apply Hnat32.
    destruct Ho as [Hr _]. exact Hr. }
  split.
  - intros Hnext.
    destruct (seekNextFrameImpl_step m1 i) as (Ho' & Hf'); try assumption; try lia.
    { rewrite (shape_total m m1) by assumption. exact Hnext. }
    cbn zeta in *.
    apply (shape_owns m m1) in Ho'; [| assumption].
    rewrite Hsk, Hst, (shape_base m m1) in Hf' by assumption.
    destruct (seekFrameImpl_owner m (i + 1) _ Hs Hn Ht Hnf Ho') as (m2 & Hm2 & Hc2).
    exists m2. split; [exact Hm2 |]. rewrite Hc2. unfold cursor. now rewrite Hf'.
  - intros Hlast. apply (seekNextFrameImpl_last m1 i); try assumption; try lia.
    rewrite (shape_total m m1) by assumption. exact Hlast.
Qed.

Lemma seek_then_advance_witness :
  let m := construct [Traj.sample 0 10; Traj.sample 1 5; Traj.sample 2 20] 2 3 in
  exists m1,
    seekFrameImpl m 3 = inr m1 /\
    exists m2, seekFrameImpl m 4 = inr m2 /\ cursor (seekNextFrameImpl m1) = cursor m2.
Proof.
  cbv zeta. eexists. split; [reflexivity |].
  apply (proj1 (seek_then_advance
                  (construct [Traj.sample 0 10; Traj.sample 1 5; Traj.sample 2 20] 2 3)
                  _ 3 ltac:(vm_compute; congruence) ltac:(vm_compute; congruence)
                  ltac:(vm_compute; congruence) eq_refl eq_refl ltac:(lia) eq_refl)).
  vm_compute. reflexivity.
Defined.

(** ** initWithList *)

Lemma wrap_add_l a b : wrap (wrap a + b) = wrap (a + b).
Proof. unfold wrap. apply Zplus_mod_idemp_l. Qed.

Lemma wrap_range z : 0 <= wrap z < 2 ^ 32.
Proof. unfold wrap. apply Z.mod_pos_bound. lia. Qed.

Lemma initWithList_loop_count created :
  forall i m,
    0 <= i <= ntraj m -> i + Z.of_nat (length created) < 2 ^ 32 ->
    0 <= _nframes m < 2 ^ 32 ->
    let m' := initWithList_loop created i m in
    _trajectories m' = _trajectories m ++ created /\
    _skip m' = _skip m /\ _stride m' = _stride m /\
    cursor m' = cursor m /\
    _nframes m' = wrap (_nframes m + (base m' (i + Z.of_nat (length created)) - base m' i)).
Proof.
  induction created as [| traj rest IH]; intros i m Hi Hb Hr; cbn zeta.
  - cbn [initWithList_loop length]. rewrite app_nil_r, Z.add_0_r.
    repeat split. rewrite wrap_small by lia. lia.
  - cbn [initWithList_loop]. cbn [length] in Hb.
    rewrite (wrap_small (i + 1)) by lia.
    match goal with |- context [initWithList_loop rest (i + 1) ?x] => set (m1 := x) end.
    assert (Hn1 : ntraj m1 = ntraj m + 1).
    { unfold ntraj, m1. cbn [_trajectories set_nframes set_trajectories].
      rewrite length_app. cbn [length]. lia. }
    assert (Hr1 : 0 <= _nframes m1 < 2 ^ 32)
      by (unfold m1; cbn [_nframes set_nframes]; apply wrap_range).
    destruct (IH (i + 1) m1 ltac:(lia) ltac:(lia) Hr1) as (Ht & Hk & Hs & Hc & Hn).
    cbn zeta in *. set (m' := initWithList_loop rest (i + 1) m1) in *.
    assert (Ht' : _trajectories m' = _trajectories m ++ traj :: rest).
    { rewrite Ht. unfold m1. cbn [_trajectories set_nframes set_trajectories].
      now rewrite <- app_assoc. }
    split; [exact Ht' |]. split; [exact Hk |]. split; [exact Hs |]. split; [exact Hc |].
    assert (Hn' : ntraj m' = ntraj m + 1 + Z.of_nat (length rest)).
    { unfold ntraj. rewrite Ht', length_app. cbn [length]. unfold ntraj. lia. }
    rewrite Hn. unfold m1 at 1. cbn [_nframes set_nframes].
    rewrite (base_succ m' i) by lia.
    replace (i + Z.of_nat (length (traj :: rest)))
      with (i + 1 + Z.of_nat (length rest)) by (cbn [length]; lia).
    change (_nframes (set_trajectories m (_trajectories m ++ [traj]))) with (_nframes m).
    assert (Hsame : nframes (set_trajectories m (_trajectories m ++ [traj])) i = nframes m' i).
    { unfold nframes, traj_at. rewrite Hk, Hs. unfold m1.
      cbn [_skip _stride _trajectories set_nframes set_trajectories].
      rewrite Ht'.
      replace (_trajectories m ++ traj :: rest) with ((_trajectories m ++ [traj]) ++ rest)
        by now rewrite <- app_assoc.
      rewrite (lookup_app_l (_trajectories m ++ [traj]) rest); [reflexivity |].
      rewrite length_app. cbn [length]. unfold ntraj in Hi. lia. }
    rewrite Hsame, wrap_add_l. f_equal. lia.
Qed.

(** Property X14 ([initWithList] counts from index 0).  Opening [n]
    more sources appends them in order and adds to the stored total,
    modulo [2^32] as the member is a [uint], the usable counts of the
    sources at indices [0 .. n-1] of the whole list; skip, stride and
    cursor are left alone.  When the sum fits a [uint] it is the sum
    itself.  On a stream that had no source the counts added are the
    total of the new list; on a stream that had sources they are those
    of the first [n] sources, not of the ones appended. *)
Theorem initWithList_counts_from_index_zero :
  forall (created : list Traj.Trajectory) (m : MultiTrajectory),
    ntraj m + Z.of_nat (length created) < 2 ^ 32 ->
    0 <= _nframes m < 2 ^ 32 ->
    let m' := initWithList created m in
    _trajectories m' = _trajectories m ++ created /\
    _skip m' = _skip m /\ _stride m' = _stride m /\ cursor m' = cursor m /\
    _nframes m' = wrap (_nframes m + base m' (Z.of_nat (length created))) /\
    (_nframes m + base m' (Z.of_nat (length created)) < 2 ^ 32 ->
     _nframes m' = _nframes m + base m' (Z.of_nat (length created))) /\
    (_trajectories m = [] -> base m' (Z.of_nat (length created)) = total m').
Proof.
  intros created m Hb Hr. cbn zeta. unfold initWithList.
  pose proof (ntraj_nonneg m) as Hnn.
  destruct (initWithList_loop_count created 0 m ltac:(lia) ltac:(lia) Hr)
    as (Ht & Hk & Hs & Hc & Hn).
  cbn zeta in *. set (m' := initWithList_loop created 0 m) in *.
  rewrite base_0, Z.add_0_l, Z.sub_0_r in Hn.
  repeat (split; [assumption |]). split.
  - intros Hfit. rewrite Hn. apply wrap_small.
    pose proof (base_mono m' 0 (Z.of_nat (length created)) ltac:(lia)) as Hb0.
    rewrite base_0 in Hb0. lia.
  - intros Hnil. apply base_end.
    unfold ntraj. rewrite Ht, Hnil. cbn [app]. lia.
Qed.

Lemma initWithList_counts_from_index_zero_witness :
  let m := construct [Traj.sample 0 10] 2 3 in
  _nframes (initWithList [Traj.sample 1 5] m) = _nframes m + 3.
Proof.
  cbv zeta.
  destruct (initWithList_counts_from_index_zero [Traj.sample 1 5]
              (construct [Traj.sample 0 10] 2 3) ltac:(vm_compute; congruence)
              ltac:(vm_compute; split; congruence))
    as (_ & _ & _ & _ & _ & Hn & _).
  rewrite Hn; [reflexivity | vm_compute; reflexivity].
Defined.

(** ** frameIndexToLocation past the end *)

Lemma frameIndexToLocation_loop_past m i fuel :
  forall k,
    ntraj m < 2 ^ 32 -> total m < 2 ^ 32 ->
    0 <= k <= ntraj m -> (Z.to_nat (ntraj m - k) <= fuel)%nat ->
    total m <= i ->
    frameIndexToLocation_loop fuel m i k (base m k) = (ntraj m, total m).
Proof.
  induction fuel as [| fuel IH]; intros k Hn Ht Hk Hf Hi.
  - cbn [frameIndexToLocation_loop]. assert (k = ntraj m) by lia. subst k.
    now rewrite base_end by lia.
  - cbn [frameIndexToLocation_loop].
    destruct (Z.ltb_spec k (ntraj m)) as [Hlt | Hge].
    + pose proof (nframes_nonneg m k) as Hnn.
      pose proof (nframes_le_total m k ltac:(lia)) as Hnt.
      pose proof (base_le_total m (k + 1) ltac:(lia)) as Hbt.
      pose proof (base_mono m 0 k ltac:(lia)) as Hb0. rewrite base_0 in Hb0.
      rewrite base_succ in Hbt by lia.
      rewrite (wrap_small (nframes m k)) by lia.
      rewrite (wrap_small (base m k + nframes m k)) by lia.
      destruct (Z.gtb_spec (base m k + nframes m k) i) as [Hgt | Hle]; [lia |].
      rewrite (wrap_small (k + 1)) by lia.
      rewrite <- base_succ by lia.
      apply IH; lia.
    + assert (k = ntraj m) by lia. subst k. now rewrite base_end by lia.
Qed.

(** Property X15 ([frameIndexToLocation] past the end).  For a [uint]
    index at or beyond the total the loop runs through every source and
    the location returned names no source: its first component is the
    number of sources, so that taken as a cursor it is the end state.
    Its second component is [skip + (i - total) * stride] when that
    value fits a [uint]. *)
Theorem frameIndexToLocation_past_the_end :
  forall (m : MultiTrajectory) (i : Z),
    ntraj m < 2 ^ 32 -> total m < 2 ^ 32 -> total m <= i < 2 ^ 32 ->
    fst (frameIndexToLocation m i) = ntraj m /\
    eof (set_curtraj m (fst (frameIndexToLocation m i))) = true /\
    (0 <= _skip m -> 0 <= _stride m ->
     _skip m + (i - total m) * _stride m < 2 ^ 32 ->
     frameIndexToLocation m i = (ntraj m, _skip m + (i - total m) * _stride m)).
Proof.
  intros m i Hn Ht Hi.
  pose proof (ntraj_nonneg m) as Hnn.
  pose proof (total_nonneg m) as Htn.
  pose proof (frameIndexToLocation_loop_past m i (length (_trajectories m)) 0 Hn Ht
                ltac:(lia) ltac:(unfold ntraj; lia) ltac:(lia)) as Hl.
  rewrite base_0 in Hl.
  assert (E : frameIndexToLocation m i
              = (ntraj m, _skip m + (i - total m) * _stride m)).
  { unfold frameIndexToLocation. rewrite Hl. now rewrite wrap_small by lia. }
  rewrite E. cbn [fst]. split; [reflexivity |]. split; [| reflexivity].
  apply eof_true.
  change (ntraj (set_curtraj m (ntraj m))) with (ntraj m).
  cbn [_curtraj set_curtraj]. lia.
Qed.

Lemma frameIndexToLocation_past_the_end_witness :
  frameIndexToLocation
    (construct [Traj.sample 0 10; Traj.sample 1 5; Traj.sample 2 20] 2 3) 12
  = (3, 8).
Proof.
  destruct (frameIndexToLocation_past_the_end
              (construct [Traj.sample 0 10; Traj.sample 1 5; Traj.sample 2 20] 2 3) 12
              ltac:(vm_compute; congruence) ltac:(vm_compute; congruence)
              ltac:(vm_compute; split; congruence)) as (_ & _ & E).
  rewrite E; [reflexivity | vm_compute; congruence ..].
Defined.

End ComposerIteration.

(** ** Sparse storage *)

Section SparseArrayFacts.
Import MatrixStorage SparseArray.

Context {T : Type} (null_value : T).

Lemma subscript_const_lookup (a : SparseArray T) i :
  (i < dim_ a)%N ->
  subscript_const null_value a i = inr (from_option id null_value (dmap a !! i)).
Proof.
  intros Hi. unfold subscript_const.
  destruct (N.leb_spec (dim_ a) i); [lia |].
  now destruct (dmap a !! i).
Qed.

Lemma subscript_const_throws (a : SparseArray T) i :
  (dim_ a <= i)%N ->
  subscript_const null_value a i = inl (OutOfRange "Matrix linear index out of range").
Proof.
  intros Hi. unfold subscript_const.
  destruct (N.leb_spec (dim_ a) i); [reflexivity | lia].
Qed.

Lemma subscript_const_at (a b : SparseArray T) j :
  dim_ a = dim_ b ->
  from_option id null_value (dmap a !! j) = from_option id null_value (dmap b !! j) ->
  subscript_const null_value a j = subscript_const null_value b j.
Proof.
  intros Hd Hm. destruct (N.lt_ge_cases j (dim_ a)) as [Hlt | Hge].
  - rewrite !subscript_const_lookup by lia. now f_equal.
  - rewrite !subscript_const_throws by lia. reflexivity.
Qed.

(** Property X16 (a sparse store is read back).  A store at an index
    inside the dimension succeeds and is what the const subscript reads
    there afterwards; every other index reads as before and the
    dimension is unchanged.  A store, a read through the non-const
    subscript and a read through the const subscript at an index
    outside the dimension all raise [out_of_range], and that is the
    only way they fail. *)
Theorem sparse_store_is_read_back :
  forall (a : SparseArray T) (i : N) (v : T),
    ((i < dim_ a)%N ->
     exists a', assign null_value a i v = inr a' /\
                dim_ a' = dim_ a /\
                subscript_const null_value a' i = inr v /\
                forall j, j <> i ->
                          subscript_const null_value a' j = subscript_const null_value a j) /\
    ((exists e, assign null_value a i v = inl e) <-> (dim_ a <= i)%N) /\
    ((exists e, subscript null_value a i = inl e) <-> (dim_ a <= i)%N) /\
    ((exists e, subscript_const null_value a i = inl e) <-> (dim_ a <= i)%N).
Proof.
  intros a i v. split; [| split; [| split]].
  - intros Hi. unfold assign, subscript.
    destruct (N.leb_spec (dim_ a) i); [lia |].
    destruct (dmap a !! i) as [w |] eqn:Hl.
    + eexists. split; [reflexivity |]. split; [reflexivity |]. split.
      * rewrite subscript_const_lookup by exact Hi. cbn [dmap].
        now rewrite lookup_insert_eq.
      * intros j Hj. apply subscript_const_at; [reflexivity |].
        cbn [dmap]. now rewrite lookup_insert_ne by congruence.
    + eexists. split; [reflexivity |]. split; [reflexivity |]. split.
      * rewrite subscript_const_lookup by exact Hi. cbn [dmap].
        now rewrite lookup_insert_eq.
      * intros j Hj. apply subscript_const_at; [reflexivity |].
        cbn [dmap]. now rewrite !lookup_insert_ne by congruence.
  - unfold assign, subscript. destruct (N.leb_spec (dim_ a) i); split.
    + intros _. assumption.
    + intros _. eauto.
    + intros [e He]. destruct (dmap a !! i); discriminate.
    + lia.
  - unfold subscript. destruct (N.leb_spec (dim_ a) i); split.
    + intros _. assumption.
    + intros _. eauto.
    + intros [e He]. destruct (dmap a !! i); discriminate.
    + lia.
  - unfold subscript_const. destruct (N.leb_spec (dim_ a) i); split.
    + intros _. assumption.
    + intros _. eauto.
    + intros [e He]. destruct (dmap a !! i); discriminate.
    + lia.
Qed.

(** Property X17 (reading through the non-const subscript).  Inside
    the dimension the two subscripts read the same value, and the array
    the non-const one leaves reads the same at every index through the
    const one.  What differs is the map: an index that was not set gets
    an entry, so [actualSize] grows by one, while an index that was set
    leaves the array as it is. *)
Theorem nonconst_read_creates_an_entry :
  forall (a : SparseArray T) (i : N),
    (i < dim_ a)%N ->
    exists a' v,
      subscript null_value a i = inr (a', v) /\
      subscript_const null_value a i = inr v /\
      (forall j, subscript_const null_value a' j = subscript_const null_value a j) /\
      (dmap a !! i = None ->
       v = null_value /\ actualSize a' = (actualSize a + 1)%N) /\
      (is_Some (dmap a !! i) -> a' = a).
Proof.
  intros a i Hi. unfold subscript.
  rewrite (subscript_const_lookup a i Hi).
  destruct (N.leb_spec (dim_ a) i); [lia |].
  destruct (dmap a !! i) as [w |] eqn:Hl.
  - exists a, w. split; [reflexivity |]. split; [reflexivity |].
    split; [reflexivity |]. split; [discriminate | reflexivity].
  - eexists. exists null_value. split; [reflexivity |]. split; [reflexivity |]. split.
    + intros k. apply subscript_const_at; [reflexivity |]. cbn [dmap].
      destruct (decide (k = i)) as [-> | Hne].
      * now rewrite lookup_insert_eq, Hl.
      * now rewrite lookup_insert_ne by congruence.
    + split.
      * intros _. split; [reflexivity |]. unfold actualSize. cbn [dmap].
        rewrite map_size_insert_None by exact Hl. lia.
      * intros [? ?]. discriminate.
Qed.

(** ** The entries stay inside the dimension *)

Lemma NoDup_bounded_length (l : list nat) (n : nat) :
  List.NoDup l -> (forall x, In x l -> (x < n)%nat) -> (length l <= n)%nat.
Proof.
  intros Hnd Hb.
  assert (Hi : incl l (seq 0 n))
    by (intros x Hx; apply in_seq; specialize (Hb x Hx); lia).
  pose proof (NoDup_incl_length Hnd Hi) as Hl.
  now rewrite List.length_seq in Hl.
Qed.

Lemma in_range_size (a : SparseArray T) :
  in_range a -> (actualSize a <= dim_ a)%N.
Proof.
  intros Hr. unfold actualSize.
  rewrite <- size_dom.
  unfold base.size, set_size. cbn.
  pose proof (NoDup_elements (dom (dmap a))) as Hnd.
  assert (Hb : forall k, k ∈ elements (dom (dmap a)) -> (k < dim_ a)%N).
  { intros k Hk. apply elem_of_elements, elem_of_dom in Hk. now apply Hr. }
  assert (Hlen : (length (map N.to_nat (elements (dom (dmap a)))) <= N.to_nat (dim_ a))%nat).
  { apply NoDup_bounded_length.
    - apply NoDup_ListNoDup.
      assert (Hinj : Inj (=) (=) N.to_nat) by (intros x y Hxy; lia).
      now apply (NoDup_fmap_2 N.to_nat).
    - intros x Hx. apply in_map_iff in Hx as (k & <- & Hk).
      apply list_elem_of_In in Hk. specialize (Hb k Hk). lia. }
  rewrite length_map in Hlen. lia.
Qed.

(** Property X18 (the entries stay inside the dimension).  That every
    key of the map is below [dim_] holds of a newly made, a resized and
    a reset array and is kept by both subscripts' successful calls, by
    a store and by [set] and [copyData] from an array of which it
    holds.  It bounds the number of entries: [actualSize] never exceeds
    [dim_]. *)
Theorem sparse_entries_stay_in_range :
  (forall n, in_range (new T n)) /\
  (forall (this : SparseArray T) n, in_range (resize this n) /\ actualSize (resize this n) = 0%N) /\
  (forall this : SparseArray T, in_range (reset this) /\ dim_ (reset this) = 0%N) /\
  (forall a : SparseArray T,
     in_range a ->
     (actualSize a <= dim_ a)%N /\
     (forall i a' v, subscript null_value a i = inr (a', v) -> in_range a') /\
     (forall i v a', assign null_value a i v = inr a' -> in_range a') /\
     (forall this : SparseArray T, in_range (set this a) /\ in_range (copyData this a))).
Proof.
  assert (Hempty : forall n, in_range (mk n (∅ : gmap N T))).
  { intros n k [x Hx]. cbn [dmap] in Hx. rewrite lookup_empty in Hx. discriminate. }
  assert (Hins : forall (a : SparseArray T) i w,
             in_range a -> (i < dim_ a)%N -> in_range (mk (dim_ a) (<[i := w]> (dmap a)))).
  { intros a i w Hr Hi k [x Hx]. cbn [dmap dim_] in *.
    destruct (decide (k = i)) as [-> | Hne]; [exact Hi |].
    rewrite lookup_insert_ne in Hx by congruence. apply Hr. eauto. }
  split; [exact Hempty |]. split; [| split].
  - intros this n. split; [apply Hempty |]. unfold actualSize, resize. cbn [dmap].
    now rewrite map_size_empty.
  - intros this. split; [apply Hempty | reflexivity].
  - intros a Hr. split; [now apply in_range_size |]. split; [| split].
    + intros i a' v. unfold subscript.
      destruct (N.leb_spec (dim_ a) i); [discriminate |].
      destruct (dmap a !! i); intros [= <- _]; [exact Hr | now apply Hins].
    + intros i v a'. unfold assign, subscript.
      destruct (N.leb_spec (dim_ a) i); [discriminate |].
      destruct (dmap a !! i); intros [= <-].
      * now apply Hins.
      * cbn [dim_ dmap]. rewrite insert_insert_eq. now apply Hins.
    + intros this. unfold copyData, set. destruct a. split; exact Hr.
Qed.

End SparseArrayFacts.

Section SparseArrayExamples.
Import MatrixStorage SparseArray.

Lemma sparse_store_is_read_back_witness :
  exists a', assign 0%Z (new Z 4) 2 5%Z = inr a' /\
             subscript_const 0%Z a' 2 = inr 5%Z /\
             subscript_const 0%Z a' 3 = subscript_const 0%Z (new Z 4) 3.
Proof.
  destruct (proj1 (sparse_store_is_read_back 0%Z (new Z 4) 2 5%Z) ltac:(reflexivity))
    as (a' & Ha & _ & Hr & Hf).
  exists a'. split; [exact Ha |]. split; [exact Hr |]. apply Hf. discriminate.
Defined.

Lemma nonconst_read_creates_an_entry_witness :
  exists a' v,
    subscript 0%Z (new Z 4) 2 = inr (a', v) /\
    v = 0%Z /\ actualSize a' = 1%N.
Proof.
  destruct (nonconst_read_creates_an_entry 0%Z (new Z 4) 2 ltac:(reflexivity))
    as (a' & v & Hs & _ & _ & Hn & _).
  destruct (Hn eq_refl) as [Hv Hsz].
  exists a', v. split; [exact Hs |]. split; [exact Hv | exact Hsz].
Defined.

Lemma sparse_entries_stay_in_range_witness :
  exists a', assign 0%Z (new Z 3) 1 7%Z = inr a' /\ in_range a' /\ (actualSize a' <= 3)%N.
Proof.
  destruct (sparse_entries_stay_in_range 0%Z) as (Hnew & _ & _ & Hkeep).
  destruct (Hkeep (new Z 3) (Hnew 3%N)) as (_ & _ & Hst & _).
  eexists. split; [reflexivity |].
  pose proof (Hst 1%N 7%Z _ eq_refl) as Hr.
  split; [exact Hr |].
  destruct (Hkeep _ Hr) as (Hsz & _). exact Hsz.
Defined.

End SparseArrayExamples.

(** ** Shared storage *)

Section SharedArrayFacts.
Import MatrixStorage SharedArray.

Context {T : Type} (zero : T).

Implicit Types (a b s this : SharedArray) (h : heap T).

Lemma raw_read_cell l cell i h :
  h !! l = Some cell -> raw_read (Some l) i h = from_option Ok Undefined (cell !! i).
Proof. intros Hl. unfold raw_read. rewrite Hl. now destruct (cell !! i). Qed.

Lemma raw_write_cell l cell i v h :
  h !! l = Some cell -> (i < length cell)%nat ->
  raw_write (Some l) i v h = Ok (<[l := <[i := v]> cell]> h).
Proof.
  intros Hl Hi. unfold raw_write. rewrite Hl.
  destruct (Nat.ltb_spec i (length cell)); [reflexivity | lia].
Qed.

Lemma subscript_throws a i h :
  (dim_ a <= i)%N -> subscript a i h = Throw (OutOfRange "Matrix linear index out of range").
Proof. intros Hi. unfold subscript. destruct (N.leb_spec (dim_ a) i); [reflexivity | lia]. Qed.

Lemma subscript_cell a l cell i h :
  dptr a = Some l -> h !! l = Some cell -> (i < dim_ a)%N ->
  subscript a i h = from_option Ok Undefined (cell !! N.to_nat i).
Proof.
  intros Hp Hl Hi. unfold subscript. destruct (N.leb_spec (dim_ a) i); [lia |].
  rewrite Hp. now apply raw_read_cell.
Qed.

(** Storage that existed before an allocation is where it was. *)
Lemma subscript_grow a i h cells :
  valid a h -> subscript a i (h ++ cells) = subscript a i h.
Proof.
  intros Hv. unfold subscript. destruct (dim_ a <=? i)%N; [reflexivity |].
  unfold valid in Hv. destruct (dptr a) as [l |]; [| reflexivity].
  destruct Hv as (cell & Hl & _). unfold raw_read.
  rewrite (lookup_app_l_Some _ _ _ _ Hl), Hl. reflexivity.
Qed.

Lemma valid_grow a h cells : valid a h -> valid a (h ++ cells).
Proof.
  unfold valid. destruct (dptr a) as [l |]; [| trivial].
  intros (cell & Hl & Hn). exists cell. split; [| exact Hn].
  now apply lookup_app_l_Some.
Qed.

Lemma valid_fresh a h : valid a h -> dptr a <> Some (length h).
Proof.
  unfold valid. destruct (dptr a) as [l |]; [| discriminate].
  intros (cell & Hl & _) [= ->]. apply lookup_lt_Some in Hl. lia.
Qed.

(** Property X19 (storage from [allocate]).  A new array of [n]
    elements and an array resized to [n] are the same thing: the
    dimension is [n] and the storage is a new one, owned in full, in
    which every element reads 0.  Reads and stores at [n] and beyond
    raise [out_of_range].  An array that owned its storage before still
    does, shares nothing with the new one and reads as it did; this
    holds of the arrays that shared the storage of the resized one. *)
Theorem allocated_storage_is_new_and_zeroed :
  forall this (n : N) h,
    new zero n h = resize zero this n h /\
    let a' := fst (resize zero this n h) in
    let h' := snd (resize zero this n h) in
    dim_ a' = n /\ valid a' h' /\
    (forall i, (i < n)%N -> subscript a' i h' = Ok zero) /\
    (forall i v, (n <= i)%N ->
       subscript a' i h' = Throw (OutOfRange "Matrix linear index out of range") /\
       assign a' i v h' = Throw (OutOfRange "Matrix linear index out of range")) /\
    (forall b, valid b h ->
       valid b h' /\ dptr b <> dptr a' /\ forall i, subscript b i h' = subscript b i h).
Proof.
  intros this n h. split; [reflexivity |].
  unfold resize, allocate. cbn [fst snd dim_ dptr]. cbv zeta.
  assert (Hcell : (h ++ [replicate (N.to_nat n) zero]) !! length h
                  = Some (replicate (N.to_nat n) zero)).
  { rewrite lookup_app_r by lia. now rewrite Nat.sub_diag. }
  split; [reflexivity |]. split; [| split; [| split]].
  - unfold valid. cbn [dptr dim_]. eexists. split; [exact Hcell |].
    now rewrite length_replicate.
  - intros i Hi.
    rewrite (subscript_cell (mk n (Some (length h))) (length h) _ i _ eq_refl Hcell)
      by exact Hi.
    rewrite lookup_replicate_2 by lia. reflexivity.
  - intros i v Hi. split; [now apply subscript_throws |].
    unfold assign. cbn [dim_]. destruct (N.leb_spec n i); [reflexivity | lia].
  - intros b Hb. split; [now apply valid_grow |]. split; [now apply valid_fresh |].
    intros i. now apply subscript_grow.
Qed.

(** Property X20 (a store through a shared array).  A store at an
    index inside the dimension of an array that owns its storage
    succeeds; the array reads the stored value there and reads as
    before elsewhere.  Every array sharing the storage reads the stored
    value at that index too, and an array with other storage reads as
    before; each array that owned its storage still does. *)
Theorem shared_store_is_read_back :
  forall a (i : N) (v : T) h,
    valid a h -> (i < dim_ a)%N ->
    exists h',
      assign a i v h = Ok h' /\
      subscript a i h' = Ok v /\
      (forall j, j <> i -> subscript a j h' = subscript a j h) /\
      (forall b, dptr b = dptr a -> (i < dim_ b)%N -> subscript b i h' = Ok v) /\
      (forall b j, dptr b <> dptr a -> subscript b j h' = subscript b j h) /\
      (forall b, valid b h -> valid b h').
Proof.
  intros a i v h Hv Hi. pose proof Hv as Hv'. unfold valid in Hv'.
  destruct (dptr a) as [l |] eqn:Hp; [| lia].
  destruct Hv' as (cell & Hl & Hn).
  assert (Hll : (l < length h)%nat) by (now apply lookup_lt_Some in Hl).
  exists (<[l := <[N.to_nat i := v]> cell]> h).
  assert (Hnew : (<[l := <[N.to_nat i := v]> cell]> h) !! l
                 = Some (<[N.to_nat i := v]> cell))
    by now apply list_lookup_insert_eq.
  assert (Hshare : forall b, dptr b = Some l -> (i < dim_ b)%N ->
                             subscript b i (<[l := <[N.to_nat i := v]> cell]> h) = Ok v).
  { intros b Hb Hib. rewrite (subscript_cell b l _ i _ Hb Hnew Hib).
    rewrite list_lookup_insert_eq by lia. reflexivity. }
  split; [| split; [| split; [| split; [| split]]]].
  - unfold assign. destruct (N.leb_spec (dim_ a) i); [lia |].
    rewrite Hp. apply raw_write_cell; [exact Hl | lia].
  - now apply Hshare.
  - intros j Hj. destruct (N.lt_ge_cases j (dim_ a)) as [Hlt | Hge].
    + rewrite (subscript_cell a l _ j _ Hp Hnew Hlt), (subscript_cell a l _ j _ Hp Hl Hlt).
      rewrite list_lookup_insert_ne by lia. reflexivity.
    + now rewrite !subscript_throws by exact Hge.
  - exact Hshare.
  - intros b j Hb. unfold subscript. destruct (dim_ b <=? j)%N; [reflexivity |].
    destruct (dptr b) as [l' |] eqn:Hb'; [| reflexivity].
    assert (Hne : l <> l') by congruence.
    unfold raw_read. rewrite (list_lookup_insert_ne h l l' _ Hne). reflexivity.
  - intros b. unfold valid. destruct (dptr b) as [l' |]; [| trivial].
    intros (cell' & Hl' & Hn'). destruct (decide (l' = l)) as [-> | Hne].
    + exists (<[N.to_nat i := v]> cell). split; [exact Hnew |].
      rewrite length_insert. congruence.
    + exists cell'. split; [| exact Hn'].
      assert (Hne' : l <> l') by congruence.
      now rewrite (list_lookup_insert_ne h l l' _ Hne').
Qed.

(** ** copyData *)

Lemma copy_loop_spec (src : list T) d l :
  d <> l ->
  forall count i h dcell,
    h !! l = Some src -> h !! d = Some dcell ->
    (i + count <= length src)%nat -> (i + count <= length dcell)%nat ->
    exists dcell',
      copy_loop count i (Some d) (Some l) h = Ok (<[d := dcell']> h) /\
      length dcell' = length dcell /\
      forall j, dcell' !! j
                = if decide (i <= j < i + count)%nat then src !! j else dcell !! j.
Proof.
  intros Hdl. induction count as [| count IH]; intros i h dcell Hl Hd Hs Hc.
  - exists dcell. cbn [copy_loop]. rewrite list_insert_id by exact Hd.
    split; [reflexivity |]. split; [reflexivity |].
    intros j. destruct (decide (i <= j < i + 0)%nat); [lia | reflexivity].
  - destruct (lookup_lt_is_Some_2 src i ltac:(lia)) as [v Hv].
    cbn [copy_loop]. rewrite (raw_read_cell l src i h Hl), Hv. cbn [from_option].
    rewrite (raw_write_cell d dcell i v h Hd) by lia.
    assert (Hdl' : (d < length h)%nat) by (now apply lookup_lt_Some in Hd).
    destruct (IH (S i) (<[d := <[i := v]> dcell]> h) (<[i := v]> dcell)) as (dcell' & Hr & Hlen & Hlk).
    + now rewrite list_lookup_insert_ne by exact Hdl.
    + now apply list_lookup_insert_eq.
    + lia.
    + rewrite length_insert. lia.
    + exists dcell'. rewrite Hr, list_insert_insert_eq.
      split; [reflexivity |]. split; [now rewrite Hlen, length_insert |].
      intros j. rewrite Hlk.
      destruct (decide (S i <= j < S i + count)%nat) as [Hin | Hout].
      * destruct (decide (i <= j < i + S count)%nat); [reflexivity | lia].
      * destruct (decide (j = i)) as [-> | Hne].
        -- rewrite list_lookup_insert_eq by lia.
           destruct (decide (i <= i < i + S count)%nat); [now rewrite Hv | lia].
        -- rewrite list_lookup_insert_ne by congruence.
           destruct (decide (i <= j < i + S count)%nat); [lia | reflexivity].
Qed.

Lemma copy_loop_overrun (src : list T) d l :
  d <> l ->
  forall count i h dcell,
    h !! l = Some src -> h !! d = Some dcell ->
    length dcell = length src ->
    (i <= length src)%nat -> (length src < i + count)%nat ->
    copy_loop count i (Some d) (Some l) h = Undefined.
Proof.
  intros Hdl. induction count as [| count IH]; intros i h dcell Hl Hd Hlen Hi Hc; [lia |].
  cbn [copy_loop]. rewrite (raw_read_cell l src i h Hl).
  destruct (src !! i) as [v |] eqn:Hv; [| reflexivity]. cbn [from_option].
  apply lookup_lt_Some in Hv.
  rewrite (raw_write_cell d dcell i v h Hd) by lia.
  assert (Hdl' : (d < length h)%nat) by (now apply lookup_lt_Some in Hd).
  apply (IH (S i) _ (<[i := v]> dcell)).
  - now rewrite list_lookup_insert_ne by exact Hdl.
  - now apply list_lookup_insert_eq.
  - now rewrite length_insert.
  - lia.
  - lia.
Qed.

Lemma copy_loop_self d :
  forall count i h cell,
    h !! d = Some cell -> (i + count <= length cell)%nat ->
    copy_loop count i (Some d) (Some d) h = Ok h.
Proof.
  induction count as [| count IH]; intros i h cell Hd Hc; [reflexivity |].
  destruct (lookup_lt_is_Some_2 cell i ltac:(lia)) as [v Hv].
  cbn [copy_loop]. rewrite (raw_read_cell d cell i h Hd), Hv. cbn [from_option].
  rewrite (raw_write_cell d cell i v h Hd) by lia.
  rewrite (list_insert_id cell i v Hv), (list_insert_id h d cell Hd).
  apply (IH (S i) h cell Hd). lia.
Qed.

(** Property X21 ([copyData] makes an independent copy).  When the
    source owns its storage and the receiving array's dimension does
    not exceed the source's, [copyData] succeeds: the receiver keeps its
    dimension, gets a storage of its own and reads at each of its
    indices what the source reads there.  Every array that owned its
    storage before, the source among them, reads as before. *)
Theorem copyData_makes_an_independent_copy :
  forall this s h,
    valid s h -> (dim_ this <= dim_ s)%N ->
    exists this' h',
      copyData zero this s h = Ok (this', h') /\
      dim_ this' = dim_ this /\ dptr this' = Some (length h) /\
      dptr this' <> dptr s /\ valid this' h' /\
      (forall i, (i < dim_ this)%N -> subscript this' i h' = subscript s i h) /\
      (forall b, valid b h -> valid b h' /\ forall i, subscript b i h' = subscript b i h).
Proof.
  intros this s h Hv Hd. unfold copyData, allocate. cbn [dim_ dptr].
  set (d := length h). set (dcell := replicate (N.to_nat (dim_ s)) zero).
  assert (Hcell : (h ++ [dcell]) !! d = Some dcell).
  { unfold d. rewrite lookup_app_r by lia. now rewrite Nat.sub_diag. }
  pose proof (valid_fresh s h Hv) as Hfresh. fold d in Hfresh.
  pose proof Hv as Hv'. unfold valid in Hv'.
  destruct (dptr s) as [l |] eqn:Hp.
  - destruct Hv' as (src & Hl & Hn).
    assert (Hdl : d <> l) by congruence.
    assert (Hl1 : (h ++ [dcell]) !! l = Some src) by now apply lookup_app_l_Some.
    destruct (copy_loop_spec src d l Hdl (N.to_nat (dim_ this)) 0 (h ++ [dcell]) dcell Hl1 Hcell)
      as (dcell' & Hr & Hlen & Hlk).
    { lia. }
    { unfold dcell. rewrite length_replicate. lia. }
    rewrite Hr. eexists. eexists. split; [reflexivity |].
    assert (Hd1 : (d < length (h ++ [dcell]))%nat)
      by (rewrite length_app; cbn [length]; unfold d; lia).
    assert (Hnew : (<[d := dcell']> (h ++ [dcell])) !! d = Some dcell')
      by now apply list_lookup_insert_eq.
    assert (Hold : forall l', (l' < d)%nat ->
                     (<[d := dcell']> (h ++ [dcell])) !! l' = h !! l').
    { intros l' Hl'. rewrite list_lookup_insert_ne by lia.
      now rewrite lookup_app_l by (fold d; lia). }
    split; [reflexivity |]. split; [reflexivity |]. split; [cbn [dptr]; congruence |].
    split; [| split].
    + unfold valid. cbn [dptr dim_]. exists dcell'. split; [exact Hnew |].
      rewrite Hlen. unfold dcell. rewrite length_replicate. lia.
    + intros i Hi.
      rewrite (subscript_cell (mk (dim_ this) (Some d)) d dcell' i _ eq_refl Hnew Hi).
      rewrite (subscript_cell s l src i h Hp Hl) by lia.
      rewrite Hlk. destruct (decide (0 <= N.to_nat i < 0 + N.to_nat (dim_ this))%nat);
        [reflexivity | lia].
    + intros b Hb. pose proof Hb as Hb'. unfold valid in Hb'. split.
      * unfold valid. destruct (dptr b) as [l' |]; [| exact Hb'].
        destruct Hb' as (cell' & Hl' & Hn'). exists cell'. split; [| exact Hn'].
        rewrite Hold; [exact Hl' |]. apply lookup_lt_Some in Hl'. exact Hl'.
      * intros i. unfold subscript. destruct (dim_ b <=? i)%N; [reflexivity |].
        destruct (dptr b) as [l' |]; [| reflexivity].
        destruct Hb' as (cell' & Hl' & _). unfold raw_read.
        rewrite Hold by (apply lookup_lt_Some in Hl'; exact Hl').
        reflexivity.
  - assert (Hz : N.to_nat (dim_ this) = 0%nat) by lia. rewrite Hz. cbn [copy_loop].
    eexists. eexists. split; [reflexivity |].
    split; [reflexivity |]. split; [reflexivity |]. split; [cbn [dptr]; congruence |].
    split; [| split].
    + unfold valid. cbn [dptr dim_]. exists dcell. split; [exact Hcell | lia].
    + intros i Hi. lia.
    + intros b Hb. split; [now apply valid_grow | intros i; now apply subscript_grow].
Qed.

(** Property X22 ([copyData] does not take the dimension).  The
    receiving array's dimension is never set from the source: it is
    what it was, the new storage has the source's size and the loop runs
    to the receiver's dimension.  So a default-constructed receiver
    stays empty, every subscript of it raising [out_of_range]; and a
    receiver whose dimension exceeds that of a source holding exactly
    its dimension in elements runs the loop past the end of both
    storages, which is undefined behaviour. *)
Theorem copyData_keeps_the_receivers_dimension :
  (forall this s h this' h',
     copyData zero this s h = Ok (this', h') ->
     dim_ this' = dim_ this /\ dptr this' = Some (length h)) /\
  (forall s h,
     exists this' h',
       copyData zero default s h = Ok (this', h') /\
       forall i, subscript this' i h'
                 = Throw (OutOfRange "Matrix linear index out of range")) /\
  (forall this s h l src,
     dptr s = Some l -> h !! l = Some src ->
     length src = N.to_nat (dim_ s) -> (dim_ s < dim_ this)%N ->
     copyData zero this s h = Undefined).
Proof.
  split; [| split].
  - intros this s h this' h'. unfold copyData, allocate. cbn [dim_ dptr].
    destruct (copy_loop _ _ _ _ _); [| discriminate | discriminate].
    intros [= <- _]. split; reflexivity.
  - intros s h. unfold copyData, allocate, default. cbn [dim_ dptr N.to_nat copy_loop].
    eexists. eexists. split; [reflexivity |].
    intros i. apply subscript_throws. cbn [dim_]. lia.
  - intros this s h l src Hp Hl Hlen Hlt. unfold copyData, allocate. cbn [dim_ dptr].
    rewrite Hp.
    assert (Hll : (l < length h)%nat) by (now apply lookup_lt_Some in Hl).
    rewrite (copy_loop_overrun src (length h) l ltac:(lia) (N.to_nat (dim_ this)) 0
               (h ++ [replicate (N.to_nat (dim_ s)) zero])
               (replicate (N.to_nat (dim_ s)) zero)).
    + reflexivity.
    + now apply lookup_app_l_Some.
    + rewrite lookup_app_r by lia. now rewrite Nat.sub_diag.
    + rewrite length_replicate. lia.
    + lia.
    + lia.
Qed.

(** Property X23 (copying an array onto itself).  With the array
    itself for the source, [copyData] reads from the storage it has
    just allocated: it succeeds, the array keeps its dimension and every
    element reads 0, whatever the array held; the old storage is left
    to the arrays that shared it. *)
Theorem copyData_onto_itself_zeroes :
  forall this h,
    exists this' h',
      copyData_self zero this h = Ok (this', h') /\
      dim_ this' = dim_ this /\ dptr this' = Some (length h) /\
      (forall i, (i < dim_ this)%N -> subscript this' i h' = Ok zero) /\
      (forall b, valid b h -> forall i, subscript b i h' = subscript b i h).
Proof.
  intros this h. unfold copyData_self, allocate. cbn [dim_ dptr].
  set (cell := replicate (N.to_nat (dim_ this)) zero).
  assert (Hcell : (h ++ [cell]) !! length h = Some cell).
  { rewrite lookup_app_r by lia. now rewrite Nat.sub_diag. }
  rewrite (copy_loop_self (length h) (N.to_nat (dim_ this)) 0 (h ++ [cell]) cell Hcell)
    by (unfold cell; rewrite length_replicate; lia).
  eexists. eexists. split; [reflexivity |].
  split; [reflexivity |]. split; [reflexivity |]. split.
  - intros i Hi.
    rewrite (subscript_cell (mk (dim_ this) (Some (length h))) (length h) cell i _
               eq_refl Hcell Hi).
    unfold cell. rewrite lookup_replicate_2 by lia. reflexivity.
  - intros b Hb i. now apply subscript_grow.
Qed.

End SharedArrayFacts.

Section SharedArrayExamples.
Import MatrixStorage SharedArray.

Lemma shared_store_is_read_back_witness :
  let a := adopt 0 3 in
  exists h', assign a 1 7%Z [[1%Z; 2%Z; 3%Z]] = Ok h' /\
             subscript a 1 h' = Ok 7%Z /\
             subscript (set default a) 1 h' = Ok 7%Z.
Proof.
  cbv zeta.
  destruct (shared_store_is_read_back (adopt 0 3) 1 7%Z [[1%Z; 2%Z; 3%Z]])
    as (h' & Ha & Hr & _ & Hsh & _).
  - exists [1%Z; 2%Z; 3%Z]. split; [reflexivity | simpl; lia].
  - reflexivity.
  - exists h'. split; [exact Ha |]. split; [exact Hr |].
    apply Hsh; reflexivity.
Defined.

Lemma copyData_makes_an_independent_copy_witness :
  exists this' h',
    copyData 0%Z (adopt 9 2) (adopt 0 3) [[1%Z; 2%Z; 3%Z]] = Ok (this', h') /\
    subscript this' 1 h' = Ok 2%Z /\
    subscript (adopt 0 3) 1 h' = Ok 2%Z.
Proof.
  destruct (copyData_makes_an_independent_copy 0%Z (adopt 9 2) (adopt 0 3) [[1%Z; 2%Z; 3%Z]])
    as (this' & h' & Hc & _ & _ & _ & _ & Hr & Hb).
  - exists [1%Z; 2%Z; 3%Z]. split; [reflexivity | simpl; lia].
  - simpl. lia.
  - assert (Hv : valid (adopt 0 3) [[1%Z; 2%Z; 3%Z]])
      by (exists [1%Z; 2%Z; 3%Z]; split; [reflexivity | simpl; lia]).
    exists this', h'. split; [exact Hc |]. split.
    + rewrite (Hr 1%N ltac:(reflexivity)). reflexivity.
    + rewrite (proj2 (Hb _ Hv) 1%N). reflexivity.
Defined.

Lemma copyData_keeps_the_receivers_dimension_witness :
  copyData 0%Z (adopt 9 5) (adopt 0 3) [[1%Z; 2%Z; 3%Z]] = Undefined.
Proof.
  destruct (copyData_keeps_the_receivers_dimension 0%Z) as (_ & _ & Hu).
  apply (Hu (adopt 9 5) (adopt 0 3) [[1%Z; 2%Z; 3%Z]] 0%nat [1%Z; 2%Z; 3%Z]);
    reflexivity.
Defined.

End SharedArrayExamples.

(** ** Range lists *)

Section RangeListFacts.
Import Utils.
Import Stdlib.Strings.Ascii.

(** ** What parseRange returns *)

Lemma loop_up_nonempty fuel i b c l :
  i <= b -> loop_up fuel i b c = Returns l -> l <> [].
Proof.
  intros Hi. destruct fuel as [| fuel]; cbn [loop_up];
    destruct (Z.leb_spec i b); try lia; [discriminate |].
  destruct (INT_MAX <? i + c); [discriminate |].
  destruct (loop_up fuel (i + c) b c); intros [= <-]; discriminate.
Qed.

Lemma loop_down_nonempty fuel i b c l :
  b <= i -> loop_down fuel i b c = Returns l -> l <> [].
Proof.
  intros Hi. destruct fuel as [| fuel]; cbn [loop_down];
    destruct (Z.geb_spec i b); try lia; [discriminate |].
  destruct (i - c <? INT_MIN); [discriminate |].
  destruct (loop_down fuel (i - c) b c); intros [= <-]; discriminate.
Qed.

(** With a step of at least 1 the rounds allowed are enough: the loops
    end, and [range] does not return only when the step is 0. *)
Lemma loop_up_ends fuel :
  forall i b c, 1 <= c -> b - i < Z.of_nat fuel -> loop_up fuel i b c <> Diverges.
Proof.
  induction fuel as [| fuel IH]; intros i b c Hc Hf; cbn [loop_up];
    destruct (Z.leb_spec i b); try lia; try discriminate.
  destruct (INT_MAX <? i + c); [discriminate |].
  specialize (IH (i + c) b c Hc ltac:(lia)).
  destruct (loop_up fuel (i + c) b c); congruence.
Qed.

Lemma loop_down_ends fuel :
  forall i b c, 1 <= c -> i - b < Z.of_nat fuel -> loop_down fuel i b c <> Diverges.
Proof.
  induction fuel as [| fuel IH]; intros i b c Hc Hf; cbn [loop_down];
    destruct (Z.geb_spec i b); try lia; try discriminate.
  destruct (i - c <? INT_MIN); [discriminate |].
  specialize (IH (i - c) b c Hc ltac:(lia)).
  destruct (loop_down fuel (i - c) b c); congruence.
Qed.

Lemma range_diverges a b c : range a b c = Diverges -> c = 0.
Proof.
  unfold range.
  destruct (a =? INT_MIN); [discriminate |].
  destruct ((a <? - a) && (b =? 0)); [discriminate |].
  destruct (Z.eqb_spec c 0); [trivial |].
  destruct (Z.ltb_spec c 0); [discriminate |].
  destruct (Z.geb_spec b a); intros Hd; exfalso.
  - apply (loop_up_ends (S (Z.to_nat (b - a))) a b c); [lia | lia | exact Hd].
  - apply (loop_down_ends (S (Z.to_nat (a - b))) a b c); [lia | lia | exact Hd].
Qed.

Lemma range_nonempty a b c l : range a b c = Returns l -> l <> [].
Proof.
  unfold range.
  destruct (a =? INT_MIN); [discriminate |].
  destruct ((a <? - a) && (b =? 0)); [discriminate |].
  destruct (c =? 0); [discriminate |].
  destruct (c <? 0); [discriminate |].
  destruct (Z.geb_spec b a).
  - apply loop_up_nonempty. lia.
  - apply loop_down_nonempty. lia.
Qed.

Lemma parseRange_nonempty text l : parseRange text = Returns l -> l <> [].
Proof.
  unfold parseRange.
  destruct (extract_int (str text)) as [s1 a1].
  destruct (eof s1).
  { destruct a1; [intros [= <-] |]; discriminate. }
  destruct (extract_int s1) as [s2 a2].
  destruct (extract_char s2) as [s3 sep].
  destruct (extract_int s3) as [s4 b].
  destruct (fail s4); [discriminate |].
  destruct (match a2 with Some v => Some v | None => a1 end) as [a |]; [| discriminate].
  destruct sep as [sep |]; [| discriminate].
  destruct b as [b |]; [| discriminate].
  destruct (negb (Ascii.eqb sep ":")); [discriminate |].
  destruct (eof s4); [apply range_nonempty |].
  destruct (extract_char s4) as [s5 sep'].
  destruct (extract_int s5) as [s6 b'].
  destruct (fail s6); [discriminate |].
  destruct sep' as [sep' |]; [| discriminate].
  destruct b' as [b' |]; [| discriminate].
  destruct (negb (Ascii.eqb sep' ":")); [discriminate |].
  apply range_nonempty.
Qed.

(** ** The loop over the terms *)

Lemma collect_no_term l indices :
  List.filter (fun t => negb (empty t)) l = [] ->
  collect l indices = Returns (from_option id [] indices).
Proof.
  induction l as [| t l IH]; intros Hf; [reflexivity |].
  cbn [collect]. cbn [List.filter] in Hf.
  destruct (empty t); cbn [negb] in Hf; [| discriminate]. now apply IH.
Qed.

Lemma collect_one_term l t r :
  List.filter (fun t => negb (empty t)) l = [t] ->
  parseRange t = Returns r ->
  collect l None = Returns r.
Proof.
  intros Hf Hr. pose proof (parseRange_nonempty t r Hr) as Hne.
  induction l as [| t0 l IH]; [discriminate |].
  cbn [collect]. cbn [List.filter] in Hf.
  destruct (empty t0); cbn [negb] in Hf; [now apply IH |].
  injection Hf as -> Hf. rewrite Hr.
  destruct r as [| v vs]; [congruence |].
  now rewrite (collect_no_term l (Some (v :: vs)) Hf).
Qed.

Lemma collect_second_term l :
  forall t1 t2 ts r1 r2,
    List.filter (fun t => negb (empty t)) l = t1 :: t2 :: ts ->
    parseRange t1 = Returns r1 -> parseRange t2 = Returns r2 ->
    collect l None = Undefined.
Proof.
  intros t1 t2 ts r1 r2 Hf Hr1 Hr2.
  pose proof (parseRange_nonempty t1 r1 Hr1) as Hne1.
  pose proof (parseRange_nonempty t2 r2 Hr2) as Hne2.
  induction l as [| t0 l IH]; [discriminate |].
  cbn [collect]. cbn [List.filter] in Hf.
  destruct (empty t0); cbn [negb] in Hf; [now apply IH |].
  injection Hf as -> Hf. rewrite Hr1.
  destruct r1 as [| v vs]; [congruence |].
  clear IH. induction l as [| t0 l IH]; [discriminate |].
  cbn [collect]. cbn [List.filter] in Hf.
  destruct (empty t0); cbn [negb] in Hf; [now apply IH |].
  injection Hf as -> Hf. rewrite Hr2.
  destruct r2 as [| w ws]; [congruence | reflexivity].
Qed.

(** ** Sorting and the removal of duplicates *)

Lemma parseRangeList_loop_spec rest :
  forall last,
    StronglySorted Z.le (last :: rest) ->
    StronglySorted Z.lt (last :: parseRangeList_loop last rest) /\
    forall x, x ∈ last :: parseRangeList_loop last rest <-> x ∈ last :: rest.
Proof.
  induction rest as [| y rest IH]; intros last Hs.
  - cbn [parseRangeList_loop]. split; [| tauto].
    constructor; constructor.
  - apply StronglySorted_inv in Hs as [Hs Hall].
    pose proof (Forall_inv Hall) as Hy. apply Forall_inv_tail in Hall.
    cbn [parseRangeList_loop]. destruct (Z.eqb_spec y last) as [-> | Hne]; cbn [negb].
    + destruct (IH last) as [Hsorted Hmem].
      { apply StronglySorted_inv in Hs as [Hs' _]. now constructor. }
      split; [exact Hsorted |].
      intros x. rewrite Hmem, !elem_of_cons. tauto.
    + destruct (IH y Hs) as [Hsorted Hmem]. split.
      * constructor; [exact Hsorted |].
        pose proof Hsorted as Hs'. apply StronglySorted_inv in Hs' as [_ Hgt].
        constructor; [lia |].
        eapply Forall_impl; [exact Hgt |]. intros z Hz. cbn in Hz. lia.
      * intros x. rewrite elem_of_cons, Hmem, !elem_of_cons. tauto.
Qed.

Lemma parseRangeList_sorted_spec (indices : list Z) :
  indices <> [] ->
  exists (first : Z) (results : list Z),
    parseRangeList_sorted indices = Returns results /\
    first ∈ indices /\ (forall y, y ∈ indices -> first <= y) /\
    StronglySorted Z.lt (first :: results) /\
    (forall x, x ∈ first :: results <-> x ∈ indices) /\
    first ∉ results.
Proof.
  intros Hne. unfold parseRangeList_sorted.
  pose proof (StronglySorted_merge_sort Z.le indices) as Hs.
  pose proof (merge_sort_Permutation Z.le indices) as Hp.
  destruct (merge_sort Z.le indices) as [| first rest].
  - apply Permutation_nil_l in Hp. congruence.
  - destruct (parseRangeList_loop_spec rest first Hs) as [Hsorted Hmem].
    exists first, (parseRangeList_loop first rest).
    split; [reflexivity |]. split; [| split; [| split; [| split]]].
    + rewrite <- Hp. apply elem_of_cons. now left.
    + intros y Hy. rewrite <- Hp in Hy. apply elem_of_cons in Hy as [-> | Hy]; [lia |].
      apply StronglySorted_inv in Hs as [_ Hall].
      rewrite Forall_forall in Hall. now apply Hall.
    + exact Hsorted.
    + intros x. rewrite Hmem. now rewrite Hp.
    + intros Hin. apply StronglySorted_inv in Hsorted as [_ Hall].
      rewrite Forall_forall in Hall. apply Hall in Hin. lia.
Qed.

(** Property X24 (the result of [parseRangeList] lacks the smallest
    value).  For a text with one term that is not empty and that
    [parseRange] accepts, [parseRangeList] returns: the smallest of the
    values of the term is taken for [last] and only values that differ
    from [last] are pushed, so the result holds, once each and in
    ascending order, the values of the term except the smallest.  With
    the smallest put in front the list is strictly ascending and has
    exactly the values of the term. *)
Theorem parseRangeList_drops_the_smallest :
  forall (text t : string) (r : list Z),
    terms text = [t] ->
    parseRange t = Returns r ->
    exists (first : Z) (results : list Z),
      parseRangeList text = Returns results /\
      first ∈ r /\ (forall y, y ∈ r -> first <= y) /\
      StronglySorted Z.lt (first :: results) /\
      (forall x, x ∈ first :: results <-> x ∈ r) /\
      first ∉ results.
Proof.
  intros text t r Hterms Hr.
  destruct (parseRangeList_sorted_spec r (parseRange_nonempty t r Hr))
    as (first & results & Hs & Hrest).
  exists first, results. split; [| exact Hrest].
  unfold parseRangeList. now rewrite (collect_one_term _ t r Hterms Hr).
Qed.

Lemma parseRangeList_drops_the_smallest_witness :
  parseRangeList "7" = Returns [] /\
  parseRangeList "0 2:4" = Returns [3; 4] /\
  exists first results,
    parseRangeList "0 9:3:1" = Returns results /\ (first ∉ results) /\
    forall x, x ∈ first :: results <-> x ∈ [9; 6; 3].
Proof.
  split; [reflexivity |]. split; [reflexivity |].
  destruct (parseRangeList_drops_the_smallest "0 9:3:1" "0 9:3:1" [9; 6; 3]
              eq_refl eq_refl)
    as (first & results & Hr & _ & _ & _ & Hm & Hn).
  exists first, results. split; [exact Hr |]. split; [exact Hn | exact Hm].
Defined.

(** Property X25 (a second term is undefined behaviour).  When a text
    has two or more terms that are not empty and [parseRange] accepts
    the first two, the values of the second are inserted through the
    insert iterator the first insertion has invalidated: the call has
    no defined result. *)
Theorem parseRangeList_second_term_undefined :
  forall (text t1 t2 : string) (ts : list string) (r1 r2 : list Z),
    terms text = t1 :: t2 :: ts ->
    parseRange t1 = Returns r1 -> parseRange t2 = Returns r2 ->
    parseRangeList text = Undefined.
Proof.
  intros text t1 t2 ts r1 r2 Hterms Hr1 Hr2. unfold parseRangeList.
  now rewrite (collect_second_term _ t1 t2 ts r1 r2 Hterms Hr1 Hr2).
Qed.

Lemma parseRangeList_second_term_undefined_witness :
  parseRangeList "3,1,2" = Undefined.
Proof.
  apply (parseRangeList_second_term_undefined "3,1,2" "3" "1" ["2"%string] [3] [1]);
    reflexivity.
Defined.

(** ** Ranges *)

Lemma isdigit_not_space c : isdigit c = true -> isspace c = false.
Proof.
  unfold isdigit, isspace. cbv zeta. intros H.
  apply andb_prop in H as [H1 H2].
  apply Nat.leb_le in H1. apply Nat.leb_le in H2.
  apply orb_false_intro.
  - apply Nat.eqb_neq. lia.
  - apply andb_false_intro2. apply Nat.leb_gt. lia.
Qed.

Lemma isdigit_not_sign c :
  isdigit c = true -> Ascii.eqb c "-" = false /\ Ascii.eqb c "+" = false.
Proof.
  unfold isdigit. cbv zeta. intros H.
  apply andb_prop in H as [H1 _]. apply Nat.leb_le in H1.
  split; apply Ascii.eqb_neq; intros ->; vm_compute in H1; lia.
Qed.

Lemma digits_app ds :
  forall acc n c rest,
    Forall (fun d => isdigit d = true) ds -> isdigit c = false ->
    exists v, digits acc n (ds ++ c :: rest) = (v, (n + length ds)%nat, c :: rest).
Proof.
  induction ds as [| d ds IH]; intros acc n c rest Hall Hc.
  - exists acc. cbn [app digits length]. rewrite Hc. now rewrite Nat.add_0_r.
  - apply Forall_cons in Hall as [Hd Hall].
    cbn [app digits length]. rewrite Hd.
    destruct (IH (10 * acc + Z.of_nat (nat_of_ascii d - 48)) (S n) c rest Hall Hc)
      as [v Hv].
    exists v. rewrite Hv. f_equal. f_equal. lia.
Qed.

(** Property X26 ([parseRange] rejects the range syntax).  A text that
    begins with decimal digits followed by a colon, the form [a:b] and
    [a:c:b] of a range, makes [parseRange] throw [runtime_error]
    whatever follows: the first [is >> a] has taken the digits, and the
    statement that reads the range extracts [a] once more, at the
    colon, which fails. *)
Theorem parseRange_rejects_range_syntax :
  forall (ds rest : list ascii),
    ds <> [] -> Forall (fun d => isdigit d = true) ds ->
    let text := string_of_list_ascii (ds ++ ":"%char :: rest) in
    parseRange text = Throws (could_not_parse text).
Proof.
  intros ds rest Hne Hall text.
  assert (Hsp : skipws (ds ++ ":"%char :: rest) = ds ++ ":"%char :: rest).
  { destruct ds as [| d ds]; [congruence |].
    apply Forall_cons in Hall as [Hd _].
    cbn [app skipws]. now rewrite (isdigit_not_space d Hd). }
  assert (Hsign : match ds ++ ":"%char :: rest with
                  | c :: r =>
                    if Ascii.eqb c "-" then (true, r)
                    else if Ascii.eqb c "+" then (false, r)
                    else (false, ds ++ ":"%char :: rest)
                  | [] => (false, [])
                  end = (false, ds ++ ":"%char :: rest)).
  { destruct ds as [| d ds]; [congruence |].
    apply Forall_cons in Hall as [Hd _].
    destruct (isdigit_not_sign d Hd) as [H1 H2].
    cbn [app]. now rewrite H1, H2. }
  destruct (digits_app ds 0 0 ":"%char rest Hall eq_refl) as [v Hv].
  assert (Hn : exists k, length ds = S k)
    by (destruct ds; [congruence | cbn [length]; eauto]).
  destruct Hn as [k Hk]. rewrite Nat.add_0_l, Hk in Hv.
  assert (H1 : exists f w,
             extract_int (str text) = (mkIs (":"%char :: rest) false f, Some w)).
  { unfold extract_int, sentry, str, text.
    rewrite list_ascii_of_string_of_list_ascii.
    cbn [good eofbit failbit negb andb unread]. rewrite Hsp.
    destruct (ds ++ ":"%char :: rest) as [| c0 r0] eqn:E;
      [destruct ds; discriminate |].
    cbn [unread]. rewrite Hsign, Hv.
    destruct (v <? INT_MIN); [eauto |]. destruct (INT_MAX <? v); eauto. }
  destruct H1 as (f & w & H1).
  unfold parseRange. rewrite H1. cbn [eof eofbit].
  assert (H2 : exists s a s' sep s'' b,
             extract_int (mkIs (":"%char :: rest) false f) = (s, a) /\
             extract_char s = (s', sep) /\
             extract_int s' = (s'', b) /\
             fail s'' = true).
  { destruct f.
    - do 6 eexists. split; [reflexivity |]. split; [reflexivity |].
      split; reflexivity.
    - do 6 eexists. split; [reflexivity |]. split; [reflexivity |].
      split; reflexivity. }
  destruct H2 as (s & a & s' & sep & s'' & b & E1 & E2 & E3 & Hf).
  rewrite E1, E2, E3, Hf. reflexivity.
Qed.

Lemma parseRange_rejects_range_syntax_witness :
  parseRange "1:3" = Throws (could_not_parse "1:3") /\
  parseRange "10:2:20" = Throws (could_not_parse "10:2:20").
Proof.
  split.
  - apply (parseRange_rejects_range_syntax ["1"%char] ["3"%char]);
      [discriminate | repeat constructor].
  - apply (parseRange_rejects_range_syntax
             ["1"%char; "0"%char] ["2"%char; ":"%char; "2"%char; "0"%char]);
      [discriminate | repeat constructor].
Defined.

End RangeListFacts.
